(** * Section tree of the bukva-you platform

    A shallow embedding of the section hierarchy code of the platform:
    - [buildSectionsTree] and the section routes of the express server
      (GET /api/sections/tree, GET /api/sections, POST, PATCH and DELETE
      /api/sections/:id);
    - [flattenSections] of the teacher view on the client, the form of
      that view and POST /api/exercises;
    - the requests of services.js and the navigation of the student view;
    - [ensureSection], [seedSections] and the migration of the exercises
      in [initDb];
    - the validators of the registration.

    Numbers are modelled as [Z]: ids and order indexes are SQLite integers,
    and the subtraction of the sort comparator is exact on them.  The
    [sections] table is a list of rows.  The node objects that
    [buildSectionsTree] allocates are shared and mutated (their [children]
    arrays are pushed to and sorted in place), so they live in an explicit
    store: the insertion-ordered [Map] called [byId], in which a reference
    to a node is the key under which the node was stored. *)

From Stdlib Require Import ZArith List Bool String Ascii DecimalString Lia.
From Stdlib Require Import Permutation Sorted DecimalZ DecimalPos.
Import ListNotations.
Open Scope string_scope.
Open Scope list_scope.
Open Scope Z_scope.

Set Warnings "-register-all".

Set Implicit Arguments.

(** ** Small option monad, for partial steps of the model *)

Definition obind {A B} (o : option A) (k : A -> option B) : option B :=
  match o with
  | Some a => k a
  | None => None
  end.

Notation "x <- e ;; k" := (obind e (fun x => k))
  (at level 61, e at next level, right associativity).

Fixpoint mapM {A B} (f : A -> option B) (l : list A) : option (list B) :=
  match l with
  | [] => Some []
  | a :: l' =>
      b <- f a ;;
      bs <- mapM f l' ;;
      Some (b :: bs)
  end.

(** ** Data model *)

(** A row of the [sections] table, with the column names of the schema. *)
Module Row.
Record t := mk {
  id : Z;
  name : string;
  parent_id : option Z;
  order_index : Z;
  is_active : Z;
  created_at : string;
  updated_at : string
}.
End Row.

(** A node object while [buildSectionsTree] runs.  [children] is a JS array
    of node objects; an element is a reference, that is the id under which
    the object sits in [byId]. *)
Module Obj.
Record t := mk {
  id : Z;
  name : string;
  parentId : option Z;
  orderIndex : Z;
  isActive : bool;
  children : list Z
}.
End Obj.

(** The value a consumer of the returned array sees (what [res.json]
    serialises and what the client receives): a finite tree. *)
Module Node.
Inductive t := mk {
  id : Z;
  name : string;
  parentId : option Z;
  orderIndex : Z;
  isActive : bool;
  children : list t
}.
End Node.

(** ** The insertion-ordered Map [byId] *)

Definition jsmap := list (Z * Obj.t).

(** [Map.prototype.set]: a key already present keeps its position. *)
Fixpoint map_set (k : Z) (v : Obj.t) (m : jsmap) : jsmap :=
  match m with
  | [] => [(k, v)]
  | (k', v') :: m' =>
      if k =? k' then (k, v) :: m' else (k', v') :: map_set k v m'
  end.

Fixpoint map_get (k : Z) (m : jsmap) : option Obj.t :=
  match m with
  | [] => None
  | (k', v') :: m' => if k =? k' then Some v' else map_get k m'
  end.

Definition map_has (k : Z) (m : jsmap) : bool :=
  match map_get k m with
  | Some _ => true
  | None => false
  end.

Definition map_keys (m : jsmap) : list Z := map fst m.

(** In-place mutation of the object stored under [k]. *)
Fixpoint map_update (k : Z) (f : Obj.t -> Obj.t) (m : jsmap) : jsmap :=
  match m with
  | [] => []
  | (k', v') :: m' =>
      if k =? k' then (k', f v') :: m' else (k', v') :: map_update k f m'
  end.

(** ** buildSectionsTree *)

(** [Boolean(row.is_active)] on an integer column. *)
Definition Boolean (z : Z) : bool := negb (z =? 0).

(** The object literal built for a row in the first loop. *)
Definition node_of_row (row : Row.t) : Obj.t :=
  {| Obj.id := Row.id row;
     Obj.name := Row.name row;
     Obj.parentId := Row.parent_id row;
     Obj.orderIndex := Row.order_index row;
     Obj.isActive := Boolean (Row.is_active row);
     Obj.children := [] |}.

(** [rows.forEach((row) => byId.set(row.id, {...}))] *)
Definition index_rows (rows : list Row.t) : jsmap :=
  fold_left (fun byId row => map_set (Row.id row) (node_of_row row) byId) rows [].

(** The state of the function after the first loop: the map and the local
    array [roots]. *)
Record heap := mkHeap {
  byId : jsmap;
  roots : list Z
}.

Definition push_child (c : Z) (o : Obj.t) : Obj.t :=
  {| Obj.id := Obj.id o;
     Obj.name := Obj.name o;
     Obj.parentId := Obj.parentId o;
     Obj.orderIndex := Obj.orderIndex o;
     Obj.isActive := Obj.isActive o;
     Obj.children := Obj.children o ++ [c] |}.

Definition set_children (cs : list Z) (o : Obj.t) : Obj.t :=
  {| Obj.id := Obj.id o;
     Obj.name := Obj.name o;
     Obj.parentId := Obj.parentId o;
     Obj.orderIndex := Obj.orderIndex o;
     Obj.isActive := Obj.isActive o;
     Obj.children := cs |}.

(** The body of the second loop, for one node of the map:
    [if (node.parentId == null || !byId.has(node.parentId)) roots.push(node)
     else byId.get(node.parentId).children.push(node)]. *)
Definition attach (h : heap) (kv : Z * Obj.t) : heap :=
  let (k, node) := kv in
  match Obj.parentId node with
  | None => mkHeap (byId h) (roots h ++ [k])
  | Some p =>
      if map_has p (byId h)
      then mkHeap (map_update p (push_child k) (byId h)) (roots h)
      else mkHeap (byId h) (roots h ++ [k])
  end.

(** [byId.forEach(...)]: the entries are visited in insertion order; the
    loop never adds or removes a key. *)
Definition attach_all (m : jsmap) : heap :=
  fold_left attach m (mkHeap m []).

(** The comparator [(a, b) => a.orderIndex - b.orderIndex || a.id - b.id]. *)
Definition compareNodes (a b : Obj.t) : Z :=
  let d := Obj.orderIndex a - Obj.orderIndex b in
  if d =? 0 then Obj.id a - Obj.id b else d.

(** [Array.prototype.sort] is a stable sort; with a consistent comparator its
    result is the one of a stable insertion sort. *)
Section Sort.
Variable A : Type.
Variable cmp : A -> A -> Z.

Fixpoint insert (x : A) (l : list A) : list A :=
  match l with
  | [] => [x]
  | y :: l' => if cmp x y <=? 0 then x :: y :: l' else y :: insert x l'
  end.

Fixpoint sort (l : list A) : list A :=
  match l with
  | [] => []
  | x :: l' => insert x (sort l')
  end.

(** The order the comparator stands for. *)
Definition le_of (x y : A) : Prop := cmp x y <= 0.
End Sort.

(** Sorting an array of node references: the comparator reads the fields of
    the referenced objects. *)
Definition sort_refs (m : jsmap) (refs : list Z) : option (list Z) :=
  objs <- mapM (fun r => map_get r m) refs ;;
  Some (map Obj.id (sort compareNodes objs)).

(** An array sorted by [sortNodes] is either the local [roots] or the
    [children] array of a node. *)
Inductive array_ref :=
| Roots
| ChildrenOf (r : Z).

Definition read_array (h : heap) (a : array_ref) : option (list Z) :=
  match a with
  | Roots => Some (roots h)
  | ChildrenOf r => o <- map_get r (byId h) ;; Some (Obj.children o)
  end.

Definition write_array (h : heap) (a : array_ref) (l : list Z) : heap :=
  match a with
  | Roots => mkHeap (byId h) l
  | ChildrenOf r => mkHeap (map_update r (set_children l) (byId h)) (roots h)
  end.

(** [sortNodes(nodes)]: sort the array in place, then recurse into the
    children array of each of its nodes.  The recursion of the source is
    bounded here by [fuel]; [None] means the bound was reached (or a
    reference did not resolve, which cannot happen for references taken
    from the map). *)
Fixpoint sortNodes (fuel : nat) (h : heap) (nodes : array_ref) : option heap :=
  match fuel with
  | O => None
  | S fuel' =>
      arr <- read_array h nodes ;;
      sorted <- sort_refs (byId h) arr ;;
      fold_left
        (fun acc node => h' <- acc ;; sortNodes fuel' h' (ChildrenOf node))
        sorted
        (Some (write_array h nodes sorted))
  end.

(** The tree hanging from a node reference, as a consumer of the result
    reads it (following [children] arrays). *)
Fixpoint view (fuel : nat) (m : jsmap) (r : Z) : option Node.t :=
  match fuel with
  | O => None
  | S fuel' =>
      o <- map_get r m ;;
      cs <- mapM (view fuel' m) (Obj.children o) ;;
      Some {| Node.id := Obj.id o;
              Node.name := Obj.name o;
              Node.parentId := Obj.parentId o;
              Node.orderIndex := Obj.orderIndex o;
              Node.isActive := Obj.isActive o;
              Node.children := cs |}
  end.

(** [buildSectionsTree(rows)].  The nesting of a tree of [n] nodes is at
    most [n], so [S n] is enough fuel for both recursions (see
    [buildSectionsTree_total]). *)
Definition buildSectionsTree (rows : list Row.t) : option (list Node.t) :=
  let m := index_rows rows in
  let h := attach_all m in
  let fuel := S (List.length m) in
  h' <- sortNodes fuel h Roots ;;
  mapM (view fuel (byId h')) (roots h').

(** ** JavaScript values of requests and of flattened entries *)

Inductive jsvalue :=
| JUndefined
| JNull
| JBool (b : bool)
| JNum (z : Z)
| JStr (s : string).

Definition jsvalue_eqb (a b : jsvalue) : bool :=
  match a, b with
  | JUndefined, JUndefined => true
  | JNull, JNull => true
  | JBool x, JBool y => Bool.eqb x y
  | JNum x, JNum y => x =? y
  | JStr x, JStr y => String.eqb x y
  | _, _ => false
  end.

(** An object literal: its properties in the order they are written. *)
Definition jsobject := list (string * jsvalue).

(** Property read [o.key]; a missing property reads as [undefined]. *)
Fixpoint get_prop (o : jsobject) (key : string) : jsvalue :=
  match o with
  | [] => JUndefined
  | (k, v) :: o' => if String.eqb k key then v else get_prop o' key
  end.

(** Truthiness, as in [value ? 1 : 0]. *)
Definition truthy (v : jsvalue) : bool :=
  match v with
  | JUndefined => false
  | JNull => false
  | JBool b => b
  | JNum z => negb (z =? 0)
  | JStr s => negb (String.eqb s "")
  end.

(** *** Number.parseInt(value, 10)

    On a string: leading white space is skipped, an optional sign is read,
    then the longest prefix of decimal digits; no digit gives [NaN], which
    is [None] here.  A number is converted to its decimal text first, so an
    integer is returned as it is.

    The model is exact where the language is: on integers of absolute
    value below 2^53 (beyond, the language rounds to a double, and it
    writes a number from 1e21 on with an exponent), and on texts whose
    white space is ASCII (the language also skips white space beyond
    ASCII, such as U+00A0 and U+FEFF). *)

(** ASCII white space: tab to carriage return, and the space. *)
Definition is_space (c : ascii) : bool :=
  let n := N_of_ascii c in
  ((9 <=? n) && (n <=? 13))%N || (n =? 32)%N.

Definition digit_of (c : ascii) : option Z :=
  let n := Z.of_N (N_of_ascii c) in
  if (48 <=? n) && (n <=? 57) then Some (n - 48) else None.

Fixpoint skip_spaces (s : string) : string :=
  match s with
  | String c s' => if is_space c then skip_spaces s' else s
  | EmptyString => s
  end.

Fixpoint read_digits (s : string) (acc : Z) : Z :=
  match s with
  | String c s' =>
      match digit_of c with
      | Some d => read_digits s' (10 * acc + d)
      | None => acc
      end
  | EmptyString => acc
  end.

Definition parse_unsigned (s : string) : option Z :=
  match s with
  | String c _ =>
      match digit_of c with
      | Some _ => Some (read_digits s 0)
      | None => None
      end
  | EmptyString => None
  end.

Definition parseInt_string (s : string) : option Z :=
  match skip_spaces s with
  | String "-" s' => option_map Z.opp (parse_unsigned s')
  | String "+" s' => parse_unsigned s'
  | s' => parse_unsigned s'
  end.

Definition parseInt (value : jsvalue) : option Z :=
  match value with
  | JStr s => parseInt_string s
  | JNum z => Some z
  | JUndefined | JNull | JBool _ => None
  end.

(** The three outcomes of [parseNullableParentId]. *)
Inductive parent_arg :=
| PUndefined
| PNull
| PId (id : Z).

Definition parseNullableParentId (value : jsvalue) : parent_arg :=
  match value with
  | JUndefined => PUndefined
  | JNull => PNull
  | _ =>
      if jsvalue_eqb value (JStr "") || jsvalue_eqb value (JStr "null")
      then PNull
      else match parseInt value with
           | None => PUndefined
           | Some id => PId id
           end
  end.

(** ** The sections table and the section routes *)

Definition table := list Row.t.

(** [ORDER BY order_index, id] *)
Definition compareRows (a b : Row.t) : Z :=
  let d := Row.order_index a - Row.order_index b in
  if d =? 0 then Row.id a - Row.id b else d.

(** [SELECT ... FROM sections WHERE cond ORDER BY order_index, id] *)
Definition select_sections (cond : Row.t -> bool) (db : table) : list Row.t :=
  sort compareRows (filter cond db).

(** The SQL condition [is_active = 1]. *)
Definition active (r : Row.t) : bool := Row.is_active r =? 1.

Inductive response (A : Type) :=
| Json (body : A)
| Error (status : Z) (error : string).

Arguments Json {A} body.
Arguments Error {A} status error.

(** [req.user.role === "teacher" && req.query.include_inactive === "1"] *)
Definition includeInactive (role : string) (include_inactive : jsvalue) : bool :=
  String.eqb role "teacher" && jsvalue_eqb include_inactive (JStr "1").

(** The rows the tree route reads for a given flag. *)
Definition tree_rows (inc : bool) (db : table) : list Row.t :=
  select_sections (fun r => inc || active r) db.

(** What the specification calls [buildTree(rows, includeInactive)]: the
    rows are filtered by the query of the route, then assembled. *)
Definition buildTree (includeInactive : bool) (db : table) : option (list Node.t) :=
  buildSectionsTree (tree_rows includeInactive db).

(** GET /api/sections/tree.  An exception inside the handler is answered
    with status 500. *)
Definition get_sections_tree (role : string) (include_inactive : jsvalue)
    (db : table) : response (list Node.t) :=
  let inc := includeInactive role include_inactive in
  match buildTree inc db with
  | Some forest => Json forest
  | None => Error 500 "Database error"
  end.

(** An element of the answer of GET /api/sections. *)
Module Item.
Record t := mk {
  id : Z;
  name : string;
  parentId : option Z;
  orderIndex : Z;
  isActive : bool
}.
End Item.

Definition item_of_row (r : Row.t) : Item.t :=
  {| Item.id := Row.id r;
     Item.name := Row.name r;
     Item.parentId := Row.parent_id r;
     Item.orderIndex := Row.order_index r;
     Item.isActive := Boolean (Row.is_active r) |}.

Definition parent_matches (parsed : parent_arg) (r : Row.t) : bool :=
  match parsed, Row.parent_id r with
  | PId p, Some q => q =? p
  | PId _, None => false
  | _, None => true
  | _, Some _ => false
  end.

(** GET /api/sections *)
Definition get_sections (role : string) (include_inactive parent_id : jsvalue)
    (db : table) : response (list Item.t) :=
  let inc := includeInactive role include_inactive in
  let parsedParentId := parseNullableParentId parent_id in
  match parsedParentId, parent_id with
  | PUndefined, JUndefined
  | PNull, _
  | PId _, _ =>
      Json (map item_of_row
              (select_sections
                 (fun r => (inc || active r) && parent_matches parsedParentId r) db))
  | PUndefined, _ => Error 400 "Invalid parent_id"
  end.

(** *** UPDATE statements *)

Inductive assignment :=
| SetName (v : string)
| SetParentId (v : option Z)
| SetOrderIndex (v : Z)
| SetIsActive (v : Z)
| SetUpdatedAt (v : string).

Definition assign (r : Row.t) (a : assignment) : Row.t :=
  match a with
  | SetName v =>
      Row.mk (Row.id r) v (Row.parent_id r) (Row.order_index r)
        (Row.is_active r) (Row.created_at r) (Row.updated_at r)
  | SetParentId v =>
      Row.mk (Row.id r) (Row.name r) v (Row.order_index r)
        (Row.is_active r) (Row.created_at r) (Row.updated_at r)
  | SetOrderIndex v =>
      Row.mk (Row.id r) (Row.name r) (Row.parent_id r) v
        (Row.is_active r) (Row.created_at r) (Row.updated_at r)
  | SetIsActive v =>
      Row.mk (Row.id r) (Row.name r) (Row.parent_id r) (Row.order_index r)
        v (Row.created_at r) (Row.updated_at r)
  | SetUpdatedAt v =>
      Row.mk (Row.id r) (Row.name r) (Row.parent_id r) (Row.order_index r)
        (Row.is_active r) (Row.created_at r) v
  end.

(** [UPDATE sections SET updates WHERE id = ?] *)
Definition sql_update (updates : list assignment) (id : Z) (db : table) : table :=
  map (fun r => if Row.id r =? id then fold_left assign updates r else r) db.

(** [this.changes] of an UPDATE: the number of rows the WHERE clause matched. *)
Definition changes (id : Z) (db : table) : nat :=
  List.length (filter (fun r => Row.id r =? id) db).

(** [SELECT id FROM sections WHERE id = ?] *)
Definition section_exists (id : Z) (db : table) : bool :=
  existsb (fun r => Row.id r =? id) db.

(** *** String(value).trim()

    [trim] strips the ASCII white space at both ends; see [ascii_only]. *)

Definition String_of (v : jsvalue) : string :=
  match v with
  | JUndefined => "undefined"
  | JNull => "null"
  | JBool true => "true"
  | JBool false => "false"
  | JNum z => NilZero.string_of_int (Z.to_int z)
  | JStr s => s
  end.

Fixpoint rev_string (s acc : string) : string :=
  match s with
  | EmptyString => acc
  | String c s' => rev_string s' (String c acc)
  end.

Definition trim (s : string) : string :=
  rev_string (skip_spaces (rev_string (skip_spaces s) "")) "".

(** *** PATCH /api/sections/:id *)

Record patch_body := mkBody {
  body_name : jsvalue;
  body_parent_id : jsvalue;
  body_order_index : jsvalue;
  body_is_active : jsvalue
}.

(** The answer of a mutating route: [{ ok: true }] or an error. *)
Definition reply := response unit.
Definition ok : reply := Json tt.

(** Each block of the handler either answers with an error or extends the
    list [updates]. *)
Definition patch_name (body : patch_body) (updates : list assignment)
  : reply + list assignment :=
  match body_name body with
  | JUndefined => inr updates
  | v =>
      let name := trim (String_of v) in
      if String.eqb name "" then inl (Error 400 "Section name cannot be empty")
      else inr (updates ++ [SetName name])
  end.

Definition patch_parent (sectionId : Z) (db : table) (body : patch_body)
    (updates : list assignment) : reply + list assignment :=
  match body_parent_id body with
  | JUndefined => inr updates
  | v =>
      match parseNullableParentId v with
      | PUndefined => inl (Error 400 "Invalid parent_id")
      | PNull => inr (updates ++ [SetParentId None])
      | PId parentId =>
          if parentId =? sectionId
          then inl (Error 400 "Section cannot be parent of itself")
          else if section_exists parentId db
               then inr (updates ++ [SetParentId (Some parentId)])
               else inl (Error 400 "Parent section not found")
      end
  end.

Definition patch_order (body : patch_body) (updates : list assignment)
  : reply + list assignment :=
  match body_order_index body with
  | JUndefined => inr updates
  | v =>
      match parseInt v with
      | None => inl (Error 400 "Invalid order_index")
      | Some orderIndex => inr (updates ++ [SetOrderIndex orderIndex])
      end
  end.

Definition patch_active (body : patch_body) (updates : list assignment)
  : reply + list assignment :=
  match body_is_active body with
  | JUndefined => inr updates
  | v => inr (updates ++ [SetIsActive (if truthy v then 1 else 0)])
  end.

Definition andthen {E A B} (r : E + A) (k : A -> E + B) : E + B :=
  match r with
  | inl e => inl e
  | inr a => k a
  end.

(** The handler, run by a user of role [role] at time [now] on the table
    [db]; it returns the table afterwards and the answer. *)
Definition patch_section (role : string) (id : string) (body : patch_body)
    (now : string) (db : table) : table * reply :=
  if negb (String.eqb role "teacher") then (db, Error 403 "Forbidden") else
  match parseInt (JStr id) with
  | None => (db, Error 400 "Invalid section id")
  | Some sectionId =>
      if negb (section_exists sectionId db)
      then (db, Error 404 "Section not found")
      else
        match andthen (andthen (andthen (patch_name body [])
                                  (patch_parent sectionId db body))
                         (patch_order body))
                (patch_active body) with
        | inl e => (db, e)
        | inr [] => (db, Error 400 "No fields to update")
        | inr updates =>
            (sql_update (updates ++ [SetUpdatedAt now]) sectionId db, ok)
        end
  end.

(** *** DELETE /api/sections/:id *)

Definition delete_section (role : string) (id : string) (now : string)
    (db : table) : table * reply :=
  if negb (String.eqb role "teacher") then (db, Error 403 "Forbidden") else
  match parseInt (JStr id) with
  | None => (db, Error 400 "Invalid section id")
  | Some sectionId =>
      let db' := sql_update [SetIsActive 0; SetUpdatedAt now] sectionId db in
      if (changes sectionId db =? 0)%nat
      then (db', Error 404 "Section not found")
      else (db', ok)
  end.

(** ** flattenSections (teacher view) *)

(** ["  ".repeat(depth)] *)
Fixpoint repeat_string (s : string) (n : nat) : string :=
  match n with
  | O => ""
  | S n' => (s ++ repeat_string s n')%string
  end.

(** The object pushed for [node] at [depth]. *)
Definition entry (depth : nat) (node : Node.t) : jsobject :=
  [ ("id", JNum (Node.id node));
    ("name", JStr (repeat_string "  " depth ++ Node.name node)%string);
    ("isActive", JBool (Node.isActive node)) ].

(** The callback of [nodes.forEach]: push the entry of [node], then flatten
    its children one level deeper into the same [result] array.  The nodes
    sent by the tree route always carry a [children] array, so the fallback
    of [node.children || []] is the empty list of a leaf. *)
Fixpoint flatten_node (depth : nat) (result : list jsobject) (node : Node.t)
    {struct node} : list jsobject :=
  (fix each (nodes : list Node.t) (result : list jsobject) : list jsobject :=
     match nodes with
     | [] => result
     | n :: nodes' => each nodes' (flatten_node (S depth) result n)
     end) (Node.children node) (result ++ [entry depth node]).

(** [flattenSections(nodes, depth = 0, result = [])] *)
Definition flattenSections (nodes : list Node.t) (depth : nat)
    (result : list jsobject) : list jsobject :=
  fold_left (flatten_node depth) nodes result.

(** * Notions used to state the properties *)

(** ** The hierarchy an index describes *)

(** The map with the [children] array of every node replaced: the shape of
    the store at every point of [buildSectionsTree]. *)
Definition with_children (m : jsmap) (C : Z -> list Z) : jsmap :=
  map (fun kv => (fst kv, set_children (C (fst kv)) (snd kv))) m.

(** The test of the second loop: no parent, or a parent that is not a key. *)
Definition is_root_b (m : jsmap) (o : Obj.t) : bool :=
  match Obj.parentId o with
  | None => true
  | Some p => negb (map_has p m)
  end.

Definition is_child_b (m : jsmap) (p : Z) (o : Obj.t) : bool :=
  match Obj.parentId o with
  | None => false
  | Some q => (q =? p) && map_has p m
  end.

(** Keys of the roots, and of the children of [p], in insertion order. *)
Definition root_ids (m : jsmap) : list Z :=
  map fst (filter (fun kv => is_root_b m (snd kv)) m).

Definition child_ids (m : jsmap) (p : Z) : list Z :=
  map fst (filter (fun kv => is_child_b m p (snd kv)) m).

Definition root_in (m : jsmap) (c : Z) : Prop :=
  exists o, map_get c m = Some o /\ is_root_b m o = true.

(** [p] is the resolved parent of [c]. *)
Definition parent_in (m : jsmap) (c p : Z) : Prop :=
  exists o, map_get c m = Some o /\ Obj.parentId o = Some p /\ map_has p m = true.

(** [path m c l]: [l] is the chain of resolved parent links from [c] (its
    first element) up to a root (its last element). *)
Inductive path (m : jsmap) : Z -> list Z -> Prop :=
| path_root c : root_in m c -> path m c [c]
| path_child c p l : parent_in m c p -> path m p l -> path m c (c :: l).

(** [below m k j]: [j] is [k] or a descendant of [k]. *)
Inductive below (m : jsmap) (k : Z) : Z -> Prop :=
| below_self : below m k k
| below_child j c : below m k j -> parent_in m c j -> below m k c.

(** [ancestor m a c]: [a] is reached from [c] by one or more resolved
    parent links. *)
Inductive ancestor (m : jsmap) : Z -> Z -> Prop :=
| ancestor_parent a c : parent_in m c a -> ancestor m a c
| ancestor_up a p c : parent_in m c p -> ancestor m a p -> ancestor m a c.

(** The comparator, on references. *)
Definition order_of (m : jsmap) (r : Z) : Z :=
  match map_get r m with
  | Some o => Obj.orderIndex o
  | None => 0
  end.

Definition compareRefs (m : jsmap) (a b : Z) : Z :=
  let d := order_of m a - order_of m b in
  if d =? 0 then a - b else d.

Definition sort_ids (m : jsmap) (l : list Z) : list Z := sort (compareRefs m) l.

(** The store in which every [children] array holds the children of its
    node in sibling order. *)
Definition sorted_children (m : jsmap) (k : Z) : list Z :=
  sort_ids m (child_ids m k).

Definition sorted_store (m : jsmap) : jsmap := with_children m (sorted_children m).

(** ** Forests *)

(** Ids of a tree, in pre-order. *)
Fixpoint tree_ids (t : Node.t) : list Z :=
  Node.id t :: flat_map tree_ids (Node.children t).

Definition forest_ids (f : list Node.t) : list Z := flat_map tree_ids f.

(** The trees of a forest at any depth. *)
Fixpoint subtrees (t : Node.t) : list Node.t :=
  t :: flat_map subtrees (Node.children t).

Definition forest_subtrees (f : list Node.t) : list Node.t := flat_map subtrees f.

(** Ids of the proper descendants of a node. *)
Definition descendant_ids (t : Node.t) : list Z := forest_ids (Node.children t).

(** Sibling order: ascending [orderIndex], then ascending [id]. *)
Definition sibling_lt (a b : Node.t) : Prop :=
  Node.orderIndex a < Node.orderIndex b \/
  (Node.orderIndex a = Node.orderIndex b /\ Node.id a < Node.id b).

(** Every group of siblings of the forest, the roots included, is in
    sibling order. *)
Definition siblings_ordered (f : list Node.t) : Prop :=
  StronglySorted sibling_lt f /\
  forall t, In t (forest_subtrees f) -> StronglySorted sibling_lt (Node.children t).

(** ** The parent relation of the table *)

(** [chain db c l]: [l] lists the sections met when following [parent_id]
    from the section [c] until a section without parent. *)
Inductive chain (db : table) : Z -> list Z -> Prop :=
| chain_root r :
    In r db -> Row.parent_id r = None -> chain db (Row.id r) [Row.id r]
| chain_up r p l :
    In r db -> Row.parent_id r = Some p -> chain db p l ->
    chain db (Row.id r) (Row.id r :: l).

(** The parent relation is a forest: every chain ends at a root and meets
    no section twice. *)
Definition parent_forest (db : table) : Prop :=
  forall r, In r db -> exists l, chain db (Row.id r) l /\ NoDup l.

(** What the guards of the PATCH route keep: no section is its own parent,
    and every parent link names a section of the table. *)
Definition parents_resolve (db : table) : Prop :=
  forall r, In r db ->
    Row.parent_id r <> Some (Row.id r) /\
    forall p, Row.parent_id r = Some p -> section_exists p db = true.

(** ** Pre-order traversal, as the specification of flatten words it *)

Fixpoint preorder (depth : nat) (t : Node.t) : list jsobject :=
  entry depth t :: flat_map (preorder (S depth)) (Node.children t).

Definition preorder_forest (depth : nat) (f : list Node.t) : list jsobject :=
  flat_map (preorder depth) f.

(** ** Well-formed indexes *)

(** What the first loop guarantees: keys are distinct, every object sits
    under its own id, and no [children] array has been filled yet. *)
Definition wf_index (m : jsmap) : Prop :=
  NoDup (map_keys m) /\
  forall k o, map_get k m = Some o -> Obj.id o = k /\ Obj.children o = [].

(** The part of the roots and of the children of [p] that the second loop
    has collected after visiting the entries [l]. *)
Definition roots_in (m l : jsmap) : list Z :=
  map fst (filter (fun kv => is_root_b m (snd kv)) l).

Definition kids_in (m l : jsmap) (p : Z) : list Z :=
  map fst (filter (fun kv => is_child_b m p (snd kv)) l).

(** While [sortNodes] runs, a [children] array is either as the second loop
    left it or already in sibling order. *)
Definition partly_sorted (m : jsmap) (C : Z -> list Z) : Prop :=
  forall k, C k = child_ids m k \/ C k = sorted_children m k.

(** A call of [sortNodes] that takes the arrays [C] to [C']: arrays in
    order stay in order, and the arrays of the nodes in [S] are put in
    order. *)
Definition sorts (m : jsmap) (S : Z -> Prop) (C C' : Z -> list Z) : Prop :=
  partly_sorted m C' /\
  (forall j, C j = sorted_children m j -> C' j = sorted_children m j) /\
  (forall j, S j -> C' j = sorted_children m j).

(** [sortNodes] with [fuel] succeeds on the children of every node that is
    deep enough for the fuel to last. *)
Definition sorts_children (m : jsmap) (fuel : nat) : Prop :=
  forall k pk C R,
    path m k pk -> (List.length m < fuel + List.length pk)%nat ->
    partly_sorted m C ->
    exists C',
      sortNodes fuel (mkHeap (with_children m C) R) (ChildrenOf k) =
        Some (mkHeap (with_children m C') R) /\
      sorts m (below m k) C C'.

(** The node a consumer reads for the object [o] with the subtrees [ts]. *)
Definition node_of (o : Obj.t) (ts : list Node.t) : Node.t :=
  {| Node.id := Obj.id o;
     Node.name := Obj.name o;
     Node.parentId := Obj.parentId o;
     Node.orderIndex := Obj.orderIndex o;
     Node.isActive := Obj.isActive o;
     Node.children := ts |}.

(** The forest a well-formed index stands for: roots and children in
    sibling order. *)
Definition forest_of (m : jsmap) : option (list Node.t) :=
  mapM (view (S (List.length m)) (sorted_store m)) (sort_ids m (root_ids m)).

(** [t] is the tree read at some node that has a path to a root. *)
Definition is_view (m : jsmap) (t : Node.t) : Prop :=
  exists fuel k pk, path m k pk /\ view fuel (sorted_store m) k = Some t.

(** ** Cycles of parent links *)

(** [links m l last]: the parent link of every node of [l] resolves to the
    next node of [l], the one of the last node to [last]. *)
Fixpoint links (m : jsmap) (l : list Z) (last : Z) : Prop :=
  match l with
  | [] => True
  | c :: l' =>
      match l' with
      | [] => parent_in m c last
      | d :: _ => parent_in m c d /\ links m l' last
      end
  end.

(** [cyc] is a cycle of parent links of the index: each of its nodes names
    the next one as parent, and the last one names the first. *)
Definition parent_cycle (m : jsmap) (cyc : list Z) : Prop :=
  match cyc with
  | [] => False
  | c :: _ => links m cyc c
  end.


(** Two indexes that hold the same objects under the same keys, possibly
    inserted in another order. *)
Definition same_objects (m m' : jsmap) : Prop :=
  forall k, map_get k m = map_get k m'.

(** ** Items and nodes *)

(** The fields a node of the tree shares with an item of the child list. *)
Definition item_of_node (t : Node.t) : Item.t :=
  {| Item.id := Node.id t;
     Item.name := Node.name t;
     Item.parentId := Node.parentId t;
     Item.orderIndex := Node.orderIndex t;
     Item.isActive := Node.isActive t |}.

(** The condition of the query of GET /api/sections. *)
Definition listed (inc : bool) (parsed : parent_arg) (r : Row.t) : bool :=
  (inc || active r) && parent_matches parsed r.

(** ** Creating sections *)

(** [this.lastID] of an INSERT into [sections].  The key is declared
    AUTOINCREMENT: the new id is one more than the largest id the table has
    held, which is the largest id of the table, since no statement of the
    application deletes a section; the first id is 1. *)
Definition lastID (db : table) : Z := 1 + fold_left Z.max (map Row.id db) 0.

(** [INSERT INTO sections (name, parent_id, order_index, is_active,
    created_at, updated_at) VALUES (?, ?, ?, ?, ?, ?)] *)
Definition sql_insert (name : string) (parent_id : option Z) (order_index : Z)
    (is_active : Z) (created_at updated_at : string) (db : table) : table :=
  db ++ [Row.mk (lastID db) name parent_id order_index is_active
           created_at updated_at].

(** [SELECT id FROM sections WHERE id = ?] with the parameter [parentId] as
    the POST route passes it when it is not null.  An [undefined] parameter
    stays unbound, SQLite reads it as NULL, and [id = NULL] selects no
    row. *)
Definition parent_found (parentId : parent_arg) (db : table) : bool :=
  match parentId with
  | PId p => section_exists p db
  | PUndefined => false
  | PNull => false
  end.

(** [parentId ?? null] *)
Definition or_null (parentId : parent_arg) : option Z :=
  match parentId with
  | PId p => Some p
  | PUndefined | PNull => None
  end.

(** POST /api/sections, run by a user of role [role] at time [now]; the
    answer is [{ id: insert.lastID }] or an error.  The body has the four
    fields of the body of PATCH.  The parent is looked up whenever
    [parentId !== null], so also when the body has no [parent_id]. *)
Definition post_section (role : string) (body : patch_body) (now : string)
    (db : table) : table * response Z :=
  if negb (String.eqb role "teacher") then (db, Error 403 "Forbidden") else
  let name :=
    trim (String_of (if truthy (body_name body) then body_name body else JStr "")) in
  let parentId := parseNullableParentId (body_parent_id body) in
  let orderIndex :=
    parseInt (match body_order_index body with
              | JUndefined | JNull => JNum 0
              | v => v
              end) in
  let isActive :=
    match body_is_active body with
    | JUndefined => 1
    | v => if truthy v then 1 else 0
    end in
  let inserted :=
    (sql_insert name (or_null parentId)
       (match orderIndex with None => 0 | Some o => o end) isActive now now db,
     Json (lastID db)) in
  if String.eqb name "" then (db, Error 400 "Section name is required") else
  match parentId, body_parent_id body with
  | PUndefined, JUndefined
  | PId _, _ =>
      if parent_found parentId db then inserted
      else (db, Error 400 "Parent section not found")
  | PUndefined, _ => (db, Error 400 "Invalid parent_id")
  | PNull, _ => inserted
  end.

(** [String(req.body?.name || "")], the text that POST /api/sections
    trims. *)
Definition posted_name (body : patch_body) : string :=
  String_of (if truthy (body_name body) then body_name body else JStr "").

(** A text of ASCII characters only.  On such a text [trim] and
    [skip_spaces] strip the white space that the language strips, which is
    tab to carriage return and the space; white space beyond ASCII is not
    modelled. *)
Definition ascii_only (s : string) : bool :=
  forallb (fun c => (N_of_ascii c <? 128)%N) (list_ascii_of_string s).

(** ** Seeding *)

(** The WHERE clause of [ensureSection]:
    [name = ? AND ((parent_id IS NULL AND ? IS NULL) OR parent_id = ?)]. *)
Definition same_section (name : string) (parentId : option Z) (r : Row.t) : bool :=
  String.eqb (Row.name r) name &&
  match parentId, Row.parent_id r with
  | None, None => true
  | Some p, Some q => q =? p
  | _, _ => false
  end.

(** [ensureSection(name, parentId, orderIndex)] at time [now]: the table
    afterwards and the id returned.  [LIMIT 1] takes the first matching row
    in the order of the table. *)
Definition ensureSection (name : string) (parentId : option Z) (orderIndex : Z)
    (now : string) (db : table) : table * Z :=
  match find (same_section name parentId) db with
  | Some existing =>
      (sql_update [SetOrderIndex orderIndex; SetIsActive 1; SetUpdatedAt now]
         (Row.id existing) db,
       Row.id existing)
  | None =>
      (sql_insert name parentId orderIndex 1 now now db, lastID db)
  end.

(** [seedSections()]; [clock n] is the time read by the call number [n] of
    [ensureSection].  The result is the table afterwards and the id of
    "Present Simple". *)
Definition seedSections (clock : nat -> string) (db : table) : table * Z :=
  let '(db, grammarId) := ensureSection "Grammar" None 0 (clock 0%nat) db in
  let '(db, _) := ensureSection "Vocabulary" None 1 (clock 1%nat) db in
  let '(db, _) := ensureSection "Listening" None 2 (clock 2%nat) db in
  let '(db, presentTensesId) :=
    ensureSection "Present Tenses" (Some grammarId) 0 (clock 3%nat) db in
  let '(db, _) := ensureSection "Past Tenses" (Some grammarId) 1 (clock 4%nat) db in
  let '(db, _) := ensureSection "Future Tenses" (Some grammarId) 2 (clock 5%nat) db in
  let '(db, _) := ensureSection "All Tenses" (Some grammarId) 3 (clock 6%nat) db in
  let '(db, _) := ensureSection "Modals" (Some grammarId) 4 (clock 7%nat) db in
  let '(db, presentSimpleId) :=
    ensureSection "Present Simple" (Some presentTensesId) 0 (clock 8%nat) db in
  let '(db, _) :=
    ensureSection "Present Simple and Progressive" (Some presentTensesId) 1
      (clock 9%nat) db in
  let '(db, _) :=
    ensureSection "Present Perfect" (Some presentTensesId) 2 (clock 10%nat) db in
  (db, presentSimpleId).

(** The id [ensureSection] finds for a name and a parent, if any. *)
Definition found (name : string) (parentId : option Z) (db : table) : option Z :=
  option_map Row.id (find (same_section name parentId) db).

(** The number of sections with a name under a parent. *)
Definition count_sections (name : string) (parentId : option Z) (db : table) : nat :=
  List.length (filter (same_section name parentId) db).

(** ** The client: the requests of services.js *)

(** [value == null] *)
Definition nullish (v : jsvalue) : bool :=
  match v with
  | JUndefined | JNull => true
  | _ => false
  end.

(** The parameters that [getSections(parentId, includeInactive)] sets, in
    the order it sets them. *)
Definition getSections_params (parentId : jsvalue) (includeInactive : bool) : jsobject :=
  ("parent_id", JStr (if nullish parentId then "null" else String_of parentId)) ::
  (if includeInactive then [("include_inactive", JStr "1")] else []).

(** [api.getSections]: the route answers the request whose [req.query]
    holds the parameters the client has set. *)
Definition api_getSections (role : string) (parentId : jsvalue) (includeInactive : bool)
    (db : table) : response (list Item.t) :=
  let query := getSections_params parentId includeInactive in
  get_sections role (get_prop query "include_inactive") (get_prop query "parent_id") db.

(** [api.getSectionsTree]: the query is [?include_inactive=1] or empty. *)
Definition api_getSectionsTree (role : string) (includeInactive : bool) (db : table)
    : response (list Node.t) :=
  let query := if includeInactive then [("include_inactive", JStr "1")] else [] in
  get_sections_tree role (get_prop query "include_inactive") db.

(** ** The student view: navigation through the sections

    The view keeps the array [sectionPath] and fills [studentContent] with
    a list of sections or with the exercises of a section.  Each handler is
    run to its end before the next event, and each request is answered by
    the route over the same table.  Of the exercise screen only the
    navigation is kept: its breadcrumbs and its button back to the
    sections. *)

(** An element of [sectionPath]: [{ id, name }]. *)
Definition crumb := (Z * string)%type.

(** What is on the screen, with the number of breadcrumbs rendered. *)
Inductive screen :=
| SectionList (crumbs : nat) (sections : list Item.t)
| ExerciseView (crumbs : nat) (section : crumb).

Module Nav.
Record t := mk {
  sectionPath : list crumb;
  shown : screen
}.
End Nav.

(** [sectionPath[sectionPath.length - 1]], [undefined] on the empty path. *)
Fixpoint last_crumb (path : list crumb) : option crumb :=
  match path with
  | [] => None
  | [c] => Some c
  | _ :: rest => last_crumb rest
  end.

(** [sectionPath.length > 0 ? sectionPath[sectionPath.length - 1].id : null] *)
Definition current_id (path : list crumb) : jsvalue :=
  match last_crumb path with
  | Some c => JNum (fst c)
  | None => JNull
  end.

(** [showExercises(section)]; reading [section.id] of [undefined] throws,
    and the screen stays as it is.  The request for the exercises of a
    section is answered by GET /api/exercises with a list, which is not
    kept here. *)
Definition showExercises (path : list crumb) (section : option crumb) (old : screen)
    : screen :=
  match section with
  | Some c => ExerciseView (List.length path) c
  | None => old
  end.

(** [showSections(parentId)]; a request that fails throws, and the screen
    stays as it is. *)
Definition showSections (role : string) (db : table) (parentId : jsvalue)
    (path : list crumb) (old : screen) : screen :=
  match api_getSections role parentId false db with
  | Json sections =>
      if (Nat.eqb (List.length sections) 0) && negb (nullish parentId)
      then showExercises path (last_crumb path) old
      else SectionList (List.length path) sections
  | Error _ _ => old
  end.

(** The clicks that move through the sections. *)
Inductive event :=
| ClickSection (k : nat)
| ClickBack
| ClickBackToSections
| ClickCrumb (index : nat).

(** [sectionPath.pop()] followed by [showSections] of the new last id. *)
Definition go_back (role : string) (db : table) (st : Nav.t) : Nav.t :=
  let path := removelast (Nav.sectionPath st) in
  Nav.mk path (showSections role db (current_id path) path (Nav.shown st)).

(** The handler of the breadcrumb rendered with [data-index] i:
    [sectionPath.splice(index + 1)], where [splice(NaN)] empties the array. *)
Definition go_crumb (role : string) (db : table) (i : nat) (st : Nav.t) : Nav.t :=
  let path :=
    match parseInt (JStr (String_of (JNum (Z.of_nat i)))) with
    | Some index => firstn (Z.to_nat (index + 1)) (Nav.sectionPath st)
    | None => []
    end in
  Nav.mk path (showSections role db (current_id path) path (Nav.shown st)).

(** One click; [None] when the screen has no such button.  The button Back
    is rendered when the path is not empty; the breadcrumbs of a section
    list are bound only when the list is not empty. *)
Definition handle (role : string) (db : table) (st : Nav.t) (e : event) : option Nav.t :=
  match e, Nav.shown st with
  | ClickSection k, SectionList _ sections =>
      match nth_error sections k with
      | Some section =>
          let path := Nav.sectionPath st ++ [(Item.id section, Item.name section)] in
          Some (Nav.mk path
                  (showSections role db (JNum (Item.id section)) path (Nav.shown st)))
      | None => None
      end
  | ClickBack, SectionList crumbs _ =>
      if Nat.ltb 0 crumbs then Some (go_back role db st) else None
  | ClickBackToSections, ExerciseView _ _ => Some (go_back role db st)
  | ClickCrumb i, SectionList crumbs sections =>
      if Nat.ltb i crumbs && negb (Nat.eqb (List.length sections) 0)
      then Some (go_crumb role db i st) else None
  | ClickCrumb i, ExerciseView crumbs _ =>
      if Nat.ltb i crumbs then Some (go_crumb role db i st) else None
  | _, _ => None
  end.

(** [renderStudentView]: the empty path, and [showSections(null)] on the
    empty content. *)
Definition renderStudentView (role : string) (db : table) : Nav.t :=
  Nav.mk [] (showSections role db JNull [] (SectionList 0 [])).

Inductive reachable (role : string) (db : table) : Nav.t -> Prop :=
| reach_init : reachable role db (renderStudentView role db)
| reach_step st e st' :
    reachable role db st -> handle role db st e = Some st' -> reachable role db st'.

(** The path as a chain of the table: every element is an active section,
    named as the path names it, whose parent is the element before it. *)
Fixpoint nav_chain (db : table) (parent : option Z) (path : list crumb) : Prop :=
  match path with
  | [] => True
  | c :: rest =>
      (exists r, In r db /\ Row.id r = fst c /\ Row.name r = snd c /\
                 active r = true /\ Row.parent_id r = parent) /\
      nav_chain db (Some (fst c)) rest
  end.

(** The screen shows what the path leads to. *)
Definition in_sync (db : table) (path : list crumb) (s : screen) : Prop :=
  match s with
  | SectionList crumbs sections =>
      crumbs = List.length path /\
      forall item, In item sections ->
        exists r, In r db /\ item_of_row r = item /\ active r = true /\
                  Row.parent_id r = option_map fst (last_crumb path)
  | ExerciseView crumbs section =>
      crumbs = List.length path /\
      last_crumb path = Some section /\
      forall r, In r db -> active r = true -> Row.parent_id r <> Some (fst section)
  end.

(** ** Exercises *)

(** A row of the table [exercises]; [options] is the array whose JSON text
    the column [options_json] holds, and [section_id], a column added
    without NOT NULL, is [None] for NULL. *)
Module Exercise.
Record t := mk {
  id : Z;
  sentence : string;
  options : list jsvalue;
  correct_index : Z;
  section_id : option Z;
  exercise_type : string
}.
End Exercise.

Definition exercises := list Exercise.t.

Definition SUPPORTED_EXERCISE_TYPES : list string :=
  ["multiple_choice"; "text_input"; "sentence_builder"].

(** [SUPPORTED_EXERCISE_TYPES.has(exerciseType)] *)
Definition supported (exerciseType : string) : bool :=
  existsb (String.eqb exerciseType) SUPPORTED_EXERCISE_TYPES.

(** The fields of [req.body] that POST /api/exercises reads; [body_options]
    is [Some] of the elements when [req.body.options] is an array. *)
Record exercise_body := mkExercise {
  body_sentence : jsvalue;
  body_section_id : jsvalue;
  body_sectionId : jsvalue;
  body_exercise_type : jsvalue;
  body_exerciseType : jsvalue;
  body_options : option (list jsvalue);
  body_correctIndex : jsvalue
}.

(** [a || b] *)
Definition js_or (a b : jsvalue) : jsvalue := if truthy a then a else b.

(** [a ?? b] *)
Definition js_coalesce (a b : jsvalue) : jsvalue := if nullish a then b else a.

(** [!String(item).trim()] *)
Definition blank (item : jsvalue) : bool := String.eqb (trim (String_of item)) "".

(** [this.lastID] of an INSERT into [exercises]. *)
Definition exercise_lastID (ex : exercises) : Z :=
  1 + fold_left Z.max (map Exercise.id ex) 0.

Definition insert_exercise (sentence : string) (options : list jsvalue) (correctIndex : Z)
    (sectionId : Z) (exerciseType : string) (ex : exercises) : exercises * response Z :=
  (ex ++ [Exercise.mk (exercise_lastID ex) sentence options correctIndex (Some sectionId)
            exerciseType],
   Json (exercise_lastID ex)).

(** POST /api/exercises *)
Definition post_exercise (role : string) (body : exercise_body) (db : table)
    (ex : exercises) : exercises * response Z :=
  if negb (String.eqb role "teacher") then (ex, Error 403 "Forbidden") else
  let sentence := trim (String_of (js_or (body_sentence body) (JStr ""))) in
  let sectionId :=
    parseInt (js_coalesce (body_section_id body) (body_sectionId body)) in
  let exerciseType :=
    trim (String_of (js_or (js_or (body_exercise_type body) (body_exerciseType body))
                       (JStr ""))) in
  match sectionId with
  | None => (ex, Error 400 "section_id, exercise_type and sentence are required")
  | Some sectionId =>
      if String.eqb sentence "" || String.eqb exerciseType ""
      then (ex, Error 400 "section_id, exercise_type and sentence are required")
      else if negb (supported exerciseType)
      then (ex, Error 400 "Unsupported exercise_type")
      else if negb (section_exists sectionId db)
      then (ex, Error 400 "Section not found")
      else
        let options := match body_options body with Some l => l | None => [] end in
        let correctIndex := parseInt (body_correctIndex body) in
        if String.eqb exerciseType "multiple_choice"
        then
          if negb (Nat.eqb (List.length options) 4) || existsb blank options
          then (ex, Error 400 "Multiple choice requires 4 options")
          else
            match correctIndex with
            | Some c =>
                if (c <? 0) || (3 <? c)
                then (ex, Error 400 "Invalid correctIndex for multiple_choice")
                else insert_exercise sentence options c sectionId exerciseType ex
            | None => (ex, Error 400 "Invalid correctIndex for multiple_choice")
            end
        else insert_exercise sentence [] (-1) sectionId exerciseType ex
  end.

(** *** The form of the teacher view *)

(** The values of the controls when the button is clicked. *)
Record form := mkForm {
  sectionSelect_value : string;
  exerciseType_value : string;
  sentence_value : string;
  opt1_value : string;
  opt2_value : string;
  opt3_value : string;
  opt4_value : string;
  correct_value : string
}.

(** The object handed to [api.addExercise]; a property that is not set is
    [None]. *)
Record payload := mkPayload {
  payload_sentence : string;
  payload_section_id : Z;
  payload_exercise_type : string;
  payload_options : option (list string);
  payload_correctIndex : option Z
}.

(** The values of the options that [renderSectionOptions] writes. *)
Definition option_values (nodes : list Node.t) : list string :=
  let flat := flattenSections nodes 0 [] in
  if Nat.eqb (List.length flat) 0 then [""]
  else map (fun item => String_of (get_prop item "id")) flat.

(** The click on the button of the form: the message shown, or the payload
    sent. *)
Definition add_click (f : form) : string + payload :=
  match parseInt (JStr (sectionSelect_value f)) with
  | None => inl "Выберите раздел."
  | Some selectedSectionId =>
      if String.eqb (trim (sentence_value f)) ""
      then inl "Введите текст упражнения."
      else if String.eqb (exerciseType_value f) "multiple_choice"
      then
        let options :=
          map trim [opt1_value f; opt2_value f; opt3_value f; opt4_value f] in
        let correctIndex :=
          option_map (fun c => c - 1) (parseInt (JStr (correct_value f))) in
        if existsb (fun v => String.eqb v "") options
        then inl "Заполните все 4 варианта ответа."
        else
          match correctIndex with
          | Some c =>
              if (c <? 0) || (3 <? c)
              then inl "Правильный ответ должен быть от 1 до 4."
              else inr (mkPayload (trim (sentence_value f)) selectedSectionId
                          (exerciseType_value f) (Some options) (Some c))
          | None => inl "Правильный ответ должен быть от 1 до 4."
          end
      else inr (mkPayload (trim (sentence_value f)) selectedSectionId
                  (exerciseType_value f) None None)
  end.

(** The body that the server parses from the JSON text of a payload. *)
Definition body_of_payload (p : payload) : exercise_body :=
  mkExercise (JStr (payload_sentence p)) (JNum (payload_section_id p)) JUndefined
    (JStr (payload_exercise_type p)) JUndefined
    (option_map (map JStr) (payload_options p))
    (match payload_correctIndex p with Some c => JNum c | None => JUndefined end).

(** [api.addExercise] *)
Definition api_addExercise (role : string) (p : payload) (db : table) (ex : exercises)
    : exercises * response Z :=
  post_exercise role (body_of_payload p) db ex.

(** What POST /api/exercises stores. *)
Definition exercise_ok (db : table) (e : Exercise.t) : Prop :=
  (exists sectionId,
     Exercise.section_id e = Some sectionId /\ section_exists sectionId db = true) /\
  In (Exercise.exercise_type e) SUPPORTED_EXERCISE_TYPES /\
  Exercise.sentence e <> "" /\
  if String.eqb (Exercise.exercise_type e) "multiple_choice"
  then List.length (Exercise.options e) = 4%nat /\
       (forall item, In item (Exercise.options e) -> blank item = false) /\
       0 <= Exercise.correct_index e <= 3
  else Exercise.options e = [] /\ Exercise.correct_index e = -1.

(** What every reachable state of the view satisfies. *)
Definition nav_inv (db : table) (st : Nav.t) : Prop :=
  nav_chain db None (Nav.sectionPath st) /\ in_sync db (Nav.sectionPath st) (Nav.shown st).

(** ** Strings as lists of characters, to reason about [trim] *)

(** [skip_spaces] on a list. *)
Fixpoint drop_spaces (l : list ascii) : list ascii :=
  match l with
  | c :: l' => if is_space c then drop_spaces l' else l
  | [] => []
  end.

(** A list that does not start with white space. *)
Definition clean (l : list ascii) : Prop :=
  match l with
  | c :: _ => is_space c = false
  | [] => True
  end.

(** ** Migrating the exercises *)

(** [migrateExercises(defaultSectionId)]: the two UPDATE statements, in
    their order.  The column [exercise_type] is added NOT NULL, so of
    [exercise_type IS NULL OR exercise_type = ''] only the empty text
    occurs. *)
Definition migrateExercises (defaultSectionId : Z) (ex : exercises) : exercises :=
  map (fun e =>
         if String.eqb (Exercise.exercise_type e) ""
         then Exercise.mk (Exercise.id e) (Exercise.sentence e) (Exercise.options e)
                (Exercise.correct_index e) (Exercise.section_id e) "multiple_choice"
         else e)
    (map (fun e =>
            match Exercise.section_id e with
            | None =>
                Exercise.mk (Exercise.id e) (Exercise.sentence e) (Exercise.options e)
                  (Exercise.correct_index e) (Some defaultSectionId)
                  (Exercise.exercise_type e)
            | Some _ => e
            end) ex).

(** ** Registration: the validators

    The validators count and test UTF-16 code units, so a string is here
    the list of its code units. *)

Definition ustring := list N.

(** The code units of an ASCII literal. *)
Definition codes (s : string) : ustring := map N_of_ascii (list_ascii_of_string s).

Fixpoint ustring_eqb (a b : ustring) : bool :=
  match a, b with
  | [], [] => true
  | x :: a', y :: b' => (x =? y)%N && ustring_eqb a' b'
  | _, _ => false
  end.

(** The class [\s]: white space and line terminators. *)
Definition re_space (c : N) : bool :=
  (((9 <=? c) && (c <=? 13)) || (c =? 32) || (c =? 160) || (c =? 5760) ||
   ((8192 <=? c) && (c <=? 8202)) || (c =? 8232) || (c =? 8233) || (c =? 8239) ||
   (c =? 8287) || (c =? 12288) || (c =? 65279))%N.

(** The class [[^\s@]] *)
Definition re_email_char (c : N) : bool := negb (re_space c || (c =? 64)%N).

(** The class [[A-Za-z0-9_]] *)
Definition re_word (c : N) : bool :=
  (((65 <=? c) && (c <=? 90)) || ((97 <=? c) && (c <=? 122)) ||
   ((48 <=? c) && (c <=? 57)) || (c =? 95))%N.

(** The pieces the two regular expressions are made of: a literal
    character, [cls+] and [cls{lo,hi}]. *)
Inductive atom :=
| Lit (c : N)
| Plus (cls : N -> bool)
| Between (cls : N -> bool) (lo hi : nat).

(** [cls+] followed by what [k] accepts. *)
Fixpoint re_plus (cls : N -> bool) (k : ustring -> bool) (s : ustring) : bool :=
  match s with
  | x :: s' => cls x && (k s' || re_plus cls k s')
  | [] => false
  end.

(** [cls{lo,hi}] followed by what [k] accepts, [n] repetitions being read. *)
Fixpoint re_between (cls : N -> bool) (lo hi : nat) (k : ustring -> bool)
    (s : ustring) (n : nat) : bool :=
  (Nat.leb lo n && k s) ||
  match s with
  | x :: s' => Nat.ltb n hi && cls x && re_between cls lo hi k s' (S n)
  | [] => false
  end.

(** [/^re$/.test(s)] *)
Fixpoint regex_test (re : list atom) : ustring -> bool :=
  match re with
  | [] => fun s => match s with [] => true | _ :: _ => false end
  | Lit c :: re' =>
      fun s => match s with
               | x :: s' => (x =? c)%N && regex_test re' s'
               | [] => false
               end
  | Plus cls :: re' => re_plus cls (regex_test re')
  | Between cls lo hi :: re' => fun s => re_between cls lo hi (regex_test re') s 0
  end.

(** [/^[^\s@]+@[^\s@]+\.[^\s@]+$/.test(email)] *)
Definition isValidEmail (email : ustring) : bool :=
  regex_test [Plus re_email_char; Lit 64; Plus re_email_char; Lit 46; Plus re_email_char]
    email.

Definition RESERVED_NICKNAMES : list ustring :=
  map codes ["admin"; "support"; "system"; "bukvayou"; "yunona"; "yuna"].

(** An argument of a validator, as the JSON body of a request gives it: a
    string, or any other value ([undefined], [null], a boolean, a number,
    an array, an object), of which only the truthiness matters here. *)
Inductive field :=
| Text (s : ustring)
| Other (truthy : bool).

(** What a call does: it returns, or it throws a TypeError. *)
Inductive outcome (A : Type) :=
| Returns (a : A)
| Throws.

Arguments Returns {A} a.
Arguments Throws {A}.

(** [validateNickname]; the result [None] is [null].  A truthy value that
    is not a string passes [!nickname] and has no method [toLowerCase], so
    the call throws.  [toLowerCase] is the method of the language on
    strings, of which only the values on ASCII strings matter. *)
Definition validateNickname (toLowerCase : ustring -> ustring)
    (nickname : field) : outcome (option string) :=
  match nickname with
  | Text [] | Other false =>
      Returns (Some "Никнейм содержит недопустимые символы или запрещённое слово")
  | Other true => Throws
  | Text nickname =>
      let lower := toLowerCase nickname in
      if existsb (ustring_eqb lower) RESERVED_NICKNAMES
      then Returns (Some "Никнейм содержит недопустимые символы или запрещённое слово")
      else if negb (regex_test [Between re_word 3 20] nickname)
      then Returns (Some "Никнейм содержит недопустимые символы или запрещённое слово")
      else Returns None
  end.

(** Lower case of an ASCII letter; other code units as they are. *)
Definition lower_ascii (c : N) : N :=
  if ((65 <=? c) && (c <=? 90))%N then (c + 32)%N else c.

(** What a regular expression accepts, piece by piece. *)
Fixpoint accepts (re : list atom) (s : ustring) : Prop :=
  match re with
  | [] => s = []
  | Lit c :: re' => exists s', s = c :: s' /\ accepts re' s'
  | Plus cls :: re' =>
      exists u v, s = u ++ v /\ u <> [] /\ forallb cls u = true /\ accepts re' v
  | Between cls lo hi :: re' =>
      exists u v, s = u ++ v /\ (lo <= List.length u <= hi)%nat /\
                  forallb cls u = true /\ accepts re' v
  end.

(** ** Rows and nodes of the scenarios *)

Definition row (i : Z) (n : string) (p : option Z) (o : Z) (a : Z) : Row.t :=
  Row.mk i n p o a "" "".

Definition leaf (i : Z) (n : string) (p : option Z) (o : Z) (a : bool) : Node.t :=
  Node.mk i n p o a [].

Definition cycle_rows : list Row.t :=
  [ row 1 "a" (Some 2) 0 1; row 2 "b" (Some 1) 0 1; row 3 "c" None 0 1 ].

Definition scenario_rows : list Row.t :=
  [ row 1 "Grammar" None 0 1;
    row 2 "Tenses" (Some 1) 0 1;
    row 3 "Vocabulary" None 1 0 ].

(** ** Effects of the mutating routes *)

(** The row [r] after a soft delete at time [now]. *)
Definition deactivated (now : string) (r : Row.t) : Row.t :=
  Row.mk (Row.id r) (Row.name r) (Row.parent_id r) (Row.order_index r)
    0 (Row.created_at r) now.

(** An assignment the PATCH route can build for the section [sectionId]:
    a new parent is null or another section of the table. *)
Definition guarded (sectionId : Z) (db : table) (a : assignment) : Prop :=
  match a with
  | SetParentId (Some p) => p <> sectionId /\ section_exists p db = true
  | _ => True
  end.

(** A table on which a re-parenting request closes a cycle. *)
Definition two_sections : table :=
  [ row 1 "Grammar" None 0 1; row 2 "Tenses" (Some 1) 0 1 ].

Definition reparent_to (p : Z) : patch_body :=
  mkBody JUndefined (JNum p) JUndefined JUndefined.

(** An assignment that leaves the parent link alone. *)
Definition keeps_parent (a : assignment) : Prop :=
  match a with
  | SetParentId _ => False
  | _ => True
  end.

(** The body of a request that sends [is_active] only. *)
Definition reactivate : patch_body :=
  mkBody JUndefined JUndefined JUndefined (JBool true).

(** What a POST that succeeded leaves: the table with one more row. *)
Definition created (db db' : table) (id : Z) (r : Row.t) : Prop :=
  db' = db ++ [r] /\ Row.id r = id /\ ~ In id (map Row.id db).

Definition new_root : patch_body := mkBody (JStr "Listening") JNull JUndefined JUndefined.

Definition new_child (p : Z) : patch_body :=
  mkBody (JStr " Modals ") (JNum p) (JStr "4") JUndefined.

(** * Scenarios of the specification *)


Example scenario_all :
  buildSectionsTree scenario_rows =
  Some [ Node.mk 1 "Grammar" None 0 true [leaf 2 "Tenses" (Some 1) 0 true];
         leaf 3 "Vocabulary" None 1 false ].
Proof. reflexivity. Qed.

Example scenario_cycle :
  buildSectionsTree [ row 1 "a" (Some 2) 0 1; row 2 "b" (Some 1) 0 1;
                      row 3 "c" None 0 1 ] =
  Some [ leaf 3 "c" None 0 true ].
Proof. reflexivity. Qed.

Example scenario_active_only :
  get_sections_tree "student" (JStr "1") scenario_rows =
  Json [ Node.mk 1 "Grammar" None 0 true [leaf 2 "Tenses" (Some 1) 0 true] ].
Proof. reflexivity. Qed.

Example scenario_flatten :
  flattenSections
    [ Node.mk 1 "Grammar" None 0 true [leaf 2 "Tenses" (Some 1) 0 true] ] 0 [] =
  [ [("id", JNum 1); ("name", JStr "Grammar"); ("isActive", JBool true)];
    [("id", JNum 2); ("name", JStr "  Tenses"); ("isActive", JBool true)] ].
Proof. reflexivity. Qed.

Example parseInt_examples :
  parseInt (JStr " 42abc") = Some 42 /\ parseInt (JStr "-7") = Some (-7) /\
  parseInt (JStr "abc") = None /\ parseInt (JStr "") = None.
Proof. repeat split. Qed.

(** * Proofs *)

(** ** The option monad *)

Lemma obind_Some {A B} (o : option A) (k : A -> option B) (b : B) :
  obind o k = Some b -> exists a, o = Some a /\ k a = Some b.
Proof. destruct o as [a|]; simpl; intros H; [eauto | discriminate]. Qed.

Lemma mapM_Forall2 {A B} (f : A -> option B) (l : list A) (bs : list B) :
  mapM f l = Some bs <-> Forall2 (fun a b => f a = Some b) l bs.
Proof.
  revert bs; induction l as [|a l IH]; intros bs; simpl.
  - split; intros H.
    + injection H as <-. constructor.
    + inversion H. reflexivity.
  - split; intros H.
    + apply obind_Some in H as (b & Hb & H).
      apply obind_Some in H as (bs' & Hbs & H).
      injection H as <-. constructor; [assumption | now apply IH].
    + inversion H as [|? b ? bs' Hb Hbs]; subst.
      rewrite Hb; simpl. apply IH in Hbs. rewrite Hbs. reflexivity.
Qed.

Lemma mapM_ext_in {A B} (f g : A -> option B) (l : list A) :
  (forall a, In a l -> f a = g a) -> mapM f l = mapM g l.
Proof.
  induction l as [|a l IH]; intros H; simpl; [reflexivity|].
  rewrite (H a (or_introl eq_refl)), IH; [reflexivity|].
  intros; apply H; now right.
Qed.

Lemma mapM_total {A B} (f : A -> option B) (l : list A) :
  (forall a, In a l -> exists b, f a = Some b) -> exists bs, mapM f l = Some bs.
Proof.
  induction l as [|a l IH]; intros H; simpl; [eauto|].
  destruct (H a (or_introl eq_refl)) as [b ->].
  destruct IH as [bs ->]; [intros; apply H; now right|].
  simpl; eauto.
Qed.

(** ** The stable sort *)

Section SortFacts.
Variable A : Type.
Variable cmp : A -> A -> Z.

Lemma insert_perm x l : Permutation (insert cmp x l) (x :: l).
Proof.
  induction l as [|y l IH]; simpl; [reflexivity|].
  destruct (cmp x y <=? 0); [reflexivity|].
  rewrite IH. apply perm_swap.
Qed.

Lemma sort_perm l : Permutation (sort cmp l) l.
Proof.
  induction l as [|x l IH]; simpl; [reflexivity|].
  rewrite insert_perm. now constructor.
Qed.

Lemma sort_In x l : In x (sort cmp l) <-> In x l.
Proof.
  split; apply Permutation_in; [apply sort_perm | symmetry; apply sort_perm].
Qed.

Hypothesis cmp_total : forall x y, cmp x y <= 0 \/ cmp y x <= 0.
Hypothesis cmp_trans : forall x y z, cmp x y <= 0 -> cmp y z <= 0 -> cmp x z <= 0.

Lemma insert_sorted x l :
  StronglySorted (le_of cmp) l -> StronglySorted (le_of cmp) (insert cmp x l).
Proof.
  induction 1 as [|y l Hs IH Hy]; simpl.
  - repeat constructor.
  - destruct (cmp x y <=? 0) eqn:E.
    + apply Z.leb_le in E.
      constructor; [now constructor|].
      constructor; [assumption|].
      eapply Forall_impl; [|exact Hy].
      intros z Hz. eapply cmp_trans; eassumption.
    + apply Z.leb_gt in E.
      constructor; [assumption|].
      eapply Permutation_Forall; [symmetry; apply insert_perm|].
      constructor; [|assumption].
      destruct (cmp_total x y); [lia | assumption].
Qed.

Lemma sort_sorted l : StronglySorted (le_of cmp) (sort cmp l).
Proof.
  induction l as [|x l IH]; simpl; [constructor | now apply insert_sorted].
Qed.

(** Sorting an array that is already in order leaves it as it is. *)
Lemma sort_of_sorted l : StronglySorted (le_of cmp) l -> sort cmp l = l.
Proof.
  induction 1 as [|x l Hs IH Hx]; simpl; [reflexivity|].
  rewrite IH. destruct l as [|y l]; simpl; [reflexivity|].
  inversion Hx as [|? ? Hxy _]; subst.
  apply Z.leb_le in Hxy. now rewrite Hxy.
Qed.

Lemma sort_idem l : sort cmp (sort cmp l) = sort cmp l.
Proof. apply sort_of_sorted, sort_sorted. Qed.

(** With an antisymmetric comparator the order of the input does not
    matter. *)
Hypothesis cmp_antisym : forall x y, cmp x y <= 0 -> cmp y x <= 0 -> x = y.

Lemma sorted_perm_eq l1 l2 :
  StronglySorted (le_of cmp) l1 -> StronglySorted (le_of cmp) l2 ->
  Permutation l1 l2 -> l1 = l2.
Proof.
  intros H1; revert l2; induction H1 as [|x l1 Hs IH Hx]; intros l2 H2 P.
  - apply Permutation_nil in P. now subst.
  - destruct H2 as [|y l2 Hs2 Hy].
    + symmetry in P. apply Permutation_nil in P. discriminate.
    + assert (x = y) as ->.
      { assert (In x (y :: l2)) as Ix
          by (eapply Permutation_in; [exact P | now left]).
        assert (In y (x :: l1)) as Iy
          by (eapply Permutation_in; [symmetry; exact P | now left]).
        destruct Ix as [->|Ix]; [reflexivity|].
        destruct Iy as [->|Iy]; [reflexivity|].
        rewrite Forall_forall in Hx, Hy.
        apply cmp_antisym; [now apply Hx | now apply Hy]. }
      f_equal. apply IH; [assumption|]. eapply Permutation_cons_inv; exact P.
Qed.

Lemma sort_perm_eq l1 l2 : Permutation l1 l2 -> sort cmp l1 = sort cmp l2.
Proof.
  intros P. apply sorted_perm_eq; try apply sort_sorted.
  rewrite !sort_perm. exact P.
Qed.
End SortFacts.

Lemma insert_ext_in {A} (c1 c2 : A -> A -> Z) x l :
  (forall y, In y l -> c1 x y = c2 x y) -> insert c1 x l = insert c2 x l.
Proof.
  induction l as [|y l IH]; intros H; simpl; [reflexivity|].
  rewrite (H y (or_introl eq_refl)), IH; [reflexivity|].
  intros; apply H; now right.
Qed.

Lemma sort_ext_in {A} (c1 c2 : A -> A -> Z) l :
  (forall x y, In x l -> In y l -> c1 x y = c2 x y) -> sort c1 l = sort c2 l.
Proof.
  induction l as [|x l IH]; intros H; simpl; [reflexivity|].
  rewrite IH by (intros; apply H; now right).
  apply insert_ext_in. intros y Hy. apply sort_In in Hy.
  apply H; [now left | now right].
Qed.

Lemma insert_map {A B} (f : A -> B) (cA : A -> A -> Z) (cB : B -> B -> Z) x l :
  (forall a b, cB (f a) (f b) = cA a b) ->
  insert cB (f x) (map f l) = map f (insert cA x l).
Proof.
  intros H; induction l as [|y l IH]; simpl; [reflexivity|].
  rewrite H. destruct (cA x y <=? 0); simpl; [reflexivity | now rewrite IH].
Qed.

Lemma sort_map {A B} (f : A -> B) (cA : A -> A -> Z) (cB : B -> B -> Z) l :
  (forall a b, cB (f a) (f b) = cA a b) ->
  sort cB (map f l) = map f (sort cA l).
Proof.
  intros H; induction l as [|x l IH]; simpl; [reflexivity|].
  rewrite IH. now apply insert_map.
Qed.

(** ** The Map *)

Lemma map_get_In k o (m : jsmap) : map_get k m = Some o -> In (k, o) m.
Proof.
  induction m as [|[k' v'] m IH]; simpl; [discriminate|].
  destruct (k =? k') eqn:E.
  - apply Z.eqb_eq in E; subst. intros [= ->]. now left.
  - intros H. right. now apply IH.
Qed.

Lemma In_map_get k o (m : jsmap) :
  NoDup (map_keys m) -> In (k, o) m -> map_get k m = Some o.
Proof.
  induction m as [|[k' v'] m IH]; simpl; intros ND H; [contradiction|].
  inversion ND as [|? ? Hn ND']; subst.
  destruct H as [[= -> ->]|H].
  - now rewrite Z.eqb_refl.
  - destruct (k =? k') eqn:E.
    + apply Z.eqb_eq in E; subst. exfalso. apply Hn.
      change k' with (fst (k', o)). now apply in_map.
    + now apply IH.
Qed.

Lemma map_has_keys k (m : jsmap) : map_has k m = true <-> In k (map_keys m).
Proof.
  unfold map_has. induction m as [|[k' v'] m IH]; simpl.
  - split; [discriminate | contradiction].
  - destruct (k =? k') eqn:E.
    + apply Z.eqb_eq in E; subst. split; auto.
    + apply Z.eqb_neq in E. rewrite IH. split; [now right|].
      intros [H|H]; [congruence | assumption].
Qed.

Lemma map_get_keys k o (m : jsmap) : map_get k m = Some o -> In k (map_keys m).
Proof. intros H. apply map_has_keys. unfold map_has. now rewrite H. Qed.

Lemma keys_map_get k (m : jsmap) :
  In k (map_keys m) -> exists o, map_get k m = Some o.
Proof.
  intros H. apply map_has_keys in H. unfold map_has in H.
  destruct (map_get k m) as [o|]; [eauto | discriminate].
Qed.

Lemma map_get_set k' k v (m : jsmap) :
  map_get k' (map_set k v m) = if k' =? k then Some v else map_get k' m.
Proof.
  induction m as [|[k0 v0] m IH]; simpl.
  - reflexivity.
  - destruct (k =? k0) eqn:E; simpl.
    + apply Z.eqb_eq in E; subst. destruct (k' =? k0); reflexivity.
    + rewrite IH. destruct (k' =? k0) eqn:E0; [|reflexivity].
      apply Z.eqb_eq in E0; subst. apply Z.eqb_neq in E.
      destruct (k0 =? k) eqn:E1; [|reflexivity].
      apply Z.eqb_eq in E1. congruence.
Qed.

Lemma map_set_keys_In j k v (m : jsmap) :
  In j (map_keys (map_set k v m)) <-> j = k \/ In j (map_keys m).
Proof.
  rewrite <- !map_has_keys. unfold map_has. rewrite map_get_set.
  destruct (j =? k) eqn:E.
  - apply Z.eqb_eq in E. tauto.
  - apply Z.eqb_neq in E. tauto.
Qed.

Lemma map_set_NoDup k v (m : jsmap) :
  NoDup (map_keys m) -> NoDup (map_keys (map_set k v m)).
Proof.
  induction m as [|[k0 v0] m IH]; simpl; intros ND.
  - repeat constructor. intros [].
  - inversion ND as [|? ? Hn ND']; subst.
    destruct (k =? k0) eqn:E; simpl.
    + apply Z.eqb_eq in E; subst. now constructor.
    + apply Z.eqb_neq in E. constructor; [|now apply IH].
      intros H. apply map_set_keys_In in H. destruct H; [congruence | auto].
Qed.

(** *** The store as the index with other [children] arrays *)

Lemma with_children_get m C k :
  map_get k (with_children m C) = option_map (set_children (C k)) (map_get k m).
Proof.
  induction m as [|[k' v'] m IH]; simpl; [reflexivity|].
  destruct (k =? k') eqn:E; [|exact IH].
  apply Z.eqb_eq in E; subst. reflexivity.
Qed.

Lemma with_children_has m C k : map_has k (with_children m C) = map_has k m.
Proof.
  unfold map_has. rewrite with_children_get. now destruct (map_get k m).
Qed.

Lemma with_children_ext m C C' :
  (forall k, In k (map_keys m) -> C k = C' k) ->
  with_children m C = with_children m C'.
Proof.
  intros H. apply map_ext_in. intros [k o] Hin; simpl.
  rewrite H; [reflexivity|]. change k with (fst (k, o)). now apply in_map.
Qed.

Lemma with_children_empty m :
  (forall k o, In (k, o) m -> Obj.children o = []) ->
  with_children m (fun _ => []) = m.
Proof.
  intros H. unfold with_children. rewrite <- (map_id m) at 2.
  apply map_ext_in. intros [k o] Hin; simpl.
  specialize (H k o Hin). destruct o; simpl in *; subst. reflexivity.
Qed.

(** Mutating the [children] array of one node of the store. *)
Lemma with_children_update m C p (g : list Z -> list Z) :
  NoDup (map_keys m) ->
  map_update p (fun o => set_children (g (Obj.children o)) o) (with_children m C) =
  with_children m (fun k => if k =? p then g (C k) else C k).
Proof.
  induction m as [|[k o] m IH]; simpl; intros ND; [reflexivity|].
  inversion ND as [|? ? Hn ND']; subst.
  destruct (p =? k) eqn:E.
  - apply Z.eqb_eq in E; subst. rewrite Z.eqb_refl. f_equal.
    apply with_children_ext. intros j Hj.
    destruct (j =? k) eqn:E; [|reflexivity].
    apply Z.eqb_eq in E; subst. contradiction.
  - rewrite Z.eqb_sym, E. f_equal. now apply IH.
Qed.

(** ** First loop: the index *)

Lemma index_rows_snoc rows r :
  index_rows (rows ++ [r]) = map_set (Row.id r) (node_of_row r) (index_rows rows).
Proof. unfold index_rows. now rewrite fold_left_app. Qed.

Lemma index_rows_wf rows : wf_index (index_rows rows).
Proof.
  induction rows as [|r rows [ND IH]] using rev_ind.
  - split; [constructor | discriminate].
  - rewrite index_rows_snoc. split; [now apply map_set_NoDup|].
    intros k o. rewrite map_get_set.
    destruct (k =? Row.id r) eqn:E; [|apply IH].
    apply Z.eqb_eq in E. intros [= <-]. simpl. auto.
Qed.

Lemma index_rows_origin rows k o :
  map_get k (index_rows rows) = Some o ->
  exists r, In r rows /\ Row.id r = k /\ o = node_of_row r.
Proof.
  induction rows as [|r rows IH] using rev_ind; [discriminate|].
  rewrite index_rows_snoc, map_get_set.
  destruct (k =? Row.id r) eqn:E.
  - apply Z.eqb_eq in E. intros [= <-]. exists r.
    rewrite in_app_iff. simpl. auto.
  - intros H. destruct (IH H) as (r' & Hin & Hr').
    exists r'. rewrite in_app_iff. auto.
Qed.

Lemma index_rows_keys rows k :
  In k (map_keys (index_rows rows)) <-> In k (map Row.id rows).
Proof.
  induction rows as [|r rows IH] using rev_ind; [reflexivity|].
  rewrite index_rows_snoc, map_set_keys_In, IH, map_app, in_app_iff.
  simpl. intuition.
Qed.

Lemma index_rows_get rows r :
  NoDup (map Row.id rows) -> In r rows ->
  map_get (Row.id r) (index_rows rows) = Some (node_of_row r).
Proof.
  induction rows as [|r' rows IH] using rev_ind; [contradiction|].
  rewrite map_app. simpl. intros ND Hin.
  rewrite index_rows_snoc, map_get_set.
  apply NoDup_remove in ND as [ND Hn]. rewrite app_nil_r in ND, Hn.
  apply in_app_iff in Hin as [Hin|[->|[]]].
  - destruct (Row.id r =? Row.id r') eqn:E; [|now apply IH].
    apply Z.eqb_eq in E. exfalso. apply Hn. rewrite <- E. now apply in_map.
  - now rewrite Z.eqb_refl.
Qed.

(** ** Second loop: roots and children *)

Lemma wf_children_empty m : wf_index m -> with_children m (fun _ => []) = m.
Proof.
  intros [ND H]. apply with_children_empty. intros k o Hin.
  apply (H k o). now apply In_map_get.
Qed.

Lemma attach_fold m (l : jsmap) C R :
  NoDup (map_keys m) ->
  fold_left attach l (mkHeap (with_children m C) R) =
  mkHeap (with_children m (fun p => C p ++ kids_in m l p)) (R ++ roots_in m l).
Proof.
  intros ND. revert C R. induction l as [|[k o] l IH]; intros C R.
  - simpl. rewrite app_nil_r. f_equal. apply with_children_ext.
    intros; now rewrite app_nil_r.
  - cbn [fold_left]. unfold attach at 2. cbn [byId roots].
    unfold roots_in, kids_in, is_root_b, is_child_b. cbn [filter snd fst map].
    destruct (Obj.parentId o) as [q|] eqn:Hq.
    + rewrite with_children_has. destruct (map_has q m) eqn:Hm.
      * change (push_child k)
          with (fun o => set_children ((fun cs => cs ++ [k]) (Obj.children o)) o).
        rewrite with_children_update by assumption.
        rewrite IH. cbn [negb]. f_equal. apply with_children_ext. intros p _.
        unfold kids_in, is_child_b.
        destruct (p =? q) eqn:E.
        -- apply Z.eqb_eq in E; subst p. rewrite Z.eqb_refl, Hm. simpl.
           now rewrite <- app_assoc.
        -- rewrite Z.eqb_sym, E. reflexivity.
      * rewrite IH. cbn [negb map fst]. rewrite <- app_assoc. f_equal.
        apply with_children_ext. intros p _. unfold kids_in, is_child_b.
        destruct (q =? p) eqn:E; [|reflexivity].
        apply Z.eqb_eq in E; subst p. now rewrite Hm.
    + rewrite IH. cbn [map fst]. rewrite <- app_assoc. reflexivity.
Qed.

(** After the second loop [roots] holds the parentless and the orphaned
    nodes, and every [children] array the nodes whose parent resolves to its
    owner, all in insertion order. *)
Lemma attach_all_spec m :
  wf_index m ->
  attach_all m = mkHeap (with_children m (child_ids m)) (root_ids m).
Proof.
  intros W. unfold attach_all.
  rewrite <- (wf_children_empty W) at 2.
  rewrite attach_fold by apply W. reflexivity.
Qed.

(** ** The hierarchy of an index *)

Lemma NoDup_keys_filter (f : Z * Obj.t -> bool) (m : jsmap) :
  NoDup (map_keys m) -> NoDup (map fst (filter f m)).
Proof.
  induction m as [|kv m IH]; simpl; intros ND; [constructor|].
  inversion ND as [|? ? Hn ND']; subst.
  destruct (f kv); simpl; [|now apply IH].
  constructor; [|now apply IH].
  intros H. apply Hn. apply in_map_iff in H as (kv' & E & H).
  apply filter_In in H as [H _]. rewrite <- E. now apply in_map.
Qed.

Section Hierarchy.
Variable m : jsmap.
Hypothesis keys_distinct : NoDup (map_keys m).

Lemma In_child_ids c p : In c (child_ids m p) <-> parent_in m c p.
Proof.
  unfold child_ids, parent_in, is_child_b. rewrite in_map_iff. split.
  - intros ([k o] & E & H). simpl in E; subst k.
    apply filter_In in H as [Hin H]. simpl in H.
    exists o. split; [now apply In_map_get|].
    destruct (Obj.parentId o) as [q|]; [|discriminate].
    apply andb_prop in H as [E H]. apply Z.eqb_eq in E. subst. auto.
  - intros (o & Hget & Hp & Hm). exists (c, o). split; [reflexivity|].
    apply filter_In. split; [now apply map_get_In|].
    simpl. now rewrite Hp, Z.eqb_refl, Hm.
Qed.

Lemma In_root_ids c : In c (root_ids m) <-> root_in m c.
Proof.
  unfold root_ids, root_in. rewrite in_map_iff. split.
  - intros ([k o] & E & H). simpl in E; subst k.
    apply filter_In in H as [Hin H]. exists o. split; [now apply In_map_get | exact H].
  - intros (o & Hget & Hr). exists (c, o). split; [reflexivity|].
    apply filter_In. split; [now apply map_get_In | exact Hr].
Qed.

Lemma child_ids_NoDup p : NoDup (child_ids m p).
Proof. now apply NoDup_keys_filter. Qed.

Lemma root_ids_NoDup : NoDup (root_ids m).
Proof. now apply NoDup_keys_filter. Qed.

Lemma parent_in_fun c p q : parent_in m c p -> parent_in m c q -> p = q.
Proof. intros (o & H1 & H2 & _) (o' & H1' & H2' & _). congruence. Qed.

Lemma root_not_child c p : root_in m c -> parent_in m c p -> False.
Proof.
  intros (o & H1 & H2) (o' & H1' & H2' & H3). unfold is_root_b in H2.
  assert (o' = o) as -> by congruence. rewrite H2', H3 in H2. discriminate.
Qed.

Lemma parent_in_keys c p :
  parent_in m c p -> In c (map_keys m) /\ In p (map_keys m).
Proof.
  intros (o & H1 & _ & H3). split; [eapply map_get_keys; eassumption|].
  now apply map_has_keys.
Qed.

Lemma path_head c l : path m c l -> exists l', l = c :: l'.
Proof. destruct 1; eauto. Qed.

Lemma path_det c l1 l2 : path m c l1 -> path m c l2 -> l1 = l2.
Proof.
  intros H; revert l2. induction H as [c Hr|c p l Hp H IH]; intros l2 H2.
  - destruct H2 as [c _|c q l' Hq _]; [reflexivity|].
    exfalso. eapply root_not_child; eassumption.
  - destruct H2 as [c Hr|c q l' Hq H2].
    + exfalso. eapply root_not_child; eassumption.
    + assert (q = p) as -> by (eapply parent_in_fun; eassumption).
      f_equal. now apply IH.
Qed.

Lemma path_suffix c l :
  path m c l -> forall l1 y l2, l = l1 ++ y :: l2 -> path m y (y :: l2).
Proof.
  induction 1 as [c Hr|c p l Hp H IH]; intros l1 y l2 E.
  - destruct l1 as [|x l1]; simpl in E.
    + injection E as <- <-. now constructor.
    + injection E as _ E. destruct l1; discriminate.
  - destruct l1 as [|x l1]; simpl in E.
    + injection E as <- <-. econstructor; eassumption.
    + injection E as _ E. eapply IH; eassumption.
Qed.

Lemma path_NoDup c l : path m c l -> NoDup l.
Proof.
  induction 1 as [c Hr|c p l Hp H IH].
  - repeat constructor. intros [].
  - constructor; [|assumption].
    intros Hin. apply in_split in Hin as (l1 & l2 & E).
    assert (path m c (c :: l2)) as H2 by (eapply path_suffix; eassumption).
    assert (path m c (c :: l)) as H1 by (econstructor; eassumption).
    pose proof (path_det H1 H2) as E'. injection E' as E'.
    apply (f_equal (@List.length Z)) in E.
    rewrite length_app in E. simpl in E. rewrite E' in E. lia.
Qed.

Lemma path_keys c l : path m c l -> incl l (map_keys m).
Proof.
  induction 1 as [c (o & Ho & _)|c p l Hp H IH]; intros x [<-|Hx].
  - eapply map_get_keys; eassumption.
  - destruct Hx.
  - now apply parent_in_keys in Hp.
  - now apply IH.
Qed.

(** A path never has more nodes than the map. *)
Lemma path_length c l : path m c l -> (List.length l <= List.length m)%nat.
Proof.
  intros H. unfold map_keys in *.
  rewrite <- (length_map fst m).
  apply NoDup_incl_length; [eapply path_NoDup | eapply path_keys]; eassumption.
Qed.

Lemma below_path k j pk :
  below m k j -> path m k pk -> exists l, path m j (l ++ pk).
Proof.
  induction 1 as [|j c Hb IH Hp]; intros Hk.
  - exists []. assumption.
  - destruct (IH Hk) as [l Hl]. exists (c :: l). simpl. econstructor; eassumption.
Qed.

Lemma below_trans k j i : below m k j -> below m j i -> below m k i.
Proof. intros H; induction 1; [assumption | econstructor; eassumption]. Qed.

Lemma below_cases k j :
  below m k j -> j = k \/ exists c, parent_in m c k /\ below m c j.
Proof.
  induction 1 as [|j c Hb IH Hp]; [now left|]. right.
  destruct IH as [->|(c' & Hc' & Hb')].
  - exists c. split; [assumption | constructor].
  - exists c'. split; [assumption | econstructor; eassumption].
Qed.

(** A node on a cycle of parent links has no path to a root. *)
Lemma ancestor_on_path a c l :
  ancestor m a c -> path m c l -> exists l', l = c :: l' /\ In a l'.
Proof.
  intros H; revert l. induction H as [a c Hp|a p c Hp H IH]; intros l Hl.
  - destruct Hl as [c Hr|c q l Hq Hl].
    + exfalso. eapply root_not_child; eassumption.
    + assert (q = a) as -> by (eapply parent_in_fun; eassumption).
      exists l. split; [reflexivity|].
      destruct (path_head Hl) as [l' ->]. now left.
  - destruct Hl as [c Hr|c q l Hq Hl].
    + exfalso. eapply root_not_child; eassumption.
    + assert (q = p) as -> by (eapply parent_in_fun; eassumption).
      exists l. split; [reflexivity|].
      destruct (IH _ Hl) as (l' & -> & Hin). now right.
Qed.

Lemma cycle_no_path c l : ancestor m c c -> path m c l -> False.
Proof.
  intros Ha Hl. destruct (ancestor_on_path Ha Hl) as (l' & -> & Hin).
  apply path_NoDup in Hl. inversion Hl. contradiction.
Qed.
End Hierarchy.

(** ** The comparator *)

Lemma compareRefs_total m x y : compareRefs m x y <= 0 \/ compareRefs m y x <= 0.
Proof.
  unfold compareRefs.
  destruct (order_of m x - order_of m y =? 0) eqn:E1;
    destruct (order_of m y - order_of m x =? 0) eqn:E2; lia.
Qed.

Lemma compareRefs_trans m x y z :
  compareRefs m x y <= 0 -> compareRefs m y z <= 0 -> compareRefs m x z <= 0.
Proof.
  unfold compareRefs.
  destruct (order_of m x - order_of m y =? 0) eqn:E1;
    destruct (order_of m y - order_of m z =? 0) eqn:E2;
    destruct (order_of m x - order_of m z =? 0) eqn:E3; lia.
Qed.

Lemma compareRefs_antisym m x y :
  compareRefs m x y <= 0 -> compareRefs m y x <= 0 -> x = y.
Proof.
  unfold compareRefs.
  destruct (order_of m x - order_of m y =? 0) eqn:E1;
    destruct (order_of m y - order_of m x =? 0) eqn:E2; lia.
Qed.

Lemma sort_ids_In m x l : In x (sort_ids m l) <-> In x l.
Proof. apply sort_In. Qed.

Lemma sort_ids_idem m l : sort_ids m (sort_ids m l) = sort_ids m l.
Proof.
  apply sort_idem; [apply compareRefs_total | apply compareRefs_trans].
Qed.

Lemma sort_ids_NoDup m l : NoDup l -> NoDup (sort_ids m l).
Proof.
  intros H. eapply Permutation_NoDup; [symmetry; apply sort_perm | exact H].
Qed.

Lemma mapM_map {A B} (f : A -> option B) (g : A -> B) l :
  (forall a, In a l -> f a = Some (g a)) -> mapM f l = Some (map g l).
Proof.
  induction l as [|a l IH]; intros H; simpl; [reflexivity|].
  rewrite (H a (or_introl eq_refl)). simpl.
  rewrite IH by (intros; apply H; now right). reflexivity.
Qed.

(** Sorting references through the store is sorting ids by the order
    indexes of the index. *)
Lemma sort_refs_spec m C refs :
  wf_index m -> incl refs (map_keys m) ->
  sort_refs (with_children m C) refs = Some (sort_ids m refs).
Proof.
  intros [ND W] Hin. unfold sort_refs.
  set (dummy := Obj.mk 0 "" None 0 false []).
  set (g := fun r => match map_get r (with_children m C) with
                     | Some o => o
                     | None => dummy
                     end).
  assert (forall r, In r refs ->
            map_get r (with_children m C) = Some (g r) /\
            Obj.id (g r) = r /\ Obj.orderIndex (g r) = order_of m r) as Hg.
  { intros r Hr. unfold g, order_of. rewrite with_children_get.
    destruct (keys_map_get _ _ (Hin r Hr)) as [o Ho]. rewrite Ho. simpl.
    destruct (W r o Ho) as [Hid _]. auto. }
  rewrite (mapM_map _ g) by (intros; now apply Hg). simpl. f_equal.
  rewrite (sort_map g (fun a b => compareNodes (g a) (g b))) by reflexivity.
  rewrite map_map. unfold sort_ids.
  rewrite (sort_ext_in (fun a b => compareNodes (g a) (g b)) (compareRefs m)).
  - rewrite <- (map_id (sort _ refs)) at 2. apply map_ext_in.
    intros r Hr. apply sort_In in Hr. now apply Hg.
  - intros x y Hx Hy. unfold compareNodes, compareRefs.
    destruct (Hg x Hx) as (_ & -> & ->). destruct (Hg y Hy) as (_ & -> & ->).
    reflexivity.
Qed.

(** ** sortNodes *)

Section SortNodes.
Variable m : jsmap.
Hypothesis Wf : wf_index m.

Let ND : NoDup (map_keys m) := proj1 Wf.

Lemma child_ids_keys k : incl (child_ids m k) (map_keys m).
Proof.
  intros c Hc. apply In_child_ids in Hc; [|exact ND].
  now apply parent_in_keys in Hc.
Qed.

Lemma partly_sorted_keys C k : partly_sorted m C -> incl (C k) (map_keys m).
Proof.
  intros P c Hc. destruct (P k) as [E|E]; rewrite E in Hc.
  - now apply child_ids_keys in Hc.
  - apply sort_ids_In in Hc. now apply child_ids_keys in Hc.
Qed.

Lemma partly_sorted_sort C k :
  partly_sorted m C -> sort_ids m (C k) = sorted_children m k.
Proof.
  intros P. destruct (P k) as [->| ->]; [reflexivity | apply sort_ids_idem].
Qed.

(** The loop [nodes.forEach((node) => sortNodes(node.children))]. *)
Lemma sortNodes_each fuel :
  sorts_children m fuel ->
  forall cs C R,
    (forall c, In c cs ->
       exists pc, path m c pc /\ (List.length m < fuel + List.length pc)%nat) ->
    partly_sorted m C ->
    exists C',
      fold_left
        (fun acc node => h' <- acc ;; sortNodes fuel h' (ChildrenOf node))
        cs (Some (mkHeap (with_children m C) R)) =
        Some (mkHeap (with_children m C') R) /\
      sorts m (fun j => exists c, In c cs /\ below m c j) C C'.
Proof.
  intros IHf. induction cs as [|c cs IH]; intros C R Hcs P.
  - exists C. split; [reflexivity|].
    split; [assumption|]. split; [auto | intros j (c & [] & _)].
  - destruct (Hcs c (or_introl eq_refl)) as (pc & Hpc & Hlen).
    destruct (IHf c pc C R Hpc Hlen P) as (C1 & E1 & P1 & M1 & S1).
    assert (forall c', In c' cs ->
              exists pc', path m c' pc' /\
                (List.length m < fuel + List.length pc')%nat) as Hcs'
      by (intros; apply Hcs; now right).
    destruct (IH C1 R Hcs' P1) as (C2 & E2 & P2 & M2 & S2).
    exists C2. split.
    + cbn [fold_left obind]. rewrite E1. exact E2.
    + split; [assumption|]. split; [auto|].
      intros j (c' & [<-|Hc'] & Hb); [auto | apply S2; eauto].
Qed.

Lemma sortNodes_children fuel : sorts_children m fuel.
Proof.
  induction fuel as [|fuel IH]; intros k pk C R Hk Hlen P.
  - pose proof (path_length Hk). lia.
  - assert (In k (map_keys m)) as Hkeys.
    { destruct (path_head Hk) as [l ->].
      apply (path_keys Hk). now left. }
    destruct (keys_map_get _ _ Hkeys) as [o Ho].
    set (s := sorted_children m k).
    set (C1 := fun j => if j =? k then s else C j).
    assert (partly_sorted m C1) as P1.
    { intros j. unfold C1. destruct (j =? k) eqn:E; [|apply P].
      apply Z.eqb_eq in E; subst j. now right. }
    assert (forall c, In c s ->
              exists pc, path m c pc /\
                (List.length m < fuel + List.length pc)%nat) as Hs.
    { intros c Hc. exists (c :: pk). split.
      - econstructor; [|eassumption].
        apply In_child_ids; [exact ND|]. now apply sort_ids_In in Hc.
      - simpl. lia. }
    destruct (@sortNodes_each _ IH s C1 R Hs P1) as (C2 & E2 & P2 & M2 & S2).
    exists C2. split.
    + cbn [sortNodes read_array byId obind].
      rewrite with_children_get, Ho. cbn [option_map obind set_children Obj.children].
      rewrite sort_refs_spec by (auto using partly_sorted_keys).
      cbn [obind]. rewrite partly_sorted_sort by assumption.
      cbn [write_array byId roots].
      change (set_children (sorted_children m k))
        with (fun o => set_children ((fun _ => s) (Obj.children o)) o).
      rewrite with_children_update by exact ND. exact E2.
    + split; [assumption|]. split.
      * intros j Hj. apply M2. unfold C1.
        destruct (j =? k) eqn:E; [|assumption].
        apply Z.eqb_eq in E; subst j. reflexivity.
      * intros j Hb. apply below_cases in Hb as [->|(c & Hc & Hb)].
        -- apply M2. unfold C1. now rewrite Z.eqb_refl.
        -- apply S2. exists c. split; [|assumption].
           apply sort_ids_In. now apply In_child_ids.
Qed.

(** The call [sortNodes(roots)] succeeds with fuel for one level more
    than the map has nodes. *)
Lemma sortNodes_roots :
  exists C',
    sortNodes (S (List.length m)) (attach_all m) Roots =
      Some (mkHeap (with_children m C') (sort_ids m (root_ids m))) /\
    forall r j, root_in m r -> below m r j -> C' j = sorted_children m j.
Proof.
  rewrite attach_all_spec by exact Wf.
  assert (partly_sorted m (child_ids m)) as P by (intros k; now left).
  assert (forall r, In r (sort_ids m (root_ids m)) ->
            exists pr, path m r pr /\
              (List.length m < List.length m + List.length pr)%nat) as Hr.
  { intros r Hr. apply sort_ids_In in Hr. apply In_root_ids in Hr; [|exact ND].
    exists [r]. split; [now constructor | simpl; lia]. }
  destruct (@sortNodes_each _ (sortNodes_children (List.length m))
              (sort_ids m (root_ids m)) (child_ids m)
              (sort_ids m (root_ids m)) Hr P) as (C' & E & _ & _ & S').
  exists C'. split.
  - cbn [sortNodes read_array byId roots obind].
    rewrite sort_refs_spec; [exact E | exact Wf |].
    intros r Hin. apply In_root_ids in Hin as (o & Ho & _); [|exact ND].
    eapply map_get_keys; eassumption.
  - intros r j Hroot Hb. apply S'. exists r. split; [|assumption].
    apply sort_ids_In. now apply In_root_ids.
Qed.
End SortNodes.

(** ** Lists related element by element *)

Lemma Forall2_In_l {A B} (R : A -> B -> Prop) l l' a :
  Forall2 R l l' -> In a l -> exists b, In b l' /\ R a b.
Proof.
  induction 1 as [|x y l l' Hxy H IH]; intros Hin; [contradiction|].
  destruct Hin as [->|Hin]; [exists y; simpl; auto|].
  destruct (IH Hin) as (b & Hb & Hab). exists b. simpl. auto.
Qed.

Lemma Forall2_In_r {A B} (R : A -> B -> Prop) l l' b :
  Forall2 R l l' -> In b l' -> exists a, In a l /\ R a b.
Proof.
  induction 1 as [|x y l l' Hxy H IH]; intros Hin; [contradiction|].
  destruct Hin as [->|Hin]; [exists x; simpl; auto|].
  destruct (IH Hin) as (a & Ha & Hab). exists a. simpl. auto.
Qed.

Lemma NoDup_flat_map_Forall2 {A B C} (R : A -> B -> Prop) (g : B -> list C) cs ts :
  Forall2 R cs ts -> NoDup cs ->
  (forall c t, In c cs -> R c t -> NoDup (g t)) ->
  (forall c1 t1 c2 t2 x, In c1 cs -> In c2 cs -> R c1 t1 -> R c2 t2 ->
     In x (g t1) -> In x (g t2) -> c1 = c2) ->
  NoDup (flat_map g ts).
Proof.
  induction 1 as [|c t cs ts Hct H IH]; intros ND Hg Hd; simpl; [constructor|].
  inversion ND as [|? ? Hn ND']; subst.
  apply NoDup_app.
  - apply (Hg c); [now left | assumption].
  - apply IH; [assumption | |].
    + intros c' t' Hc'. apply Hg. now right.
    + intros c1 t1 c2 t2 x H1 H2. apply Hd; now right.
  - intros x Hx Hx'. apply in_flat_map in Hx' as (t' & Ht' & Hx').
    destruct (Forall2_In_r _ H Ht') as (c' & Hc' & Hct').
    assert (c = c') as <-.
    { apply (Hd c t c' t' x); simpl; auto. }
    contradiction.
Qed.

Lemma StronglySorted_Forall2 {A B} (R1 : A -> A -> Prop) (R2 : B -> B -> Prop)
    (Q : A -> B -> Prop) l1 l2 :
  StronglySorted R1 l1 -> Forall2 Q l1 l2 ->
  (forall a b x y, Q a x -> Q b y -> R1 a b -> R2 x y) ->
  StronglySorted R2 l2.
Proof.
  intros H; revert l2. induction H as [|a l1 Hs IH Ha]; intros l2 F HR.
  - inversion F. constructor.
  - inversion F as [|? x ? l2' Hax F']; subst.
    constructor; [now apply IH|].
    apply Forall_forall. intros y Hy.
    destruct (Forall2_In_r _ F' Hy) as (b & Hb & Hby).
    rewrite Forall_forall in Ha. eapply HR; eauto.
Qed.

Lemma StronglySorted_strict {A} (R : A -> A -> Prop) l :
  StronglySorted R l -> NoDup l -> StronglySorted (fun a b => R a b /\ a <> b) l.
Proof.
  induction 1 as [|a l Hs IH Ha]; intros ND; [constructor|].
  inversion ND as [|? ? Hn ND']; subst.
  constructor; [now apply IH|].
  rewrite Forall_forall in *. intros b Hb. split; [now apply Ha|].
  intros ->. contradiction.
Qed.

(** ** The tree a consumer reads *)

Section View.
Variable m : jsmap.
Hypothesis Wf : wf_index m.

Let ND : NoDup (map_keys m) := proj1 Wf.
Let M : jsmap := sorted_store m.

Lemma view_inv fuel k t :
  view (S fuel) M k = Some t <->
  exists o ts,
    map_get k m = Some o /\
    Forall2 (fun c t' => view fuel M c = Some t') (sorted_children m k) ts /\
    t = node_of o ts.
Proof.
  cbn [view]. unfold M, sorted_store. rewrite with_children_get.
  destruct (map_get k m) as [o|]; cbn [option_map obind set_children Obj.children Obj.id
    Obj.name Obj.parentId Obj.orderIndex Obj.isActive].
  - split.
    + intros H. apply obind_Some in H as (ts & Hts & H).
      injection H as <-. exists o, ts. split; [reflexivity|].
      split; [now apply mapM_Forall2 | reflexivity].
    + intros (o' & ts & [= <-] & Hts & ->).
      apply mapM_Forall2 in Hts. unfold sorted_store in Hts.
      rewrite Hts. reflexivity.
  - split; [discriminate | intros (o & ts & H & _); discriminate].
Qed.

(** Only the arrays below a node are read. *)
Lemma view_below fuel C k :
  (forall j, below m k j -> C j = sorted_children m j) ->
  view fuel (with_children m C) k = view fuel M k.
Proof.
  revert k. induction fuel as [|fuel IH]; intros k H; [reflexivity|].
  cbn [view]. unfold M, sorted_store. rewrite !with_children_get.
  destruct (map_get k m) as [o|]; [|reflexivity].
  cbn [option_map obind set_children Obj.children].
  rewrite (H k) by constructor.
  rewrite (mapM_ext_in (view fuel (with_children m C)) (view fuel M));
    [reflexivity|].
  intros c Hc. apply IH. intros j Hj. apply H.
  eapply below_trans; [|exact Hj].
  econstructor; [constructor|].
  apply In_child_ids; [exact ND|]. now apply sort_ids_In in Hc.
Qed.

Lemma child_path c k pk :
  In c (sorted_children m k) -> path m k pk -> path m c (c :: pk).
Proof.
  intros Hc Hk. econstructor; [|eassumption].
  apply In_child_ids; [exact ND|]. now apply sort_ids_In in Hc.
Qed.

Lemma view_total fuel k pk :
  path m k pk -> (List.length m < fuel + List.length pk)%nat ->
  exists t, view fuel M k = Some t.
Proof.
  revert k pk. induction fuel as [|fuel IH]; intros k pk Hk Hlen.
  - pose proof (path_length Hk). lia.
  - assert (In k (map_keys m)) as Hkeys.
    { destruct (path_head Hk) as [l ->]. apply (path_keys Hk). now left. }
    destruct (keys_map_get _ _ Hkeys) as [o Ho].
    destruct (mapM_total (view fuel M) (sorted_children m k)) as [ts Hts].
    { intros c Hc. apply (IH c (c :: pk)); [eapply child_path; eassumption | simpl; lia]. }
    exists (node_of o ts). apply view_inv. exists o, ts.
    split; [assumption|]. split; [now apply mapM_Forall2 | reflexivity].
Qed.

Lemma view_fields fuel k t :
  view fuel M k = Some t ->
  Node.id t = k /\ Node.orderIndex t = order_of m k /\
  exists o, map_get k m = Some o /\ t = node_of o (Node.children t).
Proof.
  destruct fuel as [|fuel]; [discriminate|].
  intros H. apply view_inv in H as (o & ts & Ho & _ & ->).
  unfold order_of. rewrite Ho. simpl.
  destruct (proj2 Wf k o Ho) as [-> _]. eauto.
Qed.

Lemma view_ids_below fuel k t :
  view fuel M k = Some t -> forall j, In j (tree_ids t) -> below m k j.
Proof.
  revert k t. induction fuel as [|fuel IH]; intros k t H j Hj; [discriminate|].
  pose proof (view_fields _ _ H) as (Hid & _).
  apply view_inv in H as (o & ts & Ho & Hts & ->).
  simpl in Hj, Hid. destruct Hj as [<-|Hj]; [rewrite Hid; constructor|].
  apply in_flat_map in Hj as (t' & Ht' & Hj).
  destruct (Forall2_In_r _ Hts Ht') as (c & Hc & Hv).
  eapply below_trans; [|eapply IH; eassumption].
  econstructor; [constructor|].
  apply In_child_ids; [exact ND|]. now apply sort_ids_In in Hc.
Qed.

Lemma view_below_ids fuel k t :
  view fuel M k = Some t -> forall j, below m k j -> In j (tree_ids t).
Proof.
  revert k t. induction fuel as [|fuel IH]; intros k t H j Hj; [discriminate|].
  pose proof (view_fields _ _ H) as (Hid & _).
  apply view_inv in H as (o & ts & Ho & Hts & ->).
  simpl in Hid |- *. apply below_cases in Hj as [->|(c & Hc & Hj)]; [now left|].
  right. apply in_flat_map.
  assert (In c (sorted_children m k)) as Hin
    by (apply sort_ids_In; now apply In_child_ids).
  destruct (Forall2_In_l _ Hts Hin) as (t' & Ht' & Hv).
  exists t'. split; [assumption|]. eapply IH; eassumption.
Qed.

(** Two nodes whose paths continue alike above them have no common
    descendant. *)
Lemma below_disjoint a b p j :
  path m a (a :: p) -> path m b (b :: p) ->
  below m a j -> below m b j -> a = b.
Proof.
  intros Ha Hb Ja Jb.
  destruct (below_path Ja Ha) as [la Hla].
  destruct (below_path Jb Hb) as [lb Hlb].
  pose proof (path_det Hla Hlb) as E.
  change (la ++ a :: p) with (la ++ [a] ++ p) in E.
  change (lb ++ b :: p) with (lb ++ [b] ++ p) in E.
  rewrite !app_assoc in E. apply app_inv_tail in E.
  now apply app_inj_tail in E.
Qed.

Lemma not_below_child c k pk :
  path m k pk -> path m c (c :: pk) -> below m c k -> False.
Proof.
  intros Hk Hc Hb. destruct (below_path Hb Hc) as [l Hl].
  pose proof (path_det Hk Hl) as E.
  apply (f_equal (@List.length Z)) in E.
  rewrite length_app in E. simpl in E. lia.
Qed.

Lemma view_NoDup fuel k pk t :
  path m k pk -> view fuel M k = Some t -> NoDup (tree_ids t).
Proof.
  revert k pk t. induction fuel as [|fuel IH]; intros k pk t Hk H; [discriminate|].
  pose proof (view_fields _ _ H) as (Hid & _).
  apply view_inv in H as (o & ts & Ho & Hts & ->).
  simpl in Hid |- *. constructor.
  - intros Hin. apply in_flat_map in Hin as (t' & Ht' & Hin).
    destruct (Forall2_In_r _ Hts Ht') as (c & Hc & Hv).
    rewrite Hid in Hin.
    eapply not_below_child; [exact Hk | eapply child_path; eassumption |].
    eapply view_ids_below; eassumption.
  - eapply NoDup_flat_map_Forall2; [exact Hts | | |].
    + apply sort_ids_NoDup, child_ids_NoDup, ND.
    + intros c t' Hc Hv. eapply IH; [eapply child_path|]; eassumption.
    + intros c1 t1 c2 t2 x H1 H2 V1 V2 X1 X2.
      cbv beta in V1, V2. apply (@below_disjoint c1 c2 pk x).
      * eapply child_path; eassumption.
      * eapply child_path; eassumption.
      * eapply view_ids_below; eassumption.
      * eapply view_ids_below; eassumption.
Qed.
End View.

(** ** The forest of an index *)

Lemma compareRefs_strict m a b :
  compareRefs m a b <= 0 /\ a <> b ->
  order_of m a < order_of m b \/ (order_of m a = order_of m b /\ a < b).
Proof.
  unfold compareRefs.
  destruct (order_of m a - order_of m b =? 0) eqn:E; lia.
Qed.

Section Forest.
Variable m : jsmap.
Hypothesis Wf : wf_index m.

Let ND : NoDup (map_keys m) := proj1 Wf.
Let M : jsmap := sorted_store m.

(** Siblings come out in sibling order. *)
Lemma sorted_siblings fuel l ts :
  NoDup l ->
  Forall2 (fun c t => view fuel M c = Some t) (sort_ids m l) ts ->
  StronglySorted sibling_lt ts.
Proof.
  intros Hl Hts.
  eapply StronglySorted_Forall2; [|exact Hts|].
  - apply StronglySorted_strict; [|now apply sort_ids_NoDup].
    apply sort_sorted; [apply compareRefs_total | apply compareRefs_trans].
  - cbv beta. intros a b x y Ha Hb Hab.
    destruct (view_fields Wf _ _ Ha) as (Ia & Oa & _).
    destruct (view_fields Wf _ _ Hb) as (Ib & Ob & _).
    unfold sibling_lt. rewrite Ia, Ib, Oa, Ob.
    now apply compareRefs_strict.
Qed.

Lemma view_subtrees fuel k pk t :
  path m k pk -> view fuel M k = Some t ->
  forall t', In t' (subtrees t) -> is_view m t'.
Proof.
  revert k pk t. induction fuel as [|fuel IH]; intros k pk t Hk H t' Ht';
    [discriminate|].
  pose proof H as H0.
  apply view_inv in H as (o & ts & Ho & Hts & ->).
  simpl in Ht'. destruct Ht' as [<-|Ht'].
  - exists (S fuel), k, pk. auto.
  - apply in_flat_map in Ht' as (c' & Hc' & Ht').
    destruct (Forall2_In_r _ Hts Hc') as (c & Hc & Hv).
    eapply (IH c (c :: pk)); [eapply child_path| |]; eassumption.
Qed.

(** The tree read at a node does not depend on the fuel left. *)
Lemma view_det fuel fuel' k t t' :
  view fuel M k = Some t -> view fuel' M k = Some t' -> t = t'.
Proof.
  revert fuel' k t t'.
  induction fuel as [|fuel IH]; intros [|fuel'] k t t' H H'; try discriminate.
  apply view_inv in H as (o & ts & Ho & Hts & ->).
  apply view_inv in H' as (o' & ts' & Ho' & Hts' & ->).
  assert (o' = o) as -> by congruence. f_equal.
  revert ts' Hts'. induction Hts as [|c x cs xs Hx _ IHcs]; intros ts' Hts';
    inversion Hts' as [|? x' ? xs' Hx' Hxs']; subst; [reflexivity|].
  f_equal; [eapply IH; eassumption | now apply IHcs].
Qed.

Lemma is_view_id_eq t t' :
  is_view m t -> is_view m t' -> Node.id t = Node.id t' -> t = t'.
Proof.
  intros (fuel & k & pk & Hk & H) (fuel' & k' & pk' & Hk' & H') E.
  destruct (view_fields Wf _ _ H) as (Hid & _).
  destruct (view_fields Wf _ _ H') as (Hid' & _).
  assert (k' = k) as -> by congruence.
  eapply view_det; eassumption.
Qed.

Lemma is_view_NoDup t : is_view m t -> NoDup (tree_ids t).
Proof. intros (fuel & k & pk & Hk & H). eapply view_NoDup; eassumption. Qed.

Lemma is_view_sorted t : is_view m t -> StronglySorted sibling_lt (Node.children t).
Proof.
  intros (fuel & k & pk & Hk & H). destruct fuel as [|fuel]; [discriminate|].
  apply view_inv in H as (o & ts & Ho & Hts & ->). simpl.
  eapply sorted_siblings; [|exact Hts]. apply child_ids_NoDup, ND.
Qed.

(** The children of a node are the nodes whose parent link resolves to
    it. *)
Lemma is_view_child t c :
  is_view m t -> In c (Node.children t) -> parent_in m (Node.id c) (Node.id t).
Proof.
  intros (fuel & k & pk & Hk & H) Hc. destruct fuel as [|fuel]; [discriminate|].
  destruct (view_fields Wf _ _ H) as (Hid & _). rewrite Hid.
  apply view_inv in H as (o & ts & Ho & Hts & ->). simpl in Hc.
  destruct (Forall2_In_r _ Hts Hc) as (j & Hj & Hv).
  destruct (view_fields Wf _ _ Hv) as (-> & _).
  apply In_child_ids; [exact ND|]. now apply sort_ids_In in Hj.
Qed.

Lemma forest_of_total : exists f, forest_of m = Some f.
Proof.
  apply mapM_total. intros r Hr.
  apply sort_ids_In in Hr. apply In_root_ids in Hr; [|exact ND].
  apply (view_total Wf (S (List.length m)) (k:=r) (pk:=[r]));
    [now constructor | simpl; lia].
Qed.

Lemma view_root_ids fuel rs ts :
  Forall2 (fun r t => view fuel M r = Some t) rs ts -> map Node.id ts = rs.
Proof.
  induction 1 as [|r t rs ts Hv _ IH]; [reflexivity|].
  simpl. rewrite IH. destruct (view_fields Wf _ _ Hv) as (-> & _). reflexivity.
Qed.

Variable f : list Node.t.
Hypothesis Hf : forest_of m = Some f.

Let Hroots :
  Forall2 (fun r t => view (S (List.length m)) M r = Some t)
    (sort_ids m (root_ids m)) f := proj1 (mapM_Forall2 _ _ _) Hf.

Lemma forest_root_path r : In r (sort_ids m (root_ids m)) -> path m r [r].
Proof.
  intros Hr. apply sort_ids_In in Hr. apply In_root_ids in Hr; [|exact ND].
  now constructor.
Qed.

Lemma forest_root_ids : map Node.id f = sort_ids m (root_ids m).
Proof. eapply view_root_ids. exact Hroots. Qed.

Lemma forest_roots r : In r (map Node.id f) <-> root_in m r.
Proof. rewrite forest_root_ids, sort_ids_In. now apply In_root_ids. Qed.

Lemma path_root_below j pj :
  path m j pj -> exists r, root_in m r /\ below m r j.
Proof.
  induction 1 as [c Hr|c p l Hp H (r & Hr & Hb)].
  - exists c. split; [assumption | constructor].
  - exists r. split; [assumption | econstructor; eassumption].
Qed.

(** The nodes of the forest are the nodes with a path to a root. *)
Lemma forest_ids_path j : In j (forest_ids f) <-> exists pj, path m j pj.
Proof.
  unfold forest_ids. rewrite in_flat_map. split.
  - intros (t & Ht & Hj).
    destruct (Forall2_In_r _ Hroots Ht) as (r & Hr & Hv).
    assert (below m r j) as Hb by (eapply view_ids_below; eassumption).
    destruct (below_path Hb (forest_root_path _ Hr)) as [l Hl]. eauto.
  - intros (pj & Hj). destruct (path_root_below Hj) as (r & Hr & Hb).
    assert (In r (sort_ids m (root_ids m))) as Hin
      by (apply sort_ids_In; now apply In_root_ids).
    destruct (Forall2_In_l _ Hroots Hin) as (t & Ht & Hv).
    exists t. split; [assumption|]. eapply view_below_ids; eassumption.
Qed.

Lemma forest_NoDup : NoDup (forest_ids f).
Proof.
  eapply NoDup_flat_map_Forall2; [exact Hroots | | |].
  - apply sort_ids_NoDup, root_ids_NoDup, ND.
  - intros r t Hr Hv. cbv beta in Hv.
    apply (view_NoDup Wf _ (forest_root_path _ Hr) Hv).
  - intros r1 t1 r2 t2 x H1 H2 V1 V2 X1 X2. cbv beta in V1, V2.
    apply (@below_disjoint m r1 r2 [] x).
    + now apply forest_root_path.
    + now apply forest_root_path.
    + eapply view_ids_below; eassumption.
    + eapply view_ids_below; eassumption.
Qed.

Lemma forest_subtrees_view t : In t (forest_subtrees f) -> is_view m t.
Proof.
  intros Ht. apply in_flat_map in Ht as (t0 & Ht0 & Ht).
  destruct (Forall2_In_r _ Hroots Ht0) as (r & Hr & Hv).
  eapply view_subtrees; [apply forest_root_path| |]; eassumption.
Qed.

Lemma forest_ordered : siblings_ordered f.
Proof.
  split.
  - eapply sorted_siblings; [|exact Hroots]. apply root_ids_NoDup, ND.
  - intros t Ht. now apply is_view_sorted, forest_subtrees_view.
Qed.
End Forest.

(** [buildSectionsTree] returns the forest of the index of its rows. *)
Lemma buildSectionsTree_forest_of rows :
  buildSectionsTree rows = forest_of (index_rows rows).
Proof.
  unfold buildSectionsTree, forest_of.
  pose proof (index_rows_wf rows) as Wf.
  destruct (sortNodes_roots Wf) as (C' & -> & HC').
  cbn [obind byId roots]. apply mapM_ext_in. intros r Hr.
  apply view_below; [exact Wf|]. intros j Hj. apply (HC' r); [|assumption].
  apply sort_ids_In in Hr. apply In_root_ids in Hr; [assumption | apply Wf].
Qed.

Lemma buildSectionsTree_total rows : exists f, buildSectionsTree rows = Some f.
Proof.
  rewrite buildSectionsTree_forest_of. apply forest_of_total, index_rows_wf.
Qed.

(** ** Cycles *)

Lemma ancestor_trans m a b c : ancestor m a b -> ancestor m b c -> ancestor m a c.
Proof.
  intros Hab Hbc. induction Hbc as [b c Hp|b p c Hp H IH].
  - eapply ancestor_up; eassumption.
  - eapply ancestor_up; [eassumption | now apply IH].
Qed.

(** Along a chain of links every node reaches the end of the chain, and
    every later node of the chain. *)
Lemma links_reach m l c last :
  links m (c :: l) last ->
  ancestor m last c /\
  forall d, In d l -> ancestor m d c /\ ancestor m last d.
Proof.
  revert c. induction l as [|d l IH]; intros c H.
  - split; [now constructor | intros d []].
  - destruct H as [Hcd H]. destruct (IH d H) as (Hlast & Hl).
    assert (ancestor m d c) as Hdc by now constructor.
    split; [eapply ancestor_trans; eassumption|].
    intros e [<-|He]; [auto|].
    destruct (Hl e He) as (Hed & Hle).
    split; [eapply ancestor_trans; eassumption | assumption].
Qed.

(** Every node of a cycle is its own ancestor. *)
Lemma parent_cycle_ancestor m cyc c :
  parent_cycle m cyc -> In c cyc -> ancestor m c c.
Proof.
  destruct cyc as [|c0 l]; [intros []|]. unfold parent_cycle.
  intros H Hc. destruct (@links_reach m l c0 c0 H) as (H0 & Hl).
  destruct Hc as [<-|Hc]; [assumption|].
  destruct (Hl c Hc) as (H1 & H2). eapply ancestor_trans; eassumption.
Qed.

(** ** The order of the rows does not matter *)

Section RowOrder.
Variables m m' : jsmap.
Hypothesis Wf : wf_index m.
Hypothesis Wf' : wf_index m'.
Hypothesis Same : same_objects m m'.

Lemma same_has k : map_has k m = map_has k m'.
Proof. unfold map_has. now rewrite Same. Qed.

Lemma same_compareRefs a b : compareRefs m a b = compareRefs m' a b.
Proof. unfold compareRefs, order_of. now rewrite !Same. Qed.

Lemma same_parent_in c p : parent_in m c p <-> parent_in m' c p.
Proof. unfold parent_in. rewrite same_has, (Same c). reflexivity. Qed.

Lemma same_root_in c : root_in m c <-> root_in m' c.
Proof.
  unfold root_in, is_root_b. split; intros (o & Ho & Hr); exists o;
    (split; [congruence|]);
    destruct (Obj.parentId o) as [p|]; auto;
    [rewrite <- same_has | rewrite same_has]; assumption.
Qed.

Lemma same_sort_ids l l' :
  NoDup l -> NoDup l' -> (forall x, In x l <-> In x l') ->
  sort_ids m l = sort_ids m' l'.
Proof.
  intros Hl Hl' Hin. unfold sort_ids.
  rewrite (sort_ext_in (compareRefs m) (compareRefs m'))
    by (intros; apply same_compareRefs).
  apply sort_perm_eq.
  - apply compareRefs_total.
  - apply compareRefs_trans.
  - apply compareRefs_antisym.
  - now apply NoDup_Permutation.
Qed.

Lemma same_sorted_children k : sorted_children m k = sorted_children m' k.
Proof.
  apply same_sort_ids.
  - apply child_ids_NoDup, Wf.
  - apply child_ids_NoDup, Wf'.
  - intros c. rewrite !In_child_ids by (apply Wf || apply Wf').
    apply same_parent_in.
Qed.

Lemma same_roots : sort_ids m (root_ids m) = sort_ids m' (root_ids m').
Proof.
  apply same_sort_ids.
  - apply root_ids_NoDup, Wf.
  - apply root_ids_NoDup, Wf'.
  - intros c. rewrite !In_root_ids by (apply Wf || apply Wf').
    apply same_root_in.
Qed.

Lemma same_view fuel k :
  view fuel (sorted_store m) k = view fuel (sorted_store m') k.
Proof.
  revert k. induction fuel as [|fuel IH]; intros k; [reflexivity|].
  cbn [view]. unfold sorted_store. rewrite !with_children_get, Same.
  destruct (map_get k m') as [o|]; [|reflexivity].
  cbn [option_map obind set_children Obj.children].
  rewrite same_sorted_children.
  rewrite (mapM_ext_in _ (view fuel (with_children m' (sorted_children m'))))
    by (intros; apply IH).
  reflexivity.
Qed.

Lemma same_length : List.length m = List.length m'.
Proof.
  rewrite <- (length_map fst m), <- (length_map fst m').
  apply Permutation_length, NoDup_Permutation; [apply Wf | apply Wf' |].
  intros k. fold (map_keys m) (map_keys m').
  rewrite <- !map_has_keys, same_has. reflexivity.
Qed.

Lemma same_forest : forest_of m = forest_of m'.
Proof.
  unfold forest_of. rewrite same_roots, same_length.
  apply mapM_ext_in. intros; apply same_view.
Qed.
End RowOrder.

Lemma index_rows_same rows rows' :
  NoDup (map Row.id rows) -> Permutation rows rows' ->
  same_objects (index_rows rows) (index_rows rows').
Proof.
  intros ND P k.
  assert (NoDup (map Row.id rows')) as ND'
    by (eapply Permutation_NoDup; [apply Permutation_map; exact P | exact ND]).
  destruct (map_get k (index_rows rows)) as [o|] eqn:E.
  - destruct (index_rows_origin _ _ E) as (r & Hr & <- & ->).
    symmetry. apply index_rows_get; [assumption|].
    eapply Permutation_in; eassumption.
  - destruct (map_get k (index_rows rows')) as [o|] eqn:E'; [|reflexivity].
    destruct (index_rows_origin _ _ E') as (r & Hr & <- & ->).
    rewrite index_rows_get in E; [discriminate | assumption |].
    eapply Permutation_in; [symmetry|]; eassumption.
Qed.

(** With distinct ids the forest depends on the set of rows only. *)
Lemma buildSectionsTree_row_order rows rows' :
  NoDup (map Row.id rows) -> Permutation rows rows' ->
  buildSectionsTree rows' = buildSectionsTree rows.
Proof.
  intros ND P. rewrite !buildSectionsTree_forest_of. symmetry.
  apply same_forest; try apply index_rows_wf. now apply index_rows_same.
Qed.

(** * The claims on buildSectionsTree *)

(** C1.  For every flat record set, the output of [buildSectionsTree] is a
    forest: a node reachable from the roots appears exactly once (the ids
    read in pre-order have no repetition), no node is listed as a child of
    two parents, and no node is among its own descendants. *)
Theorem buildSectionsTree_is_forest (rows : list Row.t) :
  exists forest,
    buildSectionsTree rows = Some forest /\
    NoDup (forest_ids forest) /\
    (forall p1 p2 c1 c2,
        In p1 (forest_subtrees forest) -> In p2 (forest_subtrees forest) ->
        In c1 (Node.children p1) -> In c2 (Node.children p2) ->
        Node.id c1 = Node.id c2 -> p1 = p2) /\
    (forall t, In t (forest_subtrees forest) ->
               ~ In (Node.id t) (descendant_ids t)).
Proof.
  pose proof (index_rows_wf rows) as Wf.
  destruct (buildSectionsTree_total rows) as [forest H].
  exists forest. split; [assumption|].
  rewrite buildSectionsTree_forest_of in H.
  split; [eapply forest_NoDup; eassumption|]. split.
  - intros p1 p2 c1 c2 H1 H2 Hc1 Hc2 E.
    apply (forest_subtrees_view Wf H) in H1, H2.
    assert (parent_in (index_rows rows) (Node.id c1) (Node.id p1)) as P1
      by (eapply is_view_child; eassumption).
    assert (parent_in (index_rows rows) (Node.id c2) (Node.id p2)) as P2
      by (eapply is_view_child; eassumption).
    rewrite E in P1. eapply is_view_id_eq; try eassumption.
    eapply parent_in_fun; eassumption.
  - intros t Ht Hin. apply (forest_subtrees_view Wf H) in Ht.
    assert (NoDup (tree_ids t)) as Hnd by (eapply is_view_NoDup; eassumption).
    destruct t as [i n p o a cs]. simpl in *.
    inversion Hnd. contradiction.
Qed.

(** C4.  In the built forest every group of siblings, the roots included,
    is in ascending [orderIndex], ties broken by ascending [id].  The order
    is total (two nodes are ordered one way or the other unless they agree
    on both keys) and strict along every group.  A repeated call on the
    same input returns the same forest, and with distinct ids so does a call
    on the same rows in any other order. *)
Theorem buildSectionsTree_sibling_order (rows : list Row.t) :
  exists forest,
    buildSectionsTree rows = Some forest /\
    siblings_ordered forest /\
    (forall a b,
        sibling_lt a b \/ sibling_lt b a \/
        (Node.orderIndex a = Node.orderIndex b /\ Node.id a = Node.id b)) /\
    (forall forest', buildSectionsTree rows = Some forest' -> forest' = forest) /\
    (forall rows',
        NoDup (map Row.id rows) -> Permutation rows rows' ->
        buildSectionsTree rows' = Some forest).
Proof.
  destruct (buildSectionsTree_total rows) as [forest H].
  exists forest. split; [assumption|]. split; [|split; [|split]].
  - rewrite buildSectionsTree_forest_of in H.
    eapply forest_ordered; [apply index_rows_wf | eassumption].
  - intros a b. unfold sibling_lt. lia.
  - intros forest' H'. congruence.
  - intros rows' ND P. rewrite <- H. now apply buildSectionsTree_row_order.
Qed.

(** C6.  [buildSectionsTree] fails on no input, and an indexed node whose
    [parentId] is null or is not a key of the index is one of the roots of
    the forest; with distinct ids this holds for every row. *)
Theorem buildSectionsTree_orphans_are_roots (rows : list Row.t) :
  exists forest,
    buildSectionsTree rows = Some forest /\
    (forall k o,
        map_get k (index_rows rows) = Some o ->
        Obj.parentId o = None \/
        (exists p, Obj.parentId o = Some p /\ map_has p (index_rows rows) = false) ->
        In k (map Node.id forest)) /\
    (NoDup (map Row.id rows) ->
     forall r,
        In r rows ->
        Row.parent_id r = None \/
        (exists p, Row.parent_id r = Some p /\ ~ In p (map Row.id rows)) ->
        In (Row.id r) (map Node.id forest)).
Proof.
  pose proof (index_rows_wf rows) as Wf.
  destruct (buildSectionsTree_total rows) as [forest H].
  exists forest. split; [assumption|].
  rewrite buildSectionsTree_forest_of in H.
  assert (forall k o,
             map_get k (index_rows rows) = Some o ->
             Obj.parentId o = None \/
             (exists p, Obj.parentId o = Some p /\
                        map_has p (index_rows rows) = false) ->
             In k (map Node.id forest)) as Hroot.
  { intros k o Ho Hp. apply (forest_roots Wf H). exists o. split; [assumption|].
    unfold is_root_b. destruct Hp as [-> | (p & -> & ->)]; reflexivity. }
  split; [exact Hroot|].
  intros ND r Hr Hp. apply (Hroot _ (node_of_row r)).
  - now apply index_rows_get.
  - simpl. destruct Hp as [Hp | (p & Hp & Hn)]; [now left|].
    right. exists p. split; [assumption|].
    destruct (map_has p (index_rows rows)) eqn:E; [|reflexivity].
    apply map_has_keys, index_rows_keys in E. contradiction.
Qed.

(** C10.  When the rows hold a cycle of parent links (each node of the cycle
    is indexed and names the next one as parent), [buildSectionsTree] still
    returns a forest, and no node of the cycle is in it: none is a root and
    none is below a root. *)
Theorem buildSectionsTree_drops_cycles (rows : list Row.t) (cyc : list Z) :
  parent_cycle (index_rows rows) cyc ->
  exists forest,
    buildSectionsTree rows = Some forest /\
    forall c, In c cyc ->
      ~ In c (map Node.id forest) /\ ~ In c (forest_ids forest).
Proof.
  intros Hcyc.
  pose proof (index_rows_wf rows) as Wf.
  destruct (buildSectionsTree_total rows) as [forest H].
  exists forest. split; [assumption|].
  rewrite buildSectionsTree_forest_of in H.
  intros c Hc.
  assert (~ In c (forest_ids forest)) as Hn.
  { intros Hin. apply (forest_ids_path Wf H) in Hin as [pc Hpc].
    eapply cycle_no_path; [|eassumption].
    eapply parent_cycle_ancestor; eassumption. }
  split; [|assumption].
  intros Hin. apply Hn. apply (forest_ids_path Wf H).
  apply (forest_roots Wf H) in Hin. exists [c]. now constructor.
Qed.

Lemma buildSectionsTree_drops_cycles_witness :
  exists forest,
    buildSectionsTree cycle_rows = Some forest /\
    forall c, In c [1; 2] ->
      ~ In c (map Node.id forest) /\ ~ In c (forest_ids forest).
Proof.
  apply (buildSectionsTree_drops_cycles cycle_rows [1; 2]).
  simpl. split.
  - exists (node_of_row (row 1 "a" (Some 2) 0 1)). repeat split.
  - exists (node_of_row (row 2 "b" (Some 1) 0 1)). repeat split.
Defined.

(** * The tree route *)

Lemma select_sections_In cond db r :
  In r (select_sections cond db) <-> In r db /\ cond r = true.
Proof. unfold select_sections. rewrite sort_In. apply filter_In. Qed.

Lemma NoDup_map_filter {A B} (f : A -> B) (g : A -> bool) l :
  NoDup (map f l) -> NoDup (map f (filter g l)).
Proof.
  induction l as [|a l IH]; simpl; intros ND; [constructor|].
  inversion ND as [|? ? Hn ND']; subst.
  destruct (g a); simpl; [|now apply IH].
  constructor; [|now apply IH].
  intros H. apply Hn. apply in_map_iff in H as (a' & E & H).
  apply filter_In in H as [H _]. rewrite <- E. now apply in_map.
Qed.

Lemma select_sections_NoDup cond db :
  NoDup (map Row.id db) -> NoDup (map Row.id (select_sections cond db)).
Proof.
  intros ND. unfold select_sections.
  eapply Permutation_NoDup.
  - apply Permutation_map. symmetry. apply sort_perm.
  - now apply NoDup_map_filter.
Qed.

Lemma NoDup_ids_inj (db : table) r r' :
  NoDup (map Row.id db) -> In r db -> In r' db -> Row.id r = Row.id r' -> r = r'.
Proof.
  induction db as [|a db IH]; simpl; intros ND Hr Hr' E; [contradiction|].
  inversion ND as [|? ? Hn ND']; subst.
  destruct Hr as [->|Hr], Hr' as [->|Hr']; auto.
  - exfalso. apply Hn. rewrite E. now apply in_map.
  - exfalso. apply Hn. rewrite <- E. now apply in_map.
Qed.

Lemma tree_rows_In inc db r :
  In r (tree_rows inc db) <-> In r db /\ (inc = true \/ active r = true).
Proof.
  unfold tree_rows. rewrite select_sections_In.
  destruct inc, (active r); simpl; intuition discriminate.
Qed.

Section Filtering.
Variable db : table.
Hypothesis ids_distinct : NoDup (map Row.id db).

Let mT : jsmap := index_rows (tree_rows true db).
Let mF : jsmap := index_rows (tree_rows false db).

Lemma filtered_get r :
  In r db -> active r = true -> map_get (Row.id r) mF = Some (node_of_row r).
Proof.
  intros Hr Ha. apply index_rows_get.
  - now apply select_sections_NoDup.
  - apply tree_rows_In. auto.
Qed.

Lemma unfiltered_get r :
  In r db -> map_get (Row.id r) mT = Some (node_of_row r).
Proof.
  intros Hr. apply index_rows_get.
  - now apply select_sections_NoDup.
  - apply tree_rows_In. auto.
Qed.

(** A key of the filtered index is the id of an active row, and only of
    that row. *)
Lemma filtered_key k :
  In k (map_keys mF) -> exists r, In r db /\ active r = true /\ Row.id r = k.
Proof.
  intros Hk. apply index_rows_keys, in_map_iff in Hk as (r & E & Hr).
  apply tree_rows_In in Hr as (Hr & [Hf|Ha]); [discriminate|]. eauto.
Qed.

Lemma filtered_sub k o : map_get k mF = Some o -> map_get k mT = Some o.
Proof.
  intros H. destruct (index_rows_origin _ _ H) as (r & Hr & <- & ->).
  apply tree_rows_In in Hr as (Hr & _). now apply unfiltered_get.
Qed.

Lemma filtered_has p : map_has p mF = true -> map_has p mT = true.
Proof.
  unfold map_has. destruct (map_get p mF) as [o|] eqn:E; [|discriminate].
  now rewrite (filtered_sub _ E).
Qed.

(** A node with a path to a root in the whole index keeps one when the
    inactive rows are left out, if it is kept itself. *)
Lemma filtered_path k pk :
  path mT k pk -> In k (map_keys mF) -> exists pk', path mF k pk'.
Proof.
  induction 1 as [c (o & Ho & Hr)|c p l (o & Ho & Hp & Hm) H IH]; intros Hk;
    destruct (keys_map_get _ _ Hk) as [o' Ho'];
    pose proof (filtered_sub _ Ho') as E; rewrite Ho in E; injection E as <-.
  - exists [c]. constructor. exists o. split; [assumption|].
    unfold is_root_b in *. destruct (Obj.parentId o) as [p|]; [|reflexivity].
    destruct (map_has p mF) eqn:Ep; [|reflexivity].
    apply filtered_has in Ep. fold mT in Hr. now rewrite Ep in Hr.
  - destruct (map_has p mF) eqn:Ep.
    + destruct IH as [l' Hl']; [now apply map_has_keys|].
      exists (c :: l'). econstructor; [|eassumption]. exists o. auto.
    + exists [c]. constructor. exists o. split; [assumption|].
      unfold is_root_b. now rewrite Hp, Ep.
Qed.
End Filtering.

(** C2.  Over a table with distinct ids, leaving the inactive rows out
    removes no active node from the tree (an active node of the tree built
    from all rows is in the tree built from the active rows), and an active
    node whose declared parent is an inactive row is a root of the tree
    built from the active rows. *)
Theorem excluding_inactive_keeps_active (db : table) :
  NoDup (map Row.id db) ->
  exists all_nodes active_nodes,
    buildTree true db = Some all_nodes /\
    buildTree false db = Some active_nodes /\
    (forall r, In r db -> active r = true ->
               In (Row.id r) (forest_ids all_nodes) ->
               In (Row.id r) (forest_ids active_nodes)) /\
    (forall r q, In r db -> active r = true ->
                 In q db -> active q = false ->
                 Row.parent_id r = Some (Row.id q) ->
                 In (Row.id r) (map Node.id active_nodes)).
Proof.
  intros ND. unfold buildTree.
  destruct (buildSectionsTree_total (tree_rows true db)) as [fT HT].
  destruct (buildSectionsTree_total (tree_rows false db)) as [fF HF].
  exists fT, fF. split; [assumption|]. split; [assumption|].
  rewrite buildSectionsTree_forest_of in HT, HF.
  pose proof (index_rows_wf (tree_rows true db)) as WT.
  pose proof (index_rows_wf (tree_rows false db)) as WF.
  split.
  - intros r Hr Ha Hin.
    apply (forest_ids_path WT HT) in Hin as [pk Hpk].
    apply (forest_ids_path WF HF).
    eapply filtered_path; [eassumption | eassumption |].
    eapply map_get_keys. now apply filtered_get.
  - intros r q Hr Ha Hq Hqa Hp.
    apply (forest_roots WF HF). exists (node_of_row r).
    split; [now apply filtered_get|].
    unfold is_root_b. simpl. rewrite Hp.
    destruct (map_has (Row.id q) (index_rows (tree_rows false db))) eqn:E;
      [|reflexivity].
    apply map_has_keys, filtered_key in E as (q' & Hq' & Hqa' & E).
    assert (q' = q) as -> by (eapply NoDup_ids_inj; eassumption).
    congruence.
Qed.

Lemma excluding_inactive_keeps_active_witness :
  exists all_nodes active_nodes,
    buildTree true
      [ row 1 "Grammar" None 0 0; row 2 "Tenses" (Some 1) 0 1 ] = Some all_nodes /\
    buildTree false
      [ row 1 "Grammar" None 0 0; row 2 "Tenses" (Some 1) 0 1 ] = Some active_nodes /\
    (forall r, In r [ row 1 "Grammar" None 0 0; row 2 "Tenses" (Some 1) 0 1 ] ->
               active r = true ->
               In (Row.id r) (forest_ids all_nodes) ->
               In (Row.id r) (forest_ids active_nodes)) /\
    (forall r q,
        In r [ row 1 "Grammar" None 0 0; row 2 "Tenses" (Some 1) 0 1 ] ->
        active r = true ->
        In q [ row 1 "Grammar" None 0 0; row 2 "Tenses" (Some 1) 0 1 ] ->
        active q = false ->
        Row.parent_id r = Some (Row.id q) ->
        In (Row.id r) (map Node.id active_nodes)).
Proof.
  apply (excluding_inactive_keeps_active
           [ row 1 "Grammar" None 0 0; row 2 "Tenses" (Some 1) 0 1 ]).
  simpl. repeat constructor; simpl; intuition discriminate.
Defined.

Example orphan_is_promoted :
  buildTree false [ row 1 "Grammar" None 0 0; row 2 "Tenses" (Some 1) 0 1 ] =
  Some [ leaf 2 "Tenses" (Some 1) 0 true ].
Proof. reflexivity. Qed.

(** * Visibility of inactive sections *)

Lemma includeInactive_true role q :
  includeInactive role q = true <-> role = "teacher" /\ q = JStr "1".
Proof.
  unfold includeInactive. rewrite andb_true_iff, String.eqb_eq.
  split; intros [H1 H2]; split; auto.
  - destruct q; simpl in H2; try discriminate.
    apply String.eqb_eq in H2. now subst.
  - subst. reflexivity.
Qed.

Lemma includeInactive_learner role q :
  role <> "teacher" -> includeInactive role q = false.
Proof.
  intros H. destruct (includeInactive role q) eqn:E; [|reflexivity].
  apply includeInactive_true in E as [E _]. contradiction.
Qed.

Lemma active_Boolean r : active r = true -> Boolean (Row.is_active r) = true.
Proof. unfold active, Boolean. intros H. apply Z.eqb_eq in H. now rewrite H. Qed.

Lemma filter_andb {A} (f g : A -> bool) l :
  filter (fun a => f a && g a) l = filter g (filter f l).
Proof.
  induction l as [|a l IH]; simpl; [reflexivity|].
  destruct (f a); simpl; [|exact IH].
  destruct (g a); now rewrite IH.
Qed.

(** What a request without the flag reads depends on the active rows
    only. *)
Lemma select_active_only cond db :
  select_sections (fun r => (false || active r) && cond r) db =
  sort compareRows (filter cond (filter active db)).
Proof.
  unfold select_sections. rewrite <- filter_andb. reflexivity.
Qed.

Lemma tree_rows_active_only db :
  tree_rows false db = sort compareRows (filter active db).
Proof. reflexivity. Qed.

(** Every node of the tree built from the active rows is the node of an
    active row. *)
Lemma active_tree_nodes db forest t :
  buildTree false db = Some forest -> In t (forest_subtrees forest) ->
  Node.isActive t = true /\
  exists r, In r db /\ active r = true /\ Row.id r = Node.id t.
Proof.
  unfold buildTree. rewrite buildSectionsTree_forest_of. intros H Ht.
  pose proof (index_rows_wf (tree_rows false db)) as Wf.
  destruct (forest_subtrees_view Wf H _ Ht) as (fuel & k & pk & Hk & Hv).
  destruct (view_fields Wf _ _ Hv) as (Hid & _ & o & Ho & Et).
  destruct (index_rows_origin _ _ Ho) as (r & Hr & Ek & ->).
  apply tree_rows_In in Hr as (Hr & [Hf|Ha]); [discriminate|].
  split.
  - rewrite Et. simpl. now apply active_Boolean.
  - exists r. rewrite Hid. auto.
Qed.

(** The flag is off unless the role is teacher and the query asks. *)
Lemma includeInactive_off role q :
  ~ (role = "teacher" /\ q = JStr "1") -> includeInactive role q = false.
Proof.
  intros H. destruct (includeInactive role q) eqn:E; [|reflexivity].
  apply includeInactive_true in E. contradiction.
Qed.

(** The tree built from all rows of a table with distinct ids: every row
    without a parent is a root, every row whose parent is in the tree is in
    the tree, and a node shows the activity of its row. *)
Lemma full_tree_nodes (db : table) :
  NoDup (map Row.id db) ->
  exists forest,
    buildTree true db = Some forest /\
    (forall r, In r db -> Row.parent_id r = None ->
               In (Row.id r) (map Node.id forest)) /\
    (forall r p, In r db -> Row.parent_id r = Some p ->
                 In p (forest_ids forest) -> In (Row.id r) (forest_ids forest)) /\
    (forall r t, In r db -> In t (forest_subtrees forest) ->
                 Node.id t = Row.id r ->
                 Node.isActive t = Boolean (Row.is_active r)).
Proof.
  intros ND. unfold buildTree.
  destruct (buildSectionsTree_total (tree_rows true db)) as [f Hf].
  exists f. split; [assumption|].
  rewrite buildSectionsTree_forest_of in Hf.
  pose proof (index_rows_wf (tree_rows true db)) as Wf.
  split; [|split].
  - intros r Hr Hp. apply (forest_roots Wf Hf). exists (node_of_row r).
    split; [now apply unfiltered_get|].
    unfold is_root_b. simpl. now rewrite Hp.
  - intros r p Hr Hp Hin.
    apply (forest_ids_path Wf Hf) in Hin as [pk Hpk].
    apply (forest_ids_path Wf Hf). exists (Row.id r :: pk).
    apply path_child with (p := p); [|assumption].
    exists (node_of_row r). split; [now apply unfiltered_get|].
    split; [exact Hp|].
    destruct (path_head Hpk) as [l ->].
    apply map_has_keys. apply (path_keys Hpk). now left.
  - intros r t Hr Ht Hid.
    destruct (forest_subtrees_view Wf Hf _ Ht) as (fuel & k & pk & Hk & Hv).
    destruct (view_fields Wf _ _ Hv) as (Hk' & _ & o & Ho & Et).
    rewrite <- Hk', Hid, (@unfiltered_get db ND r Hr) in Ho.
    injection Ho as <-. rewrite Et. reflexivity.
Qed.

(** C8.  Unless the user is a teacher whose query has [include_inactive]
    "1" — so for every user who is not a teacher, whatever they send, and
    for a teacher who does not ask —, every node of the tree answer and
    every item of the child-list answer is an active section, and both
    answers are the same on any two tables with the same active rows.  A
    teacher who asks is served the inactive sections too: every row,
    active or not, is an item of the child list of its parent, and over
    distinct ids the tree holds every row without a parent as a root,
    every row whose parent is in the tree, and shows each with the
    activity of its row. *)
Theorem learner_never_sees_inactive
    (role : string) (include_inactive parent_id : jsvalue) (db : table) :
  ~ (role = "teacher" /\ include_inactive = JStr "1") ->
  (exists forest, get_sections_tree role include_inactive db = Json forest) /\
  (forall forest t,
      get_sections_tree role include_inactive db = Json forest ->
      In t (forest_subtrees forest) ->
      Node.isActive t = true /\
      exists r, In r db /\ active r = true /\ Row.id r = Node.id t) /\
  (forall items it,
      get_sections role include_inactive parent_id db = Json items ->
      In it items ->
      Item.isActive it = true /\
      exists r, In r db /\ active r = true /\ it = item_of_row r) /\
  (forall db',
      filter active db' = filter active db ->
      get_sections_tree role include_inactive db' =
        get_sections_tree role include_inactive db /\
      get_sections role include_inactive parent_id db' =
        get_sections role include_inactive parent_id db) /\
  (forall role' flag,
      includeInactive role' flag = true <-> role' = "teacher" /\ flag = JStr "1") /\
  (forall r, In r db -> In r (tree_rows (includeInactive "teacher" (JStr "1")) db)) /\
  (forall r parent,
      In r db ->
      parseNullableParentId parent =
        match Row.parent_id r with Some p => PId p | None => PNull end ->
      exists items,
        get_sections "teacher" (JStr "1") parent db = Json items /\
        In (item_of_row r) items) /\
  (NoDup (map Row.id db) ->
   exists forest,
     get_sections_tree "teacher" (JStr "1") db = Json forest /\
     (forall r, In r db -> Row.parent_id r = None ->
                In (Row.id r) (map Node.id forest)) /\
     (forall r p, In r db -> Row.parent_id r = Some p ->
                  In p (forest_ids forest) -> In (Row.id r) (forest_ids forest)) /\
     (forall r t, In r db -> In t (forest_subtrees forest) ->
                  Node.id t = Row.id r ->
                  Node.isActive t = Boolean (Row.is_active r))).
Proof.
  intros Hrole.
  pose proof (includeInactive_off Hrole) as Hinc.
  split; [|split; [|split; [|split; [|split; [|split]]]]].
  - unfold get_sections_tree, buildTree. rewrite Hinc.
    destruct (buildSectionsTree_total (tree_rows false db)) as [f ->]. eauto.
  - intros forest t H Ht. unfold get_sections_tree in H. rewrite Hinc in H.
    destruct (buildTree false db) as [f|] eqn:E; [|discriminate].
    injection H as <-. eapply active_tree_nodes; eassumption.
  - intros items it H Hit. unfold get_sections in H. rewrite Hinc in H.
    assert (items =
            map item_of_row
              (select_sections
                 (fun r => (false || active r) &&
                           parent_matches (parseNullableParentId parent_id) r) db))
      as ->.
    { destruct (parseNullableParentId parent_id), parent_id;
        first [discriminate | now injection H]. }
    apply in_map_iff in Hit as (r & <- & Hr).
    apply select_sections_In in Hr as (Hr & Hc).
    apply andb_prop in Hc as [Ha _]. simpl in Ha.
    split; [simpl; now apply active_Boolean | eauto].
  - intros db' E. unfold get_sections_tree, get_sections, buildTree.
    rewrite Hinc, !tree_rows_active_only, !select_active_only, E. auto.
  - apply includeInactive_true.
  - intros r Hr. apply tree_rows_In. auto.
  - split.
    + intros r parent Hr Hparse. unfold get_sections.
      change (includeInactive "teacher" (JStr "1")) with true. cbv zeta.
      rewrite Hparse.
      assert (In (item_of_row r)
                (map item_of_row
                   (select_sections
                      (fun r0 => (true || active r0) &&
                         parent_matches
                           (match Row.parent_id r with Some p => PId p | None => PNull end)
                           r0) db))) as Hin.
      { apply in_map. apply select_sections_In. split; [assumption|].
        cbn [orb andb]. unfold parent_matches.
        destruct (Row.parent_id r) as [p|]; [apply Z.eqb_refl | reflexivity]. }
      destruct (Row.parent_id r) as [p|]; [eauto|].
      destruct parent; eauto.
    + intros ND. destruct (@full_tree_nodes db ND) as (forest & Hf & H1 & H2 & H3).
      exists forest. split; [|auto].
      unfold get_sections_tree.
      change (includeInactive "teacher" (JStr "1")) with true. now rewrite Hf.
Qed.

Lemma learner_never_sees_inactive_witness :
  (exists forest, get_sections_tree "student" (JStr "1") scenario_rows = Json forest) /\
  (forall forest t,
      get_sections_tree "student" (JStr "1") scenario_rows = Json forest ->
      In t (forest_subtrees forest) ->
      Node.isActive t = true /\
      exists r, In r scenario_rows /\ active r = true /\ Row.id r = Node.id t) /\
  (forall items it,
      get_sections "student" (JStr "1") JUndefined scenario_rows = Json items ->
      In it items ->
      Item.isActive it = true /\
      exists r, In r scenario_rows /\ active r = true /\ it = item_of_row r) /\
  (forall db',
      filter active db' = filter active scenario_rows ->
      get_sections_tree "student" (JStr "1") db' =
        get_sections_tree "student" (JStr "1") scenario_rows /\
      get_sections "student" (JStr "1") JUndefined db' =
        get_sections "student" (JStr "1") JUndefined scenario_rows) /\
  (forall role' flag,
      includeInactive role' flag = true <-> role' = "teacher" /\ flag = JStr "1") /\
  (forall r, In r scenario_rows ->
             In r (tree_rows (includeInactive "teacher" (JStr "1")) scenario_rows)) /\
  (forall r parent,
      In r scenario_rows ->
      parseNullableParentId parent =
        match Row.parent_id r with Some p => PId p | None => PNull end ->
      exists items,
        get_sections "teacher" (JStr "1") parent scenario_rows = Json items /\
        In (item_of_row r) items) /\
  (NoDup (map Row.id scenario_rows) ->
   exists forest,
     get_sections_tree "teacher" (JStr "1") scenario_rows = Json forest /\
     (forall r, In r scenario_rows -> Row.parent_id r = None ->
                In (Row.id r) (map Node.id forest)) /\
     (forall r p, In r scenario_rows -> Row.parent_id r = Some p ->
                  In p (forest_ids forest) -> In (Row.id r) (forest_ids forest)) /\
     (forall r t, In r scenario_rows -> In t (forest_subtrees forest) ->
                  Node.id t = Row.id r ->
                  Node.isActive t = Boolean (Row.is_active r))).
Proof.
  apply (learner_never_sees_inactive (role := "student")).
  intros [H _]. discriminate.
Defined.

Example teacher_sees_inactive :
  get_sections "teacher" (JStr "1") JUndefined scenario_rows =
  Json [ Item.mk 1 "Grammar" None 0 true; Item.mk 3 "Vocabulary" None 1 false ] /\
  get_sections "student" (JStr "1") JUndefined scenario_rows =
  Json [ Item.mk 1 "Grammar" None 0 true ] /\
  get_sections "teacher" JUndefined JUndefined scenario_rows =
  Json [ Item.mk 1 "Grammar" None 0 true ].
Proof. repeat split. Qed.

(** * Soft delete *)

Lemma sql_update_ids updates id db :
  (forall r a, Row.id (assign r a) = Row.id r) ->
  map Row.id (sql_update updates id db) = map Row.id db.
Proof.
  intros Hid. unfold sql_update. rewrite map_map. apply map_ext.
  intros r. destruct (Row.id r =? id); [|reflexivity].
  revert r. induction updates as [|a us IH]; intros r; simpl; [reflexivity|].
  rewrite IH. apply Hid.
Qed.

Lemma assign_id r a : Row.id (assign r a) = Row.id r.
Proof. destruct a; reflexivity. Qed.

Lemma sql_update_other updates id db r :
  In r db -> Row.id r <> id -> In r (sql_update updates id db).
Proof.
  intros Hr Hn. unfold sql_update. apply in_map_iff. exists r.
  split; [|assumption]. apply Z.eqb_neq in Hn. now rewrite Hn.
Qed.

Lemma changes_pos id db :
  changes id db <> O -> exists r, In r db /\ Row.id r = id.
Proof.
  unfold changes. induction db as [|r db IH]; simpl; [congruence|].
  destruct (Row.id r =? id) eqn:E.
  - apply Z.eqb_eq in E. eauto.
  - intros H. destruct (IH H) as (r' & Hr' & E'). eauto.
Qed.

(** C9.  DELETE /api/sections/:id removes no row: the table keeps its ids
    in place; every row is left as it was, except the addressed one, of
    which only [is_active] (set to 0) and [updated_at] change.  Rows with
    another id, the children of the addressed section among them, are
    untouched, so the deactivation does not cascade.  When the answer is
    [ok] the addressed section exists and is inactive afterwards.  And the
    deactivation happens: a teacher's DELETE of the id of a section is
    answered [ok], and the table afterwards is the table before with the
    rows of that id deactivated at the time of the request and every other
    row as it was. *)
Theorem delete_section_only_deactivates
    (role id now : string) (db : table) :
  map Row.id (fst (delete_section role id now db)) = map Row.id db /\
  Forall2
    (fun r r' =>
       r' = r \/
       (r' = deactivated now r /\ role = "teacher" /\
        parseInt (JStr id) = Some (Row.id r)))
    db (fst (delete_section role id now db)) /\
  (forall c, In c db -> parseInt (JStr id) <> Some (Row.id c) ->
             In c (fst (delete_section role id now db))) /\
  (snd (delete_section role id now db) = ok ->
   exists r, In r db /\ parseInt (JStr id) = Some (Row.id r) /\
             In (deactivated now r) (fst (delete_section role id now db))) /\
  (role = "teacher" ->
   forall r, In r db -> parseInt (JStr id) = Some (Row.id r) ->
     snd (delete_section role id now db) = ok /\
     In (deactivated now r) (fst (delete_section role id now db)) /\
     fst (delete_section role id now db) =
       map (fun r0 => if Row.id r0 =? Row.id r then deactivated now r0 else r0) db).
Proof.
  unfold delete_section.
  destruct (String.eqb role "teacher") eqn:Hrole; simpl negb; cbv iota.
  2:{ apply String.eqb_neq in Hrole. simpl. repeat split; auto.
      - induction db; constructor; auto.
      - discriminate.
      - contradiction.
      - contradiction.
      - contradiction. }
  apply String.eqb_eq in Hrole.
  destruct (parseInt (JStr id)) as [sectionId|] eqn:Hid.
  2:{ simpl. repeat split; auto.
      - induction db; constructor; auto.
      - discriminate.
      - discriminate.
      - discriminate.
      - discriminate. }
  assert (forall (b : bool) (e : reply),
             fst (if b then (sql_update [SetIsActive 0; SetUpdatedAt now] sectionId db, e)
                  else (sql_update [SetIsActive 0; SetUpdatedAt now] sectionId db, ok)) =
             sql_update [SetIsActive 0; SetUpdatedAt now] sectionId db) as Hfst
    by (intros [] e; reflexivity).
  rewrite Hfst. split; [|split; [|split; [|split]]].
  - apply sql_update_ids, assign_id.
  - unfold sql_update. clear Hfst. induction db as [|r db IH]; simpl; constructor; auto.
    destruct (Row.id r =? sectionId) eqn:E; [|now left].
    apply Z.eqb_eq in E. right. repeat split; [assumption | congruence].
  - intros c Hc Hn. apply sql_update_other; [assumption | congruence].
  - destruct (changes sectionId db =? 0)%nat eqn:E; simpl; [discriminate|].
    intros _. apply Nat.eqb_neq in E.
    destruct (changes_pos _ _ E) as (r & Hr & <-).
    exists r. split; [assumption|]. split; [reflexivity|].
    unfold sql_update. apply in_map_iff. exists r. split; [|assumption].
    now rewrite Z.eqb_refl.
  - intros _ r Hr [= ->]. split; [|split].
    + assert (changes (Row.id r) db <> O) as Hc.
      { unfold changes. clear Hfst. induction db as [|r0 db IH]; [contradiction|].
        simpl. destruct Hr as [->|Hr].
        - rewrite Z.eqb_refl. discriminate.
        - destruct (Row.id r0 =? Row.id r); [discriminate | now apply IH]. }
      apply Nat.eqb_neq in Hc. now rewrite Hc.
    + unfold sql_update. apply in_map_iff. exists r. split; [|assumption].
      now rewrite Z.eqb_refl.
    + unfold sql_update. apply map_ext. intros r0.
      destruct (Row.id r0 =? Row.id r); reflexivity.
Qed.

Example delete_keeps_children :
  delete_section "teacher" "1" "now" two_sections =
  ([ Row.mk 1 "Grammar" None 0 0 "" "now"; row 2 "Tenses" (Some 1) 0 1 ], ok).
Proof. reflexivity. Qed.

(** * Updates and the parent relation *)

Lemma fold_assign_id us r : Row.id (fold_left assign us r) = Row.id r.
Proof.
  revert r. induction us as [|a us IH]; intros r; simpl; [reflexivity|].
  rewrite IH. apply assign_id.
Qed.

Lemma fold_assign_parent us r :
  Row.parent_id (fold_left assign us r) = Row.parent_id r \/
  In (SetParentId (Row.parent_id (fold_left assign us r))) us.
Proof.
  revert r. induction us as [|a us IH]; intros r; simpl; [now left|].
  destruct (IH (assign r a)) as [E|H]; [|now right; right].
  rewrite E. destruct a; simpl; auto.
Qed.

Lemma section_exists_ids p (db db' : table) :
  map Row.id db' = map Row.id db -> section_exists p db' = section_exists p db.
Proof.
  revert db'. induction db as [|r db IH]; intros [|r' db'] E; try discriminate;
    [reflexivity|].
  simpl in *. injection E as E1 E2. rewrite E1. f_equal. now apply IH.
Qed.

Lemma Forall_snoc {A} (P : A -> Prop) l a : Forall P l -> P a -> Forall P (l ++ [a]).
Proof. intros Hl Ha. apply Forall_app. split; [assumption | now constructor]. Qed.

Section Patch.
Variable sectionId : Z.
Variable db : table.
Variable body : patch_body.

Lemma patch_name_guarded us us' :
  patch_name body us = inr us' ->
  Forall (guarded sectionId db) us -> Forall (guarded sectionId db) us'.
Proof.
  unfold patch_name. intros H Hus.
  destruct (body_name body) as [| |b|z|s];
    [injection H as <-; assumption | | | |];
    match type of H with
    | (if ?c then _ else _) = _ => destruct c
    end; try discriminate;
    injection H as <-; (apply Forall_snoc; [assumption | exact I]).
Qed.

Lemma patch_parent_guarded us us' :
  patch_parent sectionId db body us = inr us' ->
  Forall (guarded sectionId db) us -> Forall (guarded sectionId db) us'.
Proof.
  unfold patch_parent. intros H Hus.
  assert (
    match parseNullableParentId (body_parent_id body) with
    | PUndefined => inl (Error 400 "Invalid parent_id")
    | PNull => inr (us ++ [SetParentId None])
    | PId parentId =>
        if parentId =? sectionId
        then inl (Error 400 "Section cannot be parent of itself")
        else if section_exists parentId db
             then inr (us ++ [SetParentId (Some parentId)])
             else inl (Error 400 "Parent section not found")
    end = (inr us' : reply + list assignment) ->
    Forall (guarded sectionId db) us') as Hcase.
  { destruct (parseNullableParentId (body_parent_id body)) as [| |p];
      [discriminate | |].
    - intros [= <-]. apply Forall_snoc; [assumption | exact I].
    - destruct (p =? sectionId) eqn:E; [discriminate|].
      destruct (section_exists p db) eqn:Ex; [|discriminate].
      intros [= <-]. apply Forall_snoc; [assumption|].
      apply Z.eqb_neq in E. split; assumption. }
  destruct (body_parent_id body); auto.
  injection H as <-. assumption.
Qed.

Lemma patch_order_guarded us us' :
  patch_order body us = inr us' ->
  Forall (guarded sectionId db) us -> Forall (guarded sectionId db) us'.
Proof.
  unfold patch_order. intros H Hus.
  destruct (body_order_index body) as [| |b|z|s]; cbn [parseInt] in H.
  - injection H as <-. assumption.
  - discriminate.
  - discriminate.
  - injection H as <-. apply Forall_snoc; [assumption | exact I].
  - destruct (parseInt_string s); [|discriminate].
    injection H as <-. apply Forall_snoc; [assumption | exact I].
Qed.

Lemma patch_active_guarded us us' :
  patch_active body us = inr us' ->
  Forall (guarded sectionId db) us -> Forall (guarded sectionId db) us'.
Proof.
  unfold patch_active. intros H Hus.
  destruct (body_is_active body); injection H as <-;
    first [assumption | apply Forall_snoc; [assumption | exact I]].
Qed.

(** The four blocks of the handler build guarded assignments only. *)
Lemma patch_updates_guarded us :
  andthen (andthen (andthen (patch_name body [])
                      (patch_parent sectionId db body))
             (patch_order body))
    (patch_active body) = inr us ->
  Forall (guarded sectionId db) us.
Proof.
  destruct (patch_name body []) as [e|u1] eqn:E1; [discriminate|].
  cbn [andthen].
  destruct (patch_parent sectionId db body u1) as [e|u2] eqn:E2; [discriminate|].
  cbn [andthen].
  destruct (patch_order body u2) as [e|u3] eqn:E3; [discriminate|].
  cbn [andthen]. intros E4.
  eapply patch_active_guarded; [exact E4|].
  eapply patch_order_guarded; [exact E3|].
  eapply patch_parent_guarded; [exact E2|].
  eapply patch_name_guarded; [exact E1|]. constructor.
Qed.

(** A request that names the section itself as parent is answered by an
    error in the parent block, whatever the other fields hold. *)
Lemma patch_parent_self us :
  parseNullableParentId (body_parent_id body) = PId sectionId ->
  patch_parent sectionId db body us =
  inl (Error 400 "Section cannot be parent of itself").
Proof.
  unfold patch_parent. intros H.
  destruct (body_parent_id body); try discriminate;
    rewrite H, Z.eqb_refl; reflexivity.
Qed.

Lemma patch_name_error us e :
  patch_name body us = inl e -> e = Error 400 "Section name cannot be empty".
Proof.
  unfold patch_name. intros H.
  destruct (body_name body) as [| |b|z|s]; [discriminate | | | |];
    match type of H with
    | (if ?c then _ else _) = _ => destruct c
    end; try discriminate; now injection H as <-.
Qed.

(** A guarded update of the section keeps the parent links sound. *)
Lemma sql_update_resolves us :
  Forall (guarded sectionId db) us ->
  parents_resolve db -> parents_resolve (sql_update us sectionId db).
Proof.
  intros Hus Hdb r' Hr'.
  assert (map Row.id (sql_update us sectionId db) = map Row.id db) as Hids
    by apply sql_update_ids, assign_id.
  unfold sql_update in Hr'. apply in_map_iff in Hr' as (r & <- & Hr).
  destruct (Hdb r Hr) as (Hself & Hex).
  destruct (Row.id r =? sectionId) eqn:E.
  - apply Z.eqb_eq in E. rewrite fold_assign_id.
    destruct (fold_assign_parent us r) as [-> | Hin].
    + split; [assumption|]. intros p Hp.
      rewrite (@section_exists_ids p _ _ Hids). now apply Hex.
    + rewrite Forall_forall in Hus. specialize (Hus _ Hin).
      destruct (Row.parent_id (fold_left assign us r)) as [p|];
        [|split; [discriminate | intros p; discriminate]].
      destruct Hus as [Hne Hp]. split; [congruence|].
      intros q [= <-]. now rewrite (@section_exists_ids p _ _ Hids).
  - split; [assumption|]. intros p Hp.
    rewrite (@section_exists_ids p _ _ Hids). now apply Hex.
Qed.
End Patch.

(** C7 as the specification states it fails: a request accepted by the
    PATCH route turns a forest into a cycle of two sections. *)
Lemma patch_section_closes_cycle :
  parent_forest two_sections /\
  snd (patch_section "teacher" "1" (reparent_to 2) "now" two_sections) = ok /\
  ~ parent_forest
      (fst (patch_section "teacher" "1" (reparent_to 2) "now" two_sections)).
Proof.
  split; [|split; [reflexivity|]].
  - intros r [<-|[<-|[]]].
    + exists [1]. split; [|repeat constructor; intros []].
      apply (@chain_root two_sections (row 1 "Grammar" None 0 1));
        [now left | reflexivity].
    + exists [2; 1]. split.
      * apply (@chain_up two_sections (row 2 "Tenses" (Some 1) 0 1) 1 [1]);
          [right; now left | reflexivity |].
        apply (@chain_root two_sections (row 1 "Grammar" None 0 1));
          [now left | reflexivity].
      * repeat constructor; simpl; intuition discriminate.
  - intros H.
    assert (forall k l,
               chain (fst (patch_section "teacher" "1" (reparent_to 2) "now"
                             two_sections)) k l ->
               k = 1 \/ k = 2 -> False) as Hno.
    { induction 1 as [r Hr Hp|r p l Hr Hp Hc IH]; intros Hk.
      - destruct Hr as [<-|[<-|[]]]; discriminate.
      - apply IH. destruct Hr as [<-|[<-|[]]]; injection Hp as <-; auto. }
    destruct (H (Row.mk 1 "Grammar" (Some 2) 0 1 "" "now")) as (l & Hl & _);
      [now left|].
    eapply Hno; [exact Hl | now left].
Qed.

Lemma patch_section_self_parent role id body now db sectionId :
  parseInt (JStr id) = Some sectionId ->
  parseNullableParentId (body_parent_id body) = PId sectionId ->
  (exists status error,
      snd (patch_section role id body now db) = Error status error) /\
  fst (patch_section role id body now db) = db.
Proof.
  intros Hid Hself. unfold patch_section. rewrite Hid.
  destruct (negb (String.eqb role "teacher")); [simpl; eauto|].
  destruct (negb (section_exists sectionId db)); [simpl; eauto|].
  destruct (patch_name body []) as [e|u1] eqn:E1; cbn [andthen].
  - apply patch_name_error in E1 as ->. simpl. eauto.
  - rewrite (patch_parent_self db body u1 Hself). simpl. eauto.
Qed.

Lemma patch_section_effect role id body now db :
  parents_resolve db ->
  parents_resolve (fst (patch_section role id body now db)) /\
  map Row.id (fst (patch_section role id body now db)) = map Row.id db /\
  (forall r, In r db -> parseInt (JStr id) <> Some (Row.id r) ->
             In r (fst (patch_section role id body now db))).
Proof.
  intros Hdb. unfold patch_section.
  destruct (negb (String.eqb role "teacher")); [simpl; auto|].
  destruct (parseInt (JStr id)) as [sectionId|] eqn:Hid; [|simpl; auto].
  destruct (negb (section_exists sectionId db)); [simpl; auto|].
  destruct (andthen (andthen (andthen (patch_name body [])
                                (patch_parent sectionId db body))
                       (patch_order body))
              (patch_active body)) as [e|us] eqn:E; [simpl; auto|].
  pose proof (patch_updates_guarded _ _ _ E) as G.
  destruct us as [|a us]; [simpl; auto|].
  cbn [fst]. split; [|split].
  - apply sql_update_resolves; [|assumption].
    apply Forall_snoc; [assumption | exact I].
  - apply sql_update_ids, assign_id.
  - intros r Hr Hn. apply sql_update_other; [assumption | congruence].
Qed.

(** C7, as the code has it.  The PATCH route answers a request that names
    the section itself as parent with an error and leaves the table as it
    is.  Every request keeps the ids of the table, leaves the rows with
    another id untouched, and keeps the two properties the route guards:
    no section is its own parent, and every parent link names a section of
    the table.  (Cycles through two or more sections are not looked for.) *)
Theorem patch_section_guards
    (role id : string) (body : patch_body) (now : string) (db : table) :
  parents_resolve db ->
  (forall sectionId,
      parseInt (JStr id) = Some sectionId ->
      parseNullableParentId (body_parent_id body) = PId sectionId ->
      (exists status error,
          snd (patch_section role id body now db) = Error status error) /\
      fst (patch_section role id body now db) = db) /\
  parents_resolve (fst (patch_section role id body now db)) /\
  map Row.id (fst (patch_section role id body now db)) = map Row.id db /\
  (forall r, In r db -> parseInt (JStr id) <> Some (Row.id r) ->
             In r (fst (patch_section role id body now db))).
Proof.
  intros Hdb. split; [|now apply patch_section_effect].
  intros sectionId Hid Hself. eapply patch_section_self_parent; eassumption.
Qed.

Lemma patch_section_guards_witness :
  (forall sectionId,
      parseInt (JStr "1") = Some sectionId ->
      parseNullableParentId (body_parent_id (reparent_to 1)) = PId sectionId ->
      (exists status error,
          snd (patch_section "teacher" "1" (reparent_to 1) "now" two_sections) =
          Error status error) /\
      fst (patch_section "teacher" "1" (reparent_to 1) "now" two_sections) =
      two_sections) /\
  parents_resolve
    (fst (patch_section "teacher" "1" (reparent_to 1) "now" two_sections)) /\
  map Row.id
    (fst (patch_section "teacher" "1" (reparent_to 1) "now" two_sections)) =
  map Row.id two_sections /\
  (forall r, In r two_sections -> parseInt (JStr "1") <> Some (Row.id r) ->
             In r (fst (patch_section "teacher" "1" (reparent_to 1) "now"
                          two_sections))).
Proof.
  apply (patch_section_guards "teacher" "1" (reparent_to 1) "now" (db := two_sections)).
  intros r [<-|[<-|[]]]; simpl; (split; [discriminate|]).
  - intros p; discriminate.
  - intros p [= <-]. reflexivity.
Defined.

Example patch_rejects_self_parent :
  patch_section "teacher" "1" (reparent_to 1) "now" two_sections =
  (two_sections, Error 400 "Section cannot be parent of itself").
Proof. reflexivity. Qed.

(** * flattenSections *)

(** Induction on trees, with the hypothesis for every child. *)
Lemma Node_forall_ind (P : Node.t -> Prop) :
  (forall i n p o a cs, Forall P cs -> P (Node.mk i n p o a cs)) ->
  forall t, P t.
Proof.
  intros H. fix IH 1. intros [i n p o a cs]. apply H.
  induction cs as [|c cs IHcs]; constructor; [apply IH | exact IHcs].
Qed.

(** The loop over the children is the recursive call one level deeper. *)
Lemma flatten_node_unfold depth result node :
  flatten_node depth result node =
  flattenSections (Node.children node) (S depth) (result ++ [entry depth node]).
Proof. destruct node; reflexivity. Qed.

Lemma flatten_node_preorder node :
  forall depth result,
    flatten_node depth result node = result ++ preorder depth node.
Proof.
  induction node as [i n p o a cs IH] using Node_forall_ind.
  intros depth result. rewrite flatten_node_unfold.
  cbn [Node.children preorder]. unfold flattenSections.
  generalize (entry depth (Node.mk i n p o a cs)). intros e.
  change (result ++ e :: flat_map (preorder (S depth)) cs)
    with (result ++ [e] ++ flat_map (preorder (S depth)) cs).
  rewrite app_assoc. generalize (result ++ [e]). clear result e.
  induction IH as [|c cs Hc _ IHcs]; intros acc; simpl.
  - now rewrite app_nil_r.
  - rewrite Hc, IHcs, <- app_assoc. reflexivity.
Qed.

Lemma flattenSections_append nodes depth result :
  flattenSections nodes depth result = result ++ preorder_forest depth nodes.
Proof.
  unfold flattenSections, preorder_forest. revert result.
  induction nodes as [|t nodes IH]; intros result; simpl.
  - now rewrite app_nil_r.
  - rewrite flatten_node_preorder, IH, <- app_assoc. reflexivity.
Qed.

Lemma length_append (s1 s2 : string) :
  String.length (s1 ++ s2) = (String.length s1 + String.length s2)%nat.
Proof. induction s1 as [|c s1 IH]; simpl; [reflexivity | now rewrite IH]. Qed.

Lemma repeat_string_length s n :
  String.length (repeat_string s n) = (n * String.length s)%nat.
Proof.
  induction n as [|n IH]; simpl; [reflexivity|].
  now rewrite length_append, IH.
Qed.

(** C3 as the specification states it fails: the entries have no [depth]
    property. *)
Lemma flatten_entries_have_no_depth :
  exists e,
    In e (flattenSections [leaf 1 "Grammar" None 0 true] 0 []) /\
    get_prop e "depth" = JUndefined /\
    map fst e = ["id"; "name"; "isActive"].
Proof.
  exists (entry 0 (leaf 1 "Grammar" None 0 true)).
  split; [now left | split; reflexivity].
Qed.

(** C3, as the code has it.  [flattenSections] returns the pre-order
    traversal of the forest (each node before its children, children in
    their order) as entries with the three properties [id], [name] and
    [isActive]: [id] and [isActive] are the ones of the node, for an
    inactive node as well, and [name] is the name of the node after two
    spaces per level of depth.  The depth is not a property of the entry. *)
Theorem flattenSections_preorder (nodes : list Node.t) :
  flattenSections nodes 0 [] = preorder_forest 0 nodes /\
  (forall depth node,
      map fst (entry depth node) = ["id"; "name"; "isActive"] /\
      get_prop (entry depth node) "id" = JNum (Node.id node) /\
      get_prop (entry depth node) "name" =
        JStr (repeat_string "  " depth ++ Node.name node) /\
      get_prop (entry depth node) "isActive" = JBool (Node.isActive node) /\
      get_prop (entry depth node) "depth" = JUndefined /\
      String.length (repeat_string "  " depth) = (2 * depth)%nat).
Proof.
  split; [apply flattenSections_append|].
  intros depth node. repeat split.
  rewrite repeat_string_length. simpl. lia.
Qed.

(** C5.  [flattenSections] of the empty forest is empty; of a single root
    without children it is the one entry of that root, made at depth 0, whose
    name is the name of the root as it is; and in general the entry of a node
    made at some depth is followed by the entries of its children made one
    level deeper, then by the entries of its next siblings made at the depth
    of the node itself.  The depth at which the entry of a node is made can
    be read off the entry. *)
Theorem flattenSections_depth :
  flattenSections [] 0 [] = [] /\
  (forall i n p o a,
      flattenSections [Node.mk i n p o a []] 0 [] =
        [entry 0 (Node.mk i n p o a [])] /\
      get_prop (entry 0 (Node.mk i n p o a [])) "name" = JStr n) /\
  (forall node rest depth,
      flattenSections (node :: rest) depth [] =
        entry depth node ::
        flattenSections (Node.children node) (S depth) [] ++
        flattenSections rest depth []) /\
  (forall node depth depth', entry depth node = entry depth' node -> depth = depth').
Proof.
  split; [reflexivity|]. split; [intros; split; reflexivity|]. split.
  - intros node rest depth. rewrite !flattenSections_append.
    destruct node. reflexivity.
  - intros node depth depth' E.
    apply (f_equal (fun e => get_prop e "name")) in E. simpl in E.
    injection E as E. apply (f_equal String.length) in E.
    rewrite !length_append, !repeat_string_length in E. simpl in E. lia.
Qed.

(** * Further properties of the tree *)

(** The ids of the entries of a traversal are the ids of the nodes, in
    pre-order. *)
Lemma preorder_ids t :
  forall depth,
    map (fun e => get_prop e "id") (preorder depth t) = map JNum (tree_ids t).
Proof.
  induction t as [i n p o a cs IH] using Node_forall_ind. intros depth.
  cbn [preorder tree_ids Node.children Node.id map]. f_equal.
  induction IH as [|c cs Hc _ IHcs]; [reflexivity|].
  cbn [flat_map]. rewrite !map_app, Hc, IHcs. reflexivity.
Qed.

Lemma preorder_forest_ids f depth :
  map (fun e => get_prop e "id") (preorder_forest depth f) =
  map JNum (forest_ids f).
Proof.
  unfold preorder_forest, forest_ids.
  induction f as [|t f IH]; [reflexivity|].
  cbn [flat_map]. rewrite !map_app, preorder_ids, IH. reflexivity.
Qed.

Lemma NoDup_map_inj {A B} (f : A -> B) l :
  (forall x y, f x = f y -> x = y) -> NoDup l -> NoDup (map f l).
Proof.
  intros Hf. induction 1 as [|a l Hn ND IH]; simpl; constructor; [|assumption].
  intros H. apply in_map_iff in H as (b & E & Hb).
  apply Hf in E. subst. contradiction.
Qed.

Section Levels.
Variable m : jsmap.
Hypothesis Wf : wf_index m.

(** An entry of the traversal of a tree read at a node is made at the level
    given by the number of ancestors of its node. *)
Lemma view_preorder_levels fuel k pk t :
  path m k pk -> view fuel (sorted_store m) k = Some t ->
  forall e, In e (preorder (pred (List.length pk)) t) ->
  exists t' pk',
    In t' (subtrees t) /\ path m (Node.id t') pk' /\
    e = entry (pred (List.length pk')) t'.
Proof.
  revert k pk t. induction fuel as [|fuel IH]; intros k pk t Hk H e He;
    [discriminate|].
  destruct (view_fields Wf _ _ H) as (Hid & _).
  apply view_inv in H as (o & ts & Ho & Hts & ->).
  cbn [preorder Node.children] in He. destruct He as [<-|He].
  - exists (node_of o ts), pk. split; [now left|].
    split; [now rewrite Hid | reflexivity].
  - apply in_flat_map in He as (c' & Hc' & He).
    destruct (Forall2_In_r _ Hts Hc') as (c & Hc & Hv).
    assert (path m c (c :: pk)) as Hpc by (eapply child_path; eassumption).
    destruct (path_head Hk) as [l ->].
    destruct (IH c (c :: k :: l) c' Hpc Hv e He) as (t' & pk' & Ht' & Hp' & ->).
    exists t', pk'. split; [|auto].
    right. apply in_flat_map. exists c'. split; assumption.
Qed.
End Levels.

(** X1.  A section is in the forest exactly when the chain of resolved
    parent links that starts at it ends at a node whose [parentId] is null
    or no key of the index; the roots are exactly those end nodes.  The
    forest never has more nodes than there are rows, and when every indexed
    node has such a chain, each of them is in the forest exactly once. *)
Theorem buildSectionsTree_membership (rows : list Row.t) :
  exists forest,
    buildSectionsTree rows = Some forest /\
    (forall k, In k (forest_ids forest) <-> exists pk, path (index_rows rows) k pk) /\
    (forall k, In k (map Node.id forest) <-> root_in (index_rows rows) k) /\
    (List.length (forest_ids forest) <= List.length rows)%nat /\
    ((forall k, In k (map_keys (index_rows rows)) ->
                exists pk, path (index_rows rows) k pk) ->
     Permutation (forest_ids forest) (map_keys (index_rows rows))).
Proof.
  pose proof (index_rows_wf rows) as Wf.
  destruct (buildSectionsTree_total rows) as [forest H].
  exists forest. split; [assumption|].
  rewrite buildSectionsTree_forest_of in H.
  assert (forall k, In k (forest_ids forest) -> In k (map_keys (index_rows rows)))
    as Hsub.
  { intros k Hk. apply (forest_ids_path Wf H) in Hk as [pk Hpk].
    destruct (path_head Hpk) as [l ->]. apply (path_keys Hpk). now left. }
  split; [apply (forest_ids_path Wf H)|].
  split; [apply (forest_roots Wf H)|]. split.
  - transitivity (List.length (map_keys (index_rows rows))).
    + apply NoDup_incl_length; [eapply forest_NoDup; eassumption | exact Hsub].
    + unfold map_keys. rewrite length_map.
      clear. induction rows as [|r rows IH] using rev_ind; [simpl; lia|].
      rewrite index_rows_snoc, length_app. simpl.
      assert (forall k v (m : jsmap),
                 (List.length (map_set k v m) <= S (List.length m))%nat) as Hs.
      { intros k v m. induction m as [|[k0 v0] m IHm]; simpl; [lia|].
        destruct (k =? k0); simpl; lia. }
      specialize (Hs (Row.id r) (node_of_row r) (index_rows rows)). lia.
  - intros Hall. apply NoDup_Permutation.
    + eapply forest_NoDup; eassumption.
    + apply Wf.
    + intros k. split; [apply Hsub|].
      intros Hk. apply (forest_ids_path Wf H). now apply Hall.
Qed.

(** X2.  With distinct ids every node of the forest carries the fields of
    the row with its id, and its children are exactly the rows that name it
    as parent: each child has the node as [parentId], and each row whose
    [parent_id] is the id of the node is among the children. *)
Theorem buildSectionsTree_nodes_are_rows (rows : list Row.t) :
  NoDup (map Row.id rows) ->
  exists forest,
    buildSectionsTree rows = Some forest /\
    forall t, In t (forest_subtrees forest) ->
      (exists r, In r rows /\ t = node_of (node_of_row r) (Node.children t)) /\
      (forall c, In c (Node.children t) -> Node.parentId c = Some (Node.id t)) /\
      (forall r, In r rows -> Row.parent_id r = Some (Node.id t) ->
                 In (Row.id r) (map Node.id (Node.children t))).
Proof.
  intros ND.
  pose proof (index_rows_wf rows) as Wf.
  destruct (buildSectionsTree_total rows) as [forest H].
  exists forest. split; [assumption|].
  rewrite buildSectionsTree_forest_of in H.
  intros t Ht.
  pose proof (forest_subtrees_view Wf H _ Ht) as Hview.
  destruct Hview as (fuel & k & pk & Hk & Hv).
  destruct (view_fields Wf _ _ Hv) as (Hid & _ & o & Ho & Et).
  split; [|split].
  - destruct (index_rows_origin _ _ Ho) as (r & Hr & _ & ->). eauto.
  - intros c Hc.
    assert (parent_in (index_rows rows) (Node.id c) (Node.id t)) as (oc & Hoc & Hp & _).
    { eapply is_view_child; [exact Wf | | exact Hc]. exists fuel, k, pk. auto. }
    destruct fuel as [|fuel]; [discriminate|].
    apply view_inv in Hv as (o' & ts & _ & Hts & ->). simpl in Hc.
    destruct (Forall2_In_r _ Hts Hc) as (j & _ & Hj).
    destruct (view_fields Wf _ _ Hj) as (Hidc & _ & oc' & Hoc' & ->).
    simpl in *. subst j. congruence.
  - intros r Hr Hp. rewrite Hid in Hp.
    assert (In (Row.id r) (sorted_children (index_rows rows) k)) as Hin.
    { apply sort_ids_In. apply In_child_ids; [apply Wf|].
      exists (node_of_row r). split; [now apply index_rows_get|].
      split; [exact Hp|]. unfold map_has. now rewrite Ho. }
    destruct fuel as [|fuel]; [discriminate|].
    apply view_inv in Hv as (o' & ts & _ & Hts & ->). simpl.
    destruct (Forall2_In_l _ Hts Hin) as (c & Hc & Hvc).
    destruct (view_fields Wf _ _ Hvc) as (Hidc & _).
    rewrite <- Hidc. now apply in_map.
Qed.

Lemma buildSectionsTree_nodes_are_rows_witness :
  exists forest,
    buildSectionsTree scenario_rows = Some forest /\
    forall t, In t (forest_subtrees forest) ->
      (exists r, In r scenario_rows /\
                 t = node_of (node_of_row r) (Node.children t)) /\
      (forall c, In c (Node.children t) -> Node.parentId c = Some (Node.id t)) /\
      (forall r, In r scenario_rows -> Row.parent_id r = Some (Node.id t) ->
                 In (Row.id r) (map Node.id (Node.children t))).
Proof.
  apply (buildSectionsTree_nodes_are_rows scenario_rows).
  simpl. repeat constructor; simpl; intuition discriminate.
Defined.

(** X3.  The teacher's list of sections, [flattenSections] of the built
    forest, has one entry per node of the forest, in pre-order and without
    repetition, and the entry of a section is indented by two spaces for
    each of its ancestors. *)
Theorem flattenSections_of_built_tree (rows : list Row.t) :
  exists forest,
    buildSectionsTree rows = Some forest /\
    map (fun e => get_prop e "id") (flattenSections forest 0 []) =
      map JNum (forest_ids forest) /\
    NoDup (map (fun e => get_prop e "id") (flattenSections forest 0 [])) /\
    forall e, In e (flattenSections forest 0 []) ->
      exists t pk,
        In t (forest_subtrees forest) /\
        path (index_rows rows) (Node.id t) pk /\
        e = entry (pred (List.length pk)) t /\
        get_prop e "name" =
          JStr (repeat_string "  " (pred (List.length pk)) ++ Node.name t).
Proof.
  pose proof (index_rows_wf rows) as Wf.
  destruct (buildSectionsTree_total rows) as [forest H].
  exists forest. split; [assumption|].
  rewrite buildSectionsTree_forest_of in H.
  rewrite flattenSections_append. cbn [app].
  split; [apply preorder_forest_ids|]. split.
  - rewrite preorder_forest_ids. apply NoDup_map_inj.
    + intros x y E. now injection E.
    + eapply forest_NoDup; eassumption.
  - intros e He. unfold preorder_forest in He.
    apply in_flat_map in He as (t0 & Ht0 & He).
    pose proof (proj1 (mapM_Forall2 _ _ _) H) as Hroots.
    destruct (Forall2_In_r _ Hroots Ht0) as (r & Hr & Hv).
    assert (path (index_rows rows) r [r]) as Hpr
      by (eapply forest_root_path; [exact Wf | exact Hr]).
    destruct (view_preorder_levels Wf _ Hpr Hv e He) as (t & pk & Ht & Hp & ->).
    exists t, pk. split; [|auto].
    unfold forest_subtrees. apply in_flat_map. eauto.
Qed.

(** * The child list and the tree *)

Lemma insert_map_in {A B} (f : A -> B) (cA : A -> A -> Z) (cB : B -> B -> Z) x l :
  (forall b, In b l -> cB (f x) (f b) = cA x b) ->
  insert cB (f x) (map f l) = map f (insert cA x l).
Proof.
  induction l as [|y l IH]; intros H; simpl; [reflexivity|].
  rewrite (H y (or_introl eq_refl)).
  destruct (cA x y <=? 0); simpl; [reflexivity|].
  rewrite IH; [reflexivity|]. intros; apply H; now right.
Qed.

Lemma sort_map_in {A B} (f : A -> B) (cA : A -> A -> Z) (cB : B -> B -> Z) l :
  (forall a b, In a l -> In b l -> cB (f a) (f b) = cA a b) ->
  sort cB (map f l) = map f (sort cA l).
Proof.
  induction l as [|x l IH]; intros H; simpl; [reflexivity|].
  rewrite IH by (intros; apply H; now right).
  apply insert_map_in. intros b Hb. apply sort_In in Hb.
  apply H; [now left | now right].
Qed.

Lemma compareRows_total a b : compareRows a b <= 0 \/ compareRows b a <= 0.
Proof.
  unfold compareRows.
  destruct (Row.order_index a - Row.order_index b =? 0) eqn:E1;
    destruct (Row.order_index b - Row.order_index a =? 0) eqn:E2; lia.
Qed.

Lemma compareRows_trans a b c :
  compareRows a b <= 0 -> compareRows b c <= 0 -> compareRows a c <= 0.
Proof.
  unfold compareRows.
  destruct (Row.order_index a - Row.order_index b =? 0) eqn:E1;
    destruct (Row.order_index b - Row.order_index c =? 0) eqn:E2;
    destruct (Row.order_index a - Row.order_index c =? 0) eqn:E3; lia.
Qed.

Section ListAndTree.
Variable db : table.
Hypothesis ids_distinct : NoDup (map Row.id db).
Variable inc : bool.

Let rowsI : list Row.t := tree_rows inc db.
Let m : jsmap := index_rows rowsI.

Lemma tree_rows_get r :
  In r db -> (inc || active r) = true ->
  map_get (Row.id r) m = Some (node_of_row r).
Proof.
  intros Hr Hc. apply index_rows_get.
  - now apply select_sections_NoDup.
  - apply select_sections_In. auto.
Qed.

Lemma tree_rows_origin k o :
  map_get k m = Some o ->
  exists r, In r db /\ (inc || active r) = true /\ Row.id r = k /\ o = node_of_row r.
Proof.
  intros H. destruct (index_rows_origin _ _ H) as (r & Hr & Hk & Ho).
  apply select_sections_In in Hr as (Hr & Hc). eauto.
Qed.

(** The ids of the rows listed for a parent that is in the index are the
    children the tree holds for it, in the same order. *)
Lemma listed_ids_children k :
  map_has k m = true ->
  map Row.id (select_sections (listed inc (PId k)) db) = sorted_children m k.
Proof.
  intros Hk. unfold select_sections, sorted_children, sort_ids.
  rewrite <- (sort_map_in Row.id compareRows (compareRefs m)).
  - apply sort_perm_eq;
      [apply compareRefs_total | apply compareRefs_trans
       | apply compareRefs_antisym |].
    apply NoDup_Permutation.
    + now apply NoDup_map_filter.
    + apply child_ids_NoDup, index_rows_wf.
    + intros c. rewrite In_child_ids by apply index_rows_wf.
      rewrite in_map_iff. split.
      * intros (r & <- & Hr). apply filter_In in Hr as (Hr & Hl).
        unfold listed in Hl. apply andb_prop in Hl as (Hc & Hp).
        exists (node_of_row r). split; [now apply tree_rows_get|].
        split; [|assumption]. simpl. unfold parent_matches in Hp.
        destruct (Row.parent_id r) as [q|]; [|discriminate].
        apply Z.eqb_eq in Hp. now subst.
      * intros (o & Ho & Hp & _).
        destruct (tree_rows_origin _ Ho) as (r & Hr & Hc & <- & ->).
        exists r. split; [reflexivity|]. apply filter_In. split; [assumption|].
        unfold listed, parent_matches. rewrite Hc. simpl in Hp. rewrite Hp.
        simpl. apply Z.eqb_refl.
  - intros a b Ha Hb.
    apply filter_In in Ha as (Ha & Hla). apply filter_In in Hb as (Hb & Hlb).
    unfold listed in Hla, Hlb.
    apply andb_prop in Hla as (Hca & _). apply andb_prop in Hlb as (Hcb & _).
    unfold compareRefs, compareRows, order_of.
    rewrite (tree_rows_get _ Ha Hca), (tree_rows_get _ Hb Hcb). reflexivity.
Qed.

Lemma view_item fuel r t :
  In r db -> (inc || active r) = true ->
  view fuel (sorted_store m) (Row.id r) = Some t ->
  item_of_node t = item_of_row r.
Proof.
  intros Hr Hc Hv.
  destruct (view_fields (index_rows_wf rowsI) _ _ Hv) as (_ & _ & o & Ho & ->).
  fold m in Ho. rewrite (tree_rows_get _ Hr Hc) in Ho. injection Ho as <-.
  reflexivity.
Qed.

Lemma views_items fuel rows ts :
  (forall r, In r rows -> In r db /\ (inc || active r) = true) ->
  Forall2 (fun c t => view fuel (sorted_store m) c = Some t) (map Row.id rows) ts ->
  map item_of_node ts = map item_of_row rows.
Proof.
  revert ts. induction rows as [|r rows IH]; intros ts Hrows H;
    inversion H as [|? t ? ts' Hv Hts]; subst; [reflexivity|].
  simpl. f_equal.
  - destruct (Hrows r (or_introl eq_refl)) as (Hr & Hc).
    eapply view_item; eassumption.
  - apply IH; [|assumption]. intros; apply Hrows; now right.
Qed.

Lemma children_are_listed forest t :
  buildTree inc db = Some forest -> In t (forest_subtrees forest) ->
  map item_of_node (Node.children t) =
  map item_of_row (select_sections (listed inc (PId (Node.id t))) db).
Proof.
  unfold buildTree. rewrite buildSectionsTree_forest_of. fold rowsI m.
  intros H Ht.
  pose proof (index_rows_wf rowsI) as Wf.
  destruct (forest_subtrees_view Wf H _ Ht) as (fuel & k & pk & Hk & Hv).
  destruct (view_fields Wf _ _ Hv) as (Hid & _ & o & Ho & _).
  destruct fuel as [|fuel]; [discriminate|].
  apply view_inv in Hv as (o' & ts & _ & Hts & ->).
  simpl in Hid |- *. subst k.
  assert (map_has (Obj.id o') m = true) as Hhas
    by (unfold map_has; fold m in Ho; now rewrite Ho).
  fold m in Hts. rewrite <- (listed_ids_children _ Hhas) in Hts.
  eapply views_items; [|exact Hts].
  intros r Hr. apply select_sections_In in Hr as (Hr & Hl).
  unfold listed in Hl. apply andb_prop in Hl as (Hc & _). auto.
Qed.
End ListAndTree.

Lemma parseNullableParentId_number z : parseNullableParentId (JNum z) = PId z.
Proof. reflexivity. Qed.

(** X4.  The two read routes agree.  Over a table with distinct ids, for
    the same role and flag: the answer of GET /api/sections for the id of a
    node of the tree of GET /api/sections/tree is the list of children of
    that node, field by field and in the same order. *)
Theorem list_route_agrees_with_tree
    (role : string) (include_inactive : jsvalue) (db : table) :
  NoDup (map Row.id db) ->
  exists forest,
    get_sections_tree role include_inactive db = Json forest /\
    forall t,
      In t (forest_subtrees forest) ->
      get_sections role include_inactive (JNum (Node.id t)) db =
      Json (map item_of_node (Node.children t)).
Proof.
  intros ND. unfold get_sections_tree.
  destruct (buildTree (includeInactive role include_inactive) db) as [f|] eqn:E.
  - exists f. split; [reflexivity|]. intros t Ht.
    unfold get_sections. rewrite parseNullableParentId_number. f_equal.
    symmetry. eapply children_are_listed; eassumption.
  - unfold buildTree in E.
    destruct (buildSectionsTree_total
                (tree_rows (includeInactive role include_inactive) db)) as [f Hf].
    congruence.
Qed.

Lemma list_route_agrees_with_tree_witness :
  exists forest,
    get_sections_tree "teacher" (JStr "1") scenario_rows = Json forest /\
    forall t,
      In t (forest_subtrees forest) ->
      get_sections "teacher" (JStr "1") (JNum (Node.id t)) scenario_rows =
      Json (map item_of_node (Node.children t)).
Proof.
  apply (@list_route_agrees_with_tree "teacher" (JStr "1") scenario_rows).
  simpl. repeat constructor; simpl; intuition discriminate.
Defined.

(** * Further properties of the mutating routes *)

(** ** Fresh ids *)

Lemma fold_max_ge (l : list Z) (a : Z) :
  a <= fold_left Z.max l a /\ forall x, In x l -> x <= fold_left Z.max l a.
Proof.
  revert a. induction l as [|y l IH]; intros a; simpl.
  - split; [lia | intros x []].
  - destruct (IH (Z.max a y)) as (H1 & H2). split; [lia|].
    intros x [->|Hx]; [lia | now apply H2].
Qed.

Lemma lastID_above (db : table) r : In r db -> Row.id r < lastID db.
Proof.
  intros Hr. unfold lastID.
  destruct (fold_max_ge (map Row.id db) 0) as (_ & H).
  specialize (H (Row.id r) (in_map Row.id db r Hr)). lia.
Qed.

Lemma lastID_fresh (db : table) : ~ In (lastID db) (map Row.id db).
Proof.
  intros H. apply in_map_iff in H as (r & E & Hr).
  apply lastID_above in Hr. lia.
Qed.

Lemma section_exists_In id (db : table) :
  section_exists id db = true <-> exists r, In r db /\ Row.id r = id.
Proof.
  unfold section_exists. rewrite existsb_exists.
  split; intros (r & Hr & E); exists r; (split; [assumption|]).
  - now apply Z.eqb_eq.
  - now apply Z.eqb_eq.
Qed.

(** ** Chains of parent links under updates and inserts *)

Lemma chain_ids db k l :
  chain db k l -> forall x, In x l -> exists r, In r db /\ Row.id r = x.
Proof.
  induction 1 as [r Hr Hp|r p l Hr Hp Hc IH]; intros x [<-|Hx]; eauto.
  destruct Hx.
Qed.

Lemma chain_incl db db' k l :
  (forall r, In r db -> In r db') -> chain db k l -> chain db' k l.
Proof.
  intros Hin. induction 1 as [r Hr Hp|r p l Hr Hp Hc IH].
  - apply chain_root; auto.
  - eapply chain_up; eauto.
Qed.

(** An update that keeps ids and parent links keeps every chain. *)
Lemma chain_map (f : Row.t -> Row.t) db k l :
  (forall r, Row.id (f r) = Row.id r) ->
  (forall r, In r db -> Row.parent_id (f r) = Row.parent_id r) ->
  chain db k l -> chain (map f db) k l.
Proof.
  intros Hid Hpar. induction 1 as [r Hr Hp|r p l Hr Hp Hc IH].
  - rewrite <- (Hid r). apply chain_root; [now apply in_map|].
    now rewrite Hpar.
  - rewrite <- (Hid r). eapply chain_up; [now apply in_map | | exact IH].
    now rewrite Hpar.
Qed.

Lemma parent_forest_map (f : Row.t -> Row.t) db :
  (forall r, Row.id (f r) = Row.id r) ->
  (forall r, In r db -> Row.parent_id (f r) = Row.parent_id r) ->
  parent_forest db -> parent_forest (map f db).
Proof.
  intros Hid Hpar H r' Hr'. apply in_map_iff in Hr' as (r & <- & Hr).
  destruct (H r Hr) as (l & Hl & ND). exists l. rewrite Hid.
  split; [now apply chain_map | assumption].
Qed.

(** A new row with a fresh id, without parent or below a section of the
    table, keeps the parent relation a forest. *)
Lemma parent_forest_insert db r :
  ~ In (Row.id r) (map Row.id db) ->
  (Row.parent_id r = None \/
   exists p, Row.parent_id r = Some p /\ section_exists p db = true) ->
  parent_forest db -> parent_forest (db ++ [r]).
Proof.
  intros Hfresh Hp H r' Hr'.
  assert (forall x, In x db -> In x (db ++ [r])) as Hin
    by (intros; apply in_or_app; now left).
  apply in_app_iff in Hr' as [Hr'|[<-|[]]].
  - destruct (H r' Hr') as (l & Hl & ND). exists l.
    split; [eapply chain_incl; eassumption | assumption].
  - destruct Hp as [Hp|(p & Hp & Hex)].
    + exists [Row.id r]. split; [|repeat constructor; intros []].
      apply chain_root; [apply in_or_app; right; now left | assumption].
    + apply section_exists_In in Hex as (q & Hq & <-).
      destruct (H q Hq) as (l & Hl & ND). exists (Row.id r :: l). split.
      * eapply chain_up; [apply in_or_app; right; now left | exact Hp |].
        eapply chain_incl; eassumption.
      * constructor; [|assumption]. intros Hx.
        destruct (chain_ids Hl _ Hx) as (x & Hxin & E).
        apply Hfresh. rewrite <- E. now apply in_map.
Qed.

Lemma sql_update_none updates id db :
  section_exists id db = false -> sql_update updates id db = db.
Proof.
  unfold section_exists, sql_update. intros H.
  rewrite <- (map_id db) at 2. apply map_ext_in. intros r Hr.
  destruct (Row.id r =? id) eqn:E; [|reflexivity].
  assert (existsb (fun r => Row.id r =? id) db = true) as C
    by (apply existsb_exists; eauto).
  congruence.
Qed.

Lemma changes_exists id db :
  (changes id db =? 0)%nat = negb (section_exists id db).
Proof.
  unfold changes, section_exists. induction db as [|r db IH]; simpl; [reflexivity|].
  destruct (Row.id r =? id); simpl; [reflexivity | exact IH].
Qed.

(** ** DELETE *)

(** X6.  DELETE /api/sections/:id answers [ok] exactly when the user is a
    teacher, the id is a number and a section has it.  Otherwise it answers
    with an error and leaves the table as it was: 403 Forbidden to a user
    who is not a teacher, whatever the id; to a teacher, 400 Invalid
    section id for an id that is no number, and 404 Section not found for
    a number that is the id of no section. *)
Theorem delete_section_errors (role id now : string) (db : table) :
  (snd (delete_section role id now db) = ok <->
   role = "teacher" /\
   exists sectionId,
     parseInt (JStr id) = Some sectionId /\ section_exists sectionId db = true) /\
  (snd (delete_section role id now db) <> ok ->
   fst (delete_section role id now db) = db) /\
  (role <> "teacher" ->
   delete_section role id now db = (db, Error 403 "Forbidden")) /\
  (role = "teacher" -> parseInt (JStr id) = None ->
   delete_section role id now db = (db, Error 400 "Invalid section id")) /\
  (role = "teacher" ->
   forall sectionId,
     parseInt (JStr id) = Some sectionId -> section_exists sectionId db = false ->
     delete_section role id now db = (db, Error 404 "Section not found")).
Proof.
  unfold delete_section.
  destruct (String.eqb role "teacher") eqn:Hrole; simpl negb; cbv iota.
  2:{ apply String.eqb_neq in Hrole. simpl. split; [|split; [|split; [|split]]]; auto.
      - split; [discriminate | intros [? _]; contradiction].
      - intros; contradiction.
      - intros; contradiction. }
  apply String.eqb_eq in Hrole.
  destruct (parseInt (JStr id)) as [sectionId|] eqn:Hid.
  2:{ simpl. split; [|split; [|split; [|split]]]; auto.
      - split; [discriminate | intros (_ & s & ? & _); discriminate].
      - intros; contradiction.
      - intros _ s; discriminate. }
  rewrite changes_exists.
  destruct (section_exists sectionId db) eqn:Hex; simpl.
  - split; [|split; [|split; [|split]]].
    + split; [eauto | reflexivity].
    + intros H. now contradiction H.
    + intros; contradiction.
    + intros _ [=].
    + intros _ s [= <-]. congruence.
  - rewrite sql_update_none by assumption. split; [|split; [|split; [|split]]]; auto.
    + split; [discriminate|]. intros (_ & s & [= <-] & H). congruence.
    + intros; contradiction.
    + intros _ [=].
Qed.

Lemma forest_ids_subtrees (f : list Node.t) :
  forest_ids f = map Node.id (forest_subtrees f).
Proof.
  assert (forall t, tree_ids t = map Node.id (subtrees t)) as Ht.
  { induction t as [i n p o a cs IH] using Node_forall_ind.
    cbn [tree_ids subtrees Node.children Node.id map]. f_equal.
    induction IH as [|c cs Hc _ IHcs]; [reflexivity|].
    cbn [flat_map]. now rewrite map_app, Hc, IHcs. }
  unfold forest_ids, forest_subtrees.
  induction f as [|t f IH]; [reflexivity|].
  cbn [flat_map]. now rewrite map_app, Ht, IH.
Qed.

Lemma sql_update_hit updates id db r' :
  In r' (sql_update updates id db) -> Row.id r' = id ->
  exists r, In r db /\ r' = fold_left assign updates r.
Proof.
  unfold sql_update. intros H E. apply in_map_iff in H as (r & <- & Hr).
  destruct (Row.id r =? id) eqn:Eid; [eauto|].
  apply Z.eqb_neq in Eid. contradiction.
Qed.

(** Two indexes whose nodes have the same parents have the same paths. *)
Section SameLinks.
Variables m m' : jsmap.
Hypothesis Links :
  forall k, option_map Obj.parentId (map_get k m) = option_map Obj.parentId (map_get k m').

Lemma links_has k : map_has k m = map_has k m'.
Proof.
  unfold map_has. specialize (Links k).
  destruct (map_get k m), (map_get k m'); try discriminate; reflexivity.
Qed.

Lemma links_get c o :
  map_get c m = Some o ->
  exists o', map_get c m' = Some o' /\ Obj.parentId o' = Obj.parentId o.
Proof.
  intros Ho. specialize (Links c). rewrite Ho in Links.
  destruct (map_get c m') as [o'|]; [|discriminate].
  injection Links as E. eauto.
Qed.

Lemma links_root_in c : root_in m c -> root_in m' c.
Proof.
  intros (o & Ho & Hr). destruct (@links_get c o Ho) as (o' & Ho' & E).
  exists o'. split; [assumption|].
  unfold is_root_b in *. rewrite E.
  destruct (Obj.parentId o); [|reflexivity]. now rewrite <- links_has.
Qed.

Lemma links_parent_in c p : parent_in m c p -> parent_in m' c p.
Proof.
  intros (o & Ho & Hp & Hh). destruct (@links_get c o Ho) as (o' & Ho' & E).
  exists o'. split; [assumption|]. split; [congruence|]. now rewrite <- links_has.
Qed.

Lemma links_path c l : path m c l -> path m' c l.
Proof.
  induction 1 as [c Hr|c p l Hp _ IH].
  - apply path_root. now apply links_root_in.
  - apply path_child with (p := p); [now apply links_parent_in | assumption].
Qed.
End SameLinks.

(** An UPDATE that leaves ids and parents alone leaves the parents of the
    index of all rows alone. *)
Lemma sql_update_links (updates : list assignment) (id : Z) (db : table) :
  NoDup (map Row.id db) ->
  (forall r, Row.parent_id (fold_left assign updates r) = Row.parent_id r) ->
  forall k,
    option_map Obj.parentId (map_get k (index_rows (tree_rows true db))) =
    option_map Obj.parentId
      (map_get k (index_rows (tree_rows true (sql_update updates id db)))).
Proof.
  intros ND Hpar k.
  assert (map Row.id (sql_update updates id db) = map Row.id db) as Hids
    by apply sql_update_ids, assign_id.
  assert (NoDup (map Row.id (sql_update updates id db))) as ND'
    by now rewrite Hids.
  assert (forall r, Row.id (if Row.id r =? id then fold_left assign updates r else r) =
                    Row.id r /\
                    Row.parent_id (if Row.id r =? id then fold_left assign updates r else r) =
                    Row.parent_id r) as Hg.
  { intros r. destruct (Row.id r =? id); [|auto]. split; [apply fold_assign_id | apply Hpar]. }
  destruct (map_get k (index_rows (tree_rows true db))) as [o|] eqn:E.
  - destruct (index_rows_origin _ _ E) as (r & Hr & <- & ->).
    apply tree_rows_In in Hr as [Hr _].
    set (r' := if Row.id r =? id then fold_left assign updates r else r).
    assert (In r' (sql_update updates id db)) as Hr'
      by (unfold sql_update; apply in_map_iff; exists r; auto).
    destruct (Hg r) as [Hi Hp]. fold r' in Hi, Hp.
    rewrite <- Hi, (@unfiltered_get _ ND' r' Hr'). cbn. now rewrite Hp.
  - destruct (map_get k (index_rows (tree_rows true (sql_update updates id db))))
      as [o'|] eqn:E'; [|reflexivity].
    destruct (index_rows_origin _ _ E') as (r' & Hr' & <- & ->).
    apply tree_rows_In in Hr' as [Hr' _].
    unfold sql_update in Hr'. apply in_map_iff in Hr' as (r & <- & Hr).
    destruct (Hg r) as [Hi _]. rewrite Hi, (@unfiltered_get _ ND r Hr) in E.
    discriminate.
Qed.

(** X7.  After a DELETE the section is hidden from every user but a teacher
    who asks for the inactive sections: for a user who is not a teacher,
    and for a teacher whose query has no [include_inactive] "1", it is in
    no tree answer and in no child-list answer, whatever the query holds.
    A teacher who asks still gets it, as inactive: it is an item of the
    child list of its parent, and over distinct ids it is in the tree
    whenever it was there before the DELETE. *)
Theorem deleted_section_is_hidden
    (id now viewer : string) (include_inactive parent_id : jsvalue)
    (db : table) (sectionId : Z) :
  parseInt (JStr id) = Some sectionId ->
  ~ (viewer = "teacher" /\ include_inactive = JStr "1") ->
  (exists forest,
      get_sections_tree viewer include_inactive
        (fst (delete_section "teacher" id now db)) = Json forest /\
      ~ In sectionId (forest_ids forest)) /\
  (forall items,
      get_sections viewer include_inactive parent_id
        (fst (delete_section "teacher" id now db)) = Json items ->
      ~ In sectionId (map Item.id items)) /\
  (forall r parent,
      In r db -> Row.id r = sectionId ->
      parseNullableParentId parent =
        match Row.parent_id r with Some p => PId p | None => PNull end ->
      exists items,
        get_sections "teacher" (JStr "1") parent
          (fst (delete_section "teacher" id now db)) = Json items /\
        In (item_of_row (deactivated now r)) items) /\
  (NoDup (map Row.id db) ->
   forall forest,
     get_sections_tree "teacher" (JStr "1") db = Json forest ->
     In sectionId (forest_ids forest) ->
     exists forest',
       get_sections_tree "teacher" (JStr "1")
         (fst (delete_section "teacher" id now db)) = Json forest' /\
       In sectionId (forest_ids forest') /\
       forall t, In t (forest_subtrees forest') -> Node.id t = sectionId ->
                 Node.isActive t = false).
Proof.
  intros Hid Hviewer.
  assert (fst (delete_section "teacher" id now db) =
          sql_update [SetIsActive 0; SetUpdatedAt now] sectionId db) as ->.
  { unfold delete_section. cbn [String.eqb Ascii.eqb Bool.eqb negb].
    rewrite Hid. now destruct (changes sectionId db =? 0)%nat. }
  set (db' := sql_update [SetIsActive 0; SetUpdatedAt now] sectionId db).
  assert (forall r, In r db' -> active r = true -> Row.id r <> sectionId) as Hact.
  { intros r Hr Ha E. destruct (sql_update_hit _ _ _ Hr E) as (r0 & _ & ->).
    discriminate. }
  pose proof (includeInactive_off Hviewer) as Hinc.
  split; [|split; [|split]].
  - unfold get_sections_tree. rewrite Hinc.
    destruct (buildSectionsTree_total (tree_rows false db')) as [f Hf].
    unfold buildTree at 1. rewrite Hf. exists f. split; [reflexivity|].
    rewrite forest_ids_subtrees. intros Hin.
    apply in_map_iff in Hin as (t & E & Ht).
    destruct (@active_tree_nodes db' f t Hf Ht) as (_ & r & Hr & Ha & Er).
    apply (Hact r Hr Ha). congruence.
  - intros items H Hin. unfold get_sections in H. rewrite Hinc in H.
    assert (items =
            map item_of_row
              (select_sections
                 (fun r => (false || active r) &&
                           parent_matches (parseNullableParentId parent_id) r) db'))
      as ->.
    { destruct (parseNullableParentId parent_id), parent_id;
        first [discriminate | now injection H]. }
    rewrite map_map in Hin. apply in_map_iff in Hin as (r & E & Hr).
    apply select_sections_In in Hr as (Hr & Hc).
    apply andb_prop in Hc as [Ha _]. simpl in Ha, E.
    now apply (Hact r Hr Ha).
  - intros r parent Hr Er Hparse. unfold get_sections.
    change (includeInactive "teacher" (JStr "1")) with true. cbv zeta.
    rewrite Hparse.
    assert (In (deactivated now r) db') as Hr'.
    { unfold db', sql_update. apply in_map_iff. exists r. split; [|assumption].
      rewrite Er, Z.eqb_refl. reflexivity. }
    assert (In (item_of_row (deactivated now r))
              (map item_of_row
                 (select_sections
                    (fun r0 => (true || active r0) &&
                       parent_matches
                         (match Row.parent_id r with Some p => PId p | None => PNull end)
                         r0) db'))) as Hin.
    { apply in_map. apply select_sections_In. split; [assumption|].
      cbn [orb andb]. unfold parent_matches. cbn [deactivated Row.parent_id].
      destruct (Row.parent_id r) as [p|]; [apply Z.eqb_refl | reflexivity]. }
    destruct (Row.parent_id r) as [p|]; [eauto|].
    destruct parent; eauto.
  - intros ND forest Hforest Hin.
    unfold get_sections_tree in *.
    change (includeInactive "teacher" (JStr "1")) with true in *.
    unfold buildTree in *.
    destruct (buildSectionsTree (tree_rows true db)) as [f|] eqn:Hf; [|discriminate].
    injection Hforest as <-.
    destruct (buildSectionsTree_total (tree_rows true db')) as [f' Hf'].
    rewrite Hf'. exists f'. split; [reflexivity|].
    rewrite buildSectionsTree_forest_of in Hf, Hf'.
    pose proof (index_rows_wf (tree_rows true db)) as Wf.
    pose proof (index_rows_wf (tree_rows true db')) as Wf'.
    assert (map Row.id db' = map Row.id db) as Hids
      by apply sql_update_ids, assign_id.
    assert (NoDup (map Row.id db')) as ND' by now rewrite Hids.
    split.
    + apply (forest_ids_path Wf Hf) in Hin as [pk Hpk].
      apply (forest_ids_path Wf' Hf'). exists pk.
      eapply links_path; [|exact Hpk].
      apply sql_update_links; [assumption|]. intros r. reflexivity.
    + intros t Ht Et.
      destruct (forest_subtrees_view Wf' Hf' _ Ht) as (fuel & k & pk & Hk & Hv).
      destruct (view_fields Wf' _ _ Hv) as (Hk' & _ & o & Ho & Eo).
      destruct (index_rows_origin _ _ Ho) as (r' & Hr' & Ek & ->).
      apply tree_rows_In in Hr' as [Hr' _].
      assert (Row.id r' = sectionId) as Er' by congruence.
      destruct (sql_update_hit _ _ _ Hr' Er') as (r0 & _ & ->).
      rewrite Eo. reflexivity.
Qed.

Lemma deleted_section_is_hidden_witness :
  (exists forest,
      get_sections_tree "student" (JStr "1")
        (fst (delete_section "teacher" "2" "now" two_sections)) = Json forest /\
      ~ In 2 (forest_ids forest)) /\
  (forall items,
      get_sections "student" (JStr "1") (JNum 1)
        (fst (delete_section "teacher" "2" "now" two_sections)) = Json items ->
      ~ In 2 (map Item.id items)) /\
  (forall r parent,
      In r two_sections -> Row.id r = 2 ->
      parseNullableParentId parent =
        match Row.parent_id r with Some p => PId p | None => PNull end ->
      exists items,
        get_sections "teacher" (JStr "1") parent
          (fst (delete_section "teacher" "2" "now" two_sections)) = Json items /\
        In (item_of_row (deactivated "now" r)) items) /\
  (NoDup (map Row.id two_sections) ->
   forall forest,
     get_sections_tree "teacher" (JStr "1") two_sections = Json forest ->
     In 2 (forest_ids forest) ->
     exists forest',
       get_sections_tree "teacher" (JStr "1")
         (fst (delete_section "teacher" "2" "now" two_sections)) = Json forest' /\
       In 2 (forest_ids forest') /\
       forall t, In t (forest_subtrees forest') -> Node.id t = 2 ->
                 Node.isActive t = false).
Proof.
  apply (@deleted_section_is_hidden "2" "now" "student" (JStr "1") (JNum 1)
           two_sections 2).
  - reflexivity.
  - intros [H _]. discriminate.
Defined.

(** ** PATCH *)

Section PatchBlocks.
Variable P : assignment -> Prop.
Hypothesis P_name : forall v, P (SetName v).
Hypothesis P_order : forall v, P (SetOrderIndex v).
Hypothesis P_active : forall v, P (SetIsActive v).
Variable body : patch_body.

Lemma patch_name_keeps us us' :
  patch_name body us = inr us' -> Forall P us -> Forall P us'.
Proof.
  unfold patch_name. intros H Hus.
  destruct (body_name body) as [| |b|z|s];
    [injection H as <-; assumption | | | |];
    match type of H with
    | (if ?c then _ else _) = _ => destruct c
    end; try discriminate;
    injection H as <-; (apply Forall_snoc; [assumption | apply P_name]).
Qed.

Lemma patch_order_keeps us us' :
  patch_order body us = inr us' -> Forall P us -> Forall P us'.
Proof.
  unfold patch_order. intros H Hus.
  destruct (body_order_index body) as [| |b|z|s]; cbn [parseInt] in H.
  - injection H as <-. assumption.
  - discriminate.
  - discriminate.
  - injection H as <-. apply Forall_snoc; [assumption | apply P_order].
  - destruct (parseInt_string s); [|discriminate].
    injection H as <-. apply Forall_snoc; [assumption | apply P_order].
Qed.

Lemma patch_active_keeps us us' :
  patch_active body us = inr us' -> Forall P us -> Forall P us'.
Proof.
  unfold patch_active. intros H Hus.
  destruct (body_is_active body); injection H as <-;
    first [assumption | apply Forall_snoc; [assumption | apply P_active]].
Qed.

(** Without [parent_id] in the body the parent block adds nothing. *)
Lemma patch_updates_keep sectionId db us :
  body_parent_id body = JUndefined ->
  andthen (andthen (andthen (patch_name body [])
                      (patch_parent sectionId db body))
             (patch_order body))
    (patch_active body) = inr us ->
  Forall P us.
Proof.
  intros Hp.
  destruct (patch_name body []) as [e|u1] eqn:E1; [discriminate|].
  cbn [andthen]. unfold patch_parent. rewrite Hp. cbn [andthen].
  destruct (patch_order body u1) as [e|u3] eqn:E3; [discriminate|].
  cbn [andthen]. intros E4.
  eapply patch_active_keeps; [exact E4|].
  eapply patch_order_keeps; [exact E3|].
  eapply patch_name_keeps; [exact E1|]. constructor.
Qed.
End PatchBlocks.

Lemma fold_assign_keeps_parent us r :
  Forall keeps_parent us ->
  Row.parent_id (fold_left assign us r) = Row.parent_id r.
Proof.
  intros H. destruct (fold_assign_parent us r) as [E|Hin]; [assumption|].
  rewrite Forall_forall in H. destruct (H _ Hin).
Qed.

(** X5.  A PATCH whose body has no [parent_id] never changes the hierarchy:
    every row keeps its id and its parent link, so a parent relation that
    was a forest stays one. *)
Theorem patch_without_parent_keeps_hierarchy
    (role id : string) (body : patch_body) (now : string) (db : table) :
  body_parent_id body = JUndefined ->
  map Row.id (fst (patch_section role id body now db)) = map Row.id db /\
  map Row.parent_id (fst (patch_section role id body now db)) =
    map Row.parent_id db /\
  (parent_forest db -> parent_forest (fst (patch_section role id body now db))).
Proof.
  intros Hp. unfold patch_section.
  destruct (negb (String.eqb role "teacher")); [simpl; auto|].
  destruct (parseInt (JStr id)) as [sectionId|]; [|simpl; auto].
  destruct (negb (section_exists sectionId db)); [simpl; auto|].
  destruct (andthen (andthen (andthen (patch_name body [])
                                (patch_parent sectionId db body))
                       (patch_order body))
              (patch_active body)) as [e|us] eqn:E; [simpl; auto|].
  assert (Forall keeps_parent us) as G
    by (eapply (patch_updates_keep keeps_parent); try eassumption; intros; exact I).
  destruct us as [|a us]; [simpl; auto|].
  cbn [fst].
  assert (Forall keeps_parent ((a :: us) ++ [SetUpdatedAt now])) as G'
    by (apply Forall_snoc; [assumption | exact I]).
  set (f := fun r : Row.t =>
              if Row.id r =? sectionId
              then fold_left assign ((a :: us) ++ [SetUpdatedAt now]) r
              else r).
  assert (forall r, Row.id (f r) = Row.id r) as Hid.
  { intros r. unfold f. destruct (Row.id r =? sectionId); [|reflexivity].
    apply fold_assign_id. }
  assert (forall r, Row.parent_id (f r) = Row.parent_id r) as Hpar.
  { intros r. unfold f. destruct (Row.id r =? sectionId); [|reflexivity].
    now apply fold_assign_keeps_parent. }
  change (sql_update ((a :: us) ++ [SetUpdatedAt now]) sectionId db)
    with (map f db).
  split; [|split].
  - rewrite map_map. now apply map_ext.
  - rewrite map_map. now apply map_ext.
  - apply parent_forest_map; auto.
Qed.

Lemma patch_without_parent_keeps_hierarchy_witness :
  map Row.id (fst (patch_section "teacher" "2" reactivate "now" two_sections)) =
    map Row.id two_sections /\
  map Row.parent_id
    (fst (patch_section "teacher" "2" reactivate "now" two_sections)) =
    map Row.parent_id two_sections /\
  (parent_forest two_sections ->
   parent_forest (fst (patch_section "teacher" "2" reactivate "now" two_sections))).
Proof.
  apply (@patch_without_parent_keeps_hierarchy "teacher" "2" reactivate "now"
           two_sections).
  reflexivity.
Defined.

(** X8.  A soft delete is undone by a PATCH that sends [is_active] true:
    for a section that was active, DELETE followed by that PATCH gives back
    the table as it was, apart from [updated_at] of the section. *)
Theorem delete_then_reactivate
    (id t1 t2 : string) (db : table) (sectionId : Z) :
  parseInt (JStr id) = Some sectionId ->
  section_exists sectionId db = true ->
  (forall r, In r db -> Row.id r = sectionId -> Row.is_active r = 1) ->
  patch_section "teacher" id reactivate t2
    (fst (delete_section "teacher" id t1 db)) =
  (sql_update [SetUpdatedAt t2] sectionId db, ok).
Proof.
  intros Hid Hex Hact.
  assert (fst (delete_section "teacher" id t1 db) =
          sql_update [SetIsActive 0; SetUpdatedAt t1] sectionId db) as ->.
  { unfold delete_section. cbn [String.eqb Ascii.eqb Bool.eqb negb].
    rewrite Hid. now destruct (changes sectionId db =? 0)%nat. }
  unfold patch_section. cbn [String.eqb Ascii.eqb Bool.eqb negb].
  rewrite Hid.
  rewrite (@section_exists_ids sectionId db
             (sql_update [SetIsActive 0; SetUpdatedAt t1] sectionId db))
    by (apply sql_update_ids, assign_id).
  rewrite Hex. cbn. f_equal.
  unfold sql_update. rewrite map_map. apply map_ext_in. intros r Hr.
  destruct (Row.id r =? sectionId) eqn:E; cbn [fold_left assign Row.id].
  - rewrite E. cbn. apply Z.eqb_eq in E. rewrite <- (Hact r Hr E).
    destruct r; reflexivity.
  - now rewrite E.
Qed.

Lemma delete_then_reactivate_witness :
  patch_section "teacher" "2" reactivate "later"
    (fst (delete_section "teacher" "2" "now" two_sections)) =
  (sql_update [SetUpdatedAt "later"] 2 two_sections, ok).
Proof.
  apply (@delete_then_reactivate "2" "now" "later" two_sections 2).
  - reflexivity.
  - reflexivity.
  - intros r [<-|[<-|[]]]; simpl; intros; (discriminate || reflexivity).
Defined.

(** ** POST *)

Example post_examples :
  post_section "teacher" (new_child 1) "now" two_sections =
    (two_sections ++ [Row.mk 3 "Modals" (Some 1) 4 1 "now" "now"], Json 3) /\
  post_section "teacher" (new_child 7) "now" two_sections =
    (two_sections, Error 400 "Parent section not found") /\
  post_section "teacher" new_root "now" [] =
    ([Row.mk 1 "Listening" None 0 1 "now" "now"], Json 1) /\
  post_section "student" new_root "now" [] = ([], Error 403 "Forbidden").
Proof. repeat split. Qed.

(** The outcomes of POST: an error and the same table, or one new row. *)
Lemma post_section_cases role body now db :
  (exists status error,
      post_section role body now db = (db, Error status error)) \/
  (exists name orderIndex isActive,
      role = "teacher" /\ name <> "" /\ (isActive = 0 \/ isActive = 1) /\
      (truthy (body_is_active body) = true \/ body_is_active body = JUndefined ->
       isActive = 1) /\
      (parseNullableParentId (body_parent_id body) = PNull \/
       exists p, parseNullableParentId (body_parent_id body) = PId p /\
                 section_exists p db = true) /\
      post_section role body now db =
      (db ++ [Row.mk (lastID db) name
                (or_null (parseNullableParentId (body_parent_id body)))
                orderIndex isActive now now],
       Json (lastID db))).
Proof.
  unfold post_section.
  destruct (String.eqb role "teacher") eqn:Hrole; cbn [negb]; [|left; eauto].
  apply String.eqb_eq in Hrole.
  set (name := trim (String_of (if truthy (body_name body)
                                then body_name body else JStr ""))).
  destruct (String.eqb name "") eqn:Hname; [left; eauto|].
  apply String.eqb_neq in Hname.
  destruct (parseNullableParentId (body_parent_id body)) as [| |p] eqn:Hp.
  - destruct (body_parent_id body); left; cbn [parent_found]; eauto.
  - right.
    match goal with
    | |- context [sql_insert _ _ ?o ?a _ _ _] => exists name, o, a
    end.
    split; [assumption|]. split; [assumption|].
      split; [destruct (body_is_active body); auto;
              match goal with |- context [if ?c then _ else _] => destruct c end;
              auto|].
      split; [destruct (body_is_active body); intros [H|H];
              solve [reflexivity | discriminate | now rewrite H]|].
    split; [now left|].
    destruct (body_parent_id body); reflexivity.
  - cbn [parent_found].
    destruct (section_exists p db) eqn:Hex.
    + right.
      match goal with
      | |- context [sql_insert _ _ ?o ?a _ _ _] => exists name, o, a
      end.
      split; [assumption|]. split; [assumption|].
      split; [destruct (body_is_active body); auto;
              match goal with |- context [if ?c then _ else _] => destruct c end;
              auto|].
      split; [destruct (body_is_active body); intros [H|H];
              solve [reflexivity | discriminate | now rewrite H]|].
      split; [right; eauto|].
      destruct (body_parent_id body); reflexivity.
    + left. destruct (body_parent_id body); eauto.
Qed.

(** What a POST that is answered with an id has inserted. *)
Lemma post_section_inserted role body now db id :
  snd (post_section role body now db) = Json id ->
  id = lastID db /\
  fst (post_section role body now db) =
  db ++ [Row.mk (lastID db) (trim (posted_name body))
           (or_null (parseNullableParentId (body_parent_id body)))
           (match parseInt (match body_order_index body with
                            | JUndefined | JNull => JNum 0
                            | v => v
                            end) with
            | None => 0
            | Some o => o
            end)
           (match body_is_active body with
            | JUndefined => 1
            | v => if truthy v then 1 else 0
            end) now now].
Proof.
  unfold post_section, posted_name.
  destruct (negb (String.eqb role "teacher")); [discriminate|]. cbv zeta.
  destruct (String.eqb (trim _) ""); [discriminate|].
  destruct (parseNullableParentId (body_parent_id body)) as [| |p] eqn:Hp;
    destruct (body_parent_id body) eqn:B; cbn [parent_found];
    try discriminate;
    try (destruct (section_exists p db)); try discriminate;
    cbn [snd fst]; intros [= <-]; now split.
Qed.

(** X9.  POST /api/sections either answers with an error and leaves the
    table as it was, or appends exactly one row and answers with its id,
    which it does only for a teacher.  The new id is no id of the table,
    so distinct ids stay distinct.  The new row has a name that is not
    empty, the trimmed text of the name sent when that text is ASCII; it
    is active when [is_active] is truthy or not sent and inactive when a
    falsy [is_active] is sent; it has no parent or a parent that is a
    section of the table; the rows that were there are untouched. *)
Theorem post_section_creates_one_row
    (role : string) (body : patch_body) (now : string) (db : table) :
  ((exists status error, snd (post_section role body now db) = Error status error) ->
   fst (post_section role body now db) = db) /\
  (forall id,
      snd (post_section role body now db) = Json id ->
      role = "teacher" /\
      exists r,
        created db (fst (post_section role body now db)) id r /\
        Row.name r <> "" /\
        (Row.is_active r = 0 \/ Row.is_active r = 1) /\
        Row.created_at r = now /\ Row.updated_at r = now /\
        (Row.parent_id r = None \/
         exists p, Row.parent_id r = Some p /\ section_exists p db = true) /\
        (ascii_only (posted_name body) = true ->
         Row.name r = trim (posted_name body)) /\
        (body_is_active body = JUndefined \/ truthy (body_is_active body) = true ->
         Row.is_active r = 1) /\
        (body_is_active body <> JUndefined -> truthy (body_is_active body) = false ->
         Row.is_active r = 0)) /\
  (NoDup (map Row.id db) ->
   NoDup (map Row.id (fst (post_section role body now db)))) /\
  (parents_resolve db -> parents_resolve (fst (post_section role body now db))).
Proof.
  assert (forall id, snd (post_section role body now db) = Json id ->
            forall r, created db (fst (post_section role body now db)) id r ->
              Row.name r = trim (posted_name body) /\
              Row.is_active r = match body_is_active body with
                                | JUndefined => 1
                                | v => if truthy v then 1 else 0
                                end) as Hins.
  { intros id H r (Hr & _). destruct (post_section_inserted _ _ _ _ H) as [_ E].
    rewrite E in Hr. apply app_inv_head in Hr. injection Hr as <-. now split. }
  destruct (post_section_cases role body now db)
    as [(status & error & E) | (name & o & a & Hrole & Hname & Ha & _ & Hp & E)];
    rewrite E in *; cbn [fst snd] in *.
  - split; [auto|]. split; [intros i H; discriminate|]. split; auto.
  - assert (or_null (parseNullableParentId (body_parent_id body)) = None \/
            exists p,
              or_null (parseNullableParentId (body_parent_id body)) = Some p /\
              section_exists p db = true) as Hpar.
    { destruct Hp as [-> | (p & -> & Hex)]; [now left | right; exists p; auto]. }
    split; [intros (s & e & H); discriminate|]. split; [|split].
    + intros id [= <-]. split; [assumption|].
      assert (created db
                (db ++ [Row.mk (lastID db) name
                          (or_null (parseNullableParentId (body_parent_id body)))
                          o a now now])
                (lastID db)
                (Row.mk (lastID db) name
                   (or_null (parseNullableParentId (body_parent_id body)))
                   o a now now)) as Hc
        by (split; [reflexivity|]; split; [reflexivity | apply lastID_fresh]).
      destruct (Hins _ eq_refl _ Hc) as [Hn Hact].
      cbn [Row.name Row.is_active] in Hn, Hact.
      eexists. split; [exact Hc|].
      cbn [Row.name Row.is_active Row.created_at Row.updated_at Row.parent_id].
      split; [assumption|]. split; [assumption|].
      split; [reflexivity|]. split; [reflexivity|]. split; [assumption|].
      split; [intros _; exact Hn|]. rewrite Hact. split.
      * intros [->|Ht]; [reflexivity|].
        destruct (body_is_active body); try discriminate; cbn in Ht |- *;
          now rewrite ?Ht.
      * intros Hu Hf. destruct (body_is_active body); try contradiction;
          cbn in Hf |- *; now rewrite ?Hf.
    + intros ND. rewrite map_app. cbn.
      apply NoDup_app; [assumption | repeat constructor; intros [] |].
      intros x Hx [<-|[]]. now apply lastID_fresh in Hx.
    + intros Hres r Hr.
      assert (forall p r0, section_exists p db = true ->
                           section_exists p (db ++ [r0]) = true) as Hmono.
      { intros p r0 Hex. unfold section_exists. rewrite existsb_app.
        unfold section_exists in Hex. now rewrite Hex. }
      apply in_app_iff in Hr as [Hr|[<-|[]]].
      * destruct (Hres r Hr) as (H1 & H2). split; [assumption|].
        intros p Hp'. apply Hmono. now apply H2.
      * cbn [Row.id Row.parent_id]. destruct Hpar as [-> | (p & -> & Hex)].
        -- split; [discriminate | intros p; discriminate].
        -- split.
           ++ intros [= ->]. apply section_exists_In in Hex as (q & Hq & E').
              apply lastID_above in Hq. lia.
           ++ intros q [= <-]. now apply Hmono.
Qed.

(** X10.  POST /api/sections never closes a cycle and never reuses an id:
    when the parent relation of the table is a forest, it still is after
    the request, and when the ids are distinct they still are. *)
Theorem post_section_keeps_forest
    (role : string) (body : patch_body) (now : string) (db : table) :
  parent_forest db ->
  parent_forest (fst (post_section role body now db)) /\
  (NoDup (map Row.id db) ->
   NoDup (map Row.id (fst (post_section role body now db)))).
Proof.
  intros H.
  destruct (post_section_cases role body now db)
    as [(status & error & ->) | (name & o & a & Hrole & Hname & Ha & _ & Hp & ->)];
    cbn [fst]; [now split|].
  split.
  - apply parent_forest_insert; [apply lastID_fresh | | assumption].
    cbn [Row.parent_id].
    destruct Hp as [-> | (p & -> & Hex)]; [now left | right; exists p; auto].
  - intros ND. rewrite map_app. cbn [map Row.id].
    apply NoDup_app; [assumption | repeat constructor; intros [] |].
    intros x Hx [<-|[]]. now apply lastID_fresh in Hx.
Qed.

Lemma post_section_keeps_forest_witness :
  parent_forest (fst (post_section "teacher" (new_child 2) "now" two_sections)) /\
  (NoDup (map Row.id two_sections) ->
   NoDup (map Row.id (fst (post_section "teacher" (new_child 2) "now" two_sections)))).
Proof.
  apply (@post_section_keeps_forest "teacher" (new_child 2) "now" two_sections).
  intros r [<-|[<-|[]]].
  - exists [1]. split; [|repeat constructor; intros []].
    apply (@chain_root two_sections (row 1 "Grammar" None 0 1));
      [now left | reflexivity].
  - exists [2; 1]. split.
    + apply (@chain_up two_sections (row 2 "Tenses" (Some 1) 0 1) 1 [1]);
        [right; now left | reflexivity |].
      apply (@chain_root two_sections (row 1 "Grammar" None 0 1));
        [now left | reflexivity].
    + repeat constructor; simpl; intuition discriminate.
Defined.

(** X11.  A POST whose body has no [parent_id] creates nothing: the parent
    is looked up although none was sent, and the request is answered with
    an error, which for a teacher who sends a name (an ASCII text that is
    not blank) is 400 Parent section not found.  A root section is created
    by sending [parent_id] null: the same body with [parent_id] null is
    answered with a new id. *)
Theorem post_section_needs_parent_id
    (role : string) (body : patch_body) (now : string) (db : table) :
  body_parent_id body = JUndefined ->
  fst (post_section role body now db) = db /\
  (exists status error, snd (post_section role body now db) = Error status error) /\
  (role = "teacher" ->
   ascii_only (posted_name body) = true -> trim (posted_name body) <> "" ->
   post_section role body now db = (db, Error 400 "Parent section not found") /\
   snd (post_section role
          (mkBody (body_name body) JNull (body_order_index body) (body_is_active body))
          now db) = Json (lastID db)).
Proof.
  intros Hp. split; [|split].
  - destruct (post_section_cases role body now db)
      as [(status & error & ->) | (name & o & a & _ & _ & _ & _ & Hcase & _)];
      [reflexivity|].
    rewrite Hp in Hcase. destruct Hcase as [H | (p & H & _)]; discriminate.
  - destruct (post_section_cases role body now db)
      as [(status & error & ->) | (name & o & a & _ & _ & _ & _ & Hcase & _)];
      [cbn; eauto|].
    rewrite Hp in Hcase. destruct Hcase as [H | (p & H & _)]; discriminate.
  - intros -> _ Hname. apply String.eqb_neq in Hname.
    unfold post_section, posted_name in *.
    cbn [String.eqb Ascii.eqb Bool.eqb negb body_name body_parent_id
         body_order_index body_is_active]. cbv zeta.
    rewrite Hname, Hp. cbn [parseNullableParentId parent_found].
    split; reflexivity.
Qed.

Lemma post_section_needs_parent_id_witness :
  fst (post_section "teacher" (mkBody (JStr "Listening") JUndefined JUndefined JUndefined)
         "now" two_sections) = two_sections /\
  post_section "teacher" (mkBody (JStr "Listening") JUndefined JUndefined JUndefined)
    "now" two_sections =
    (two_sections, Error 400 "Parent section not found") /\
  snd (post_section "teacher" (mkBody (JStr "Listening") JNull JUndefined JUndefined)
         "now" two_sections) = Json 3.
Proof.
  destruct (@post_section_needs_parent_id "teacher"
              (mkBody (JStr "Listening") JUndefined JUndefined JUndefined)
              "now" two_sections eq_refl) as (H1 & _ & H2).
  split; [exact H1|].
  apply H2; [reflexivity | reflexivity | vm_compute; discriminate].
Defined.

(** X12.  A section that POST has created is listed: the child list that a
    teacher asks for with the flag and with the [parent_id] of the request
    holds the new id, and so does the child list of any user when the
    section was created active. *)
Theorem post_section_then_list
    (role : string) (body : patch_body) (now : string) (db : table) (id : Z) :
  snd (post_section role body now db) = Json id ->
  (exists items,
      get_sections "teacher" (JStr "1") (body_parent_id body)
        (fst (post_section role body now db)) = Json items /\
      In id (map Item.id items)) /\
  (forall viewer flag,
      truthy (body_is_active body) = true \/ body_is_active body = JUndefined ->
      exists items,
        get_sections viewer flag (body_parent_id body)
          (fst (post_section role body now db)) = Json items /\
        In id (map Item.id items)).
Proof.
  intros Hok.
  destruct (post_section_cases role body now db)
    as [(status & error & E) | (name & o & a & Hrole & Hname & Ha & Hone & Hp & E)];
    [rewrite E in Hok; discriminate|].
  rewrite E in Hok |- *. cbn [fst snd] in *. injection Hok as <-.
  set (parsed := parseNullableParentId (body_parent_id body)) in *.
  set (r := Row.mk (lastID db) name (or_null parsed) o a now now).
  assert (parent_matches parsed r = true) as Hm.
  { unfold r. destruct Hp as [Hp | (p & Hp & _)]; rewrite Hp; cbn;
      [reflexivity | apply Z.eqb_refl]. }
  assert (forall viewer flag,
             (includeInactive viewer flag || active r) = true ->
             exists items,
               get_sections viewer flag (body_parent_id body) (db ++ [r]) =
                 Json items /\
               In (lastID db) (map Item.id items)) as Hlist.
  { intros viewer flag Hc. unfold get_sections. fold parsed.
    exists (map item_of_row
              (select_sections
                 (fun x => (includeInactive viewer flag || active x) &&
                           parent_matches parsed x) (db ++ [r]))).
    split.
    - destruct Hp as [Hp | (p & Hp & _)]; rewrite Hp; reflexivity.
    - rewrite map_map. apply in_map_iff. exists r. split; [reflexivity|].
      apply select_sections_In. split; [apply in_or_app; right; now left|].
      now rewrite Hc, Hm. }
  split; [apply Hlist; reflexivity|].
  intros viewer flag Hactive. apply Hlist.
  unfold active, r. cbn [Row.is_active]. rewrite (Hone Hactive).
  apply orb_true_r.
Qed.

Lemma post_section_then_list_witness :
  (exists items,
      get_sections "teacher" (JStr "1") (body_parent_id (new_child 1))
        (fst (post_section "teacher" (new_child 1) "now" two_sections)) =
        Json items /\
      In 3 (map Item.id items)) /\
  (forall viewer flag,
      truthy (body_is_active (new_child 1)) = true \/
      body_is_active (new_child 1) = JUndefined ->
      exists items,
        get_sections viewer flag (body_parent_id (new_child 1))
          (fst (post_section "teacher" (new_child 1) "now" two_sections)) =
          Json items /\
        In 3 (map Item.id items)).
Proof.
  apply (@post_section_then_list "teacher" (new_child 1) "now" two_sections 3).
  reflexivity.
Defined.


(** * Seeding the sections *)

Lemma find_map_same {A} (p : A -> bool) (f : A -> A) l :
  (forall x, p (f x) = p x) -> find p (map f l) = option_map f (find p l).
Proof.
  intros H. induction l as [|x l IH]; simpl; [reflexivity|].
  rewrite H. destruct (p x); [reflexivity | exact IH].
Qed.

Lemma find_app_l {A} (p : A -> bool) l l' x :
  find p l = Some x -> find p (l ++ l') = Some x.
Proof.
  induction l as [|y l IH]; simpl; [discriminate|].
  destruct (p y); [auto | exact IH].
Qed.

Lemma find_app_r {A} (p : A -> bool) l l' :
  find p l = None -> find p (l ++ l') = find p l'.
Proof.
  induction l as [|y l IH]; simpl; [reflexivity|].
  destruct (p y); [discriminate | exact IH].
Qed.

Lemma filter_find_none {A} (p : A -> bool) l : find p l = None -> filter p l = [].
Proof.
  induction l as [|y l IH]; simpl; [reflexivity|].
  destruct (p y); [discriminate | exact IH].
Qed.

Lemma same_section_assign name parentId us r :
  Forall keeps_parent us -> (forall v, ~ In (SetName v) us) ->
  same_section name parentId (fold_left assign us r) = same_section name parentId r.
Proof.
  revert r. induction us as [|a us IH]; intros r Hk Hn; [reflexivity|].
  inversion Hk as [|? ? Ha Hus]; subst. cbn [fold_left].
  rewrite IH; [|assumption | intros v Hv; apply (Hn v); now right].
  destruct a; try reflexivity.
  - exfalso. apply (Hn v). now left.
  - destruct Ha.
Qed.

(** The UPDATE of [ensureSection] keeps the name and the parent of every
    row. *)
Lemma refresh_same name parentId o t i r :
  same_section name parentId
    (if Row.id r =? i
     then fold_left assign [SetOrderIndex o; SetIsActive 1; SetUpdatedAt t] r
     else r) = same_section name parentId r.
Proof. destruct (Row.id r =? i); reflexivity. Qed.

Lemma same_section_refl name parentId i o a c u :
  same_section name parentId (Row.mk i name parentId o a c u) = true.
Proof.
  unfold same_section. cbn. rewrite String.eqb_refl.
  destruct parentId; [apply Z.eqb_refl | reflexivity].
Qed.

Lemma same_section_spec name parentId r :
  same_section name parentId r = true <->
  Row.name r = name /\ Row.parent_id r = parentId.
Proof.
  unfold same_section. rewrite andb_true_iff, String.eqb_eq.
  destruct parentId as [p|], (Row.parent_id r) as [q|];
    rewrite ?Z.eqb_eq; intuition congruence.
Qed.

Section Ensure.
Variables (name : string) (parentId : option Z) (orderIndex : Z) (now : string).
Variable db : table.

(** The row [ensureSection] returns the id of is found under its name and
    parent afterwards. *)
Lemma ensure_found :
  found name parentId (fst (ensureSection name parentId orderIndex now db)) =
  Some (snd (ensureSection name parentId orderIndex now db)).
Proof.
  unfold ensureSection, found.
  destruct (find (same_section name parentId) db) as [e|] eqn:E; cbn [fst snd].
  - unfold sql_update. rewrite find_map_same by (intros; apply refresh_same).
    rewrite E. cbn. destruct (Row.id e =? Row.id e); reflexivity.
  - unfold sql_insert. rewrite (find_app_r _ _ _ E). cbn [find].
    now rewrite same_section_refl.
Qed.

(** What is found under any name and parent stays found, with the same id. *)
Lemma ensure_stable name' parentId' i :
  found name' parentId' db = Some i ->
  found name' parentId' (fst (ensureSection name parentId orderIndex now db)) =
  Some i.
Proof.
  unfold ensureSection, found. intros H.
  destruct (find (same_section name' parentId') db) as [x|] eqn:Ex;
    [|discriminate].
  injection H as <-.
  destruct (find (same_section name parentId) db) as [e|] eqn:E; cbn [fst].
  - unfold sql_update. rewrite find_map_same by (intros; apply refresh_same).
    rewrite Ex. cbn. destruct (Row.id x =? Row.id e); reflexivity.
  - unfold sql_insert. now rewrite (find_app_l _ _ _ Ex).
Qed.

(** A second call finds the section and adds no row. *)
Lemma ensure_hit i :
  found name parentId db = Some i ->
  snd (ensureSection name parentId orderIndex now db) = i /\
  map Row.id (fst (ensureSection name parentId orderIndex now db)) = map Row.id db.
Proof.
  unfold ensureSection, found. intros H.
  destruct (find (same_section name parentId) db) as [e|] eqn:E; [|discriminate].
  injection H as <-. cbn [fst snd]. split; [reflexivity|].
  apply sql_update_ids, assign_id.
Qed.

Lemma ensure_count :
  count_sections name parentId (fst (ensureSection name parentId orderIndex now db)) =
  Nat.max 1 (count_sections name parentId db).
Proof.
  unfold ensureSection, count_sections.
  destruct (find (same_section name parentId) db) as [e|] eqn:E; cbn [fst].
  - assert (1 <= List.length (filter (same_section name parentId) db))%nat as Hpos.
    { apply find_some in E as (He & Hs).
      assert (In e (filter (same_section name parentId) db)) as Hin
        by (apply filter_In; auto).
      destruct (filter (same_section name parentId) db); [destruct Hin | simpl; lia]. }
    unfold sql_update.
    assert (forall l : table,
               List.length
                 (filter (same_section name parentId)
                    (map (fun r =>
                            if Row.id r =? Row.id e
                            then fold_left assign
                                   [SetOrderIndex orderIndex; SetIsActive 1;
                                    SetUpdatedAt now] r
                            else r) l)) =
               List.length (filter (same_section name parentId) l)) as Hlen.
    { induction l as [|r l IH]; [reflexivity|]. cbn [map filter].
      rewrite refresh_same. destruct (same_section name parentId r);
        cbn [List.length]; now rewrite IH. }
    rewrite Hlen. lia.
  - unfold sql_insert. rewrite filter_app, (filter_find_none _ _ E).
    cbn [filter app]. now rewrite same_section_refl.
Qed.

(** The rows the call does not address are left as they were, and the
    addressed one is as asked for. *)
Lemma ensure_row :
  exists r,
    In r (fst (ensureSection name parentId orderIndex now db)) /\
    Row.id r = snd (ensureSection name parentId orderIndex now db) /\
    Row.name r = name /\ Row.parent_id r = parentId /\
    Row.order_index r = orderIndex /\ Row.is_active r = 1 /\
    Row.updated_at r = now.
Proof.
  unfold ensureSection.
  destruct (find (same_section name parentId) db) as [e|] eqn:E; cbn [fst snd].
  - apply find_some in E as (He & Hs). apply same_section_spec in Hs as (Hn & Hp).
    exists (fold_left assign
              [SetOrderIndex orderIndex; SetIsActive 1; SetUpdatedAt now] e).
    split; [|cbn; repeat split; assumption].
    unfold sql_update. apply in_map_iff. exists e. now rewrite Z.eqb_refl.
  - eexists. split; [apply in_or_app; right; now left|]. cbn. repeat split.
Qed.

Lemma ensure_others r :
  In r db -> Row.id r <> snd (ensureSection name parentId orderIndex now db) ->
  In r (fst (ensureSection name parentId orderIndex now db)).
Proof.
  unfold ensureSection.
  destruct (find (same_section name parentId) db) as [e|] eqn:E; cbn [fst snd];
    intros Hr Hn.
  - now apply sql_update_other.
  - apply in_or_app. now left.
Qed.

(** The table stays well formed: distinct ids stay distinct, a section that
    exists still does, and with a parent that is null or a section of the
    table the parent relation stays a forest. *)
Lemma ensure_keeps :
  (NoDup (map Row.id db) ->
   NoDup (map Row.id (fst (ensureSection name parentId orderIndex now db)))) /\
  (forall j, section_exists j db = true ->
     section_exists j (fst (ensureSection name parentId orderIndex now db)) = true) /\
  section_exists (snd (ensureSection name parentId orderIndex now db))
    (fst (ensureSection name parentId orderIndex now db)) = true /\
  (parent_forest db ->
   parentId = None \/ (exists p, parentId = Some p /\ section_exists p db = true) ->
   parent_forest (fst (ensureSection name parentId orderIndex now db))).
Proof.
  unfold ensureSection.
  destruct (find (same_section name parentId) db) as [e|] eqn:E; cbn [fst snd].
  - assert (map Row.id
              (sql_update [SetOrderIndex orderIndex; SetIsActive 1; SetUpdatedAt now]
                 (Row.id e) db) = map Row.id db) as Hids
      by apply sql_update_ids, assign_id.
    split; [now rewrite Hids|]. split; [|split].
    + intros j Hj. now rewrite (@section_exists_ids j _ _ Hids).
    + rewrite (@section_exists_ids (Row.id e) _ _ Hids).
      apply section_exists_In. apply find_some in E as (He & _). eauto.
    + intros Hf _. unfold sql_update. apply parent_forest_map; [| |assumption].
      * intros r. destruct (Row.id r =? Row.id e); reflexivity.
      * intros r _. destruct (Row.id r =? Row.id e); reflexivity.
  - unfold sql_insert. split; [|split; [|split]].
    + intros ND. rewrite map_app. cbn.
      apply NoDup_app; [assumption | repeat constructor; intros [] |].
      intros x Hx [<-|[]]. now apply lastID_fresh in Hx.
    + intros j Hj. unfold section_exists in *. rewrite existsb_app, Hj. reflexivity.
    + unfold section_exists. rewrite existsb_app. cbn.
      rewrite Z.eqb_refl. now rewrite orb_true_r.
    + intros Hf Hp. apply parent_forest_insert; [apply lastID_fresh | | assumption].
      cbn [Row.parent_id]. destruct Hp as [-> | (p & -> & Hex)]; [now left|].
      right. exists p. auto.
Qed.
End Ensure.

Example seed_example :
  map (fun r => (Row.id r, Row.name r, Row.parent_id r))
      (fst (seedSections (fun _ => "t") [])) =
  [ (1, "Grammar", None); (2, "Vocabulary", None); (3, "Listening", None);
    (4, "Present Tenses", Some 1); (5, "Past Tenses", Some 1);
    (6, "Future Tenses", Some 1); (7, "All Tenses", Some 1);
    (8, "Modals", Some 1); (9, "Present Simple", Some 4);
    (10, "Present Simple and Progressive", Some 4);
    (11, "Present Perfect", Some 4) ] /\
  snd (seedSections (fun _ => "t") []) = 9.
Proof. split; reflexivity. Qed.

(** X13.  [ensureSection] is idempotent on the name and the parent: the
    call returns the id of a row that afterwards has that name and parent,
    the order index asked for, and is active; the number of rows with that
    name under that parent is left as it was unless there was none, and then
    it is one; rows with another id are untouched; and a second call for the
    same name and parent returns the same id and adds no row. *)
Theorem ensureSection_idempotent
    (name : string) (parentId : option Z) (o1 o2 : Z) (t1 t2 : string)
    (db : table) :
  snd (ensureSection name parentId o2 t2
         (fst (ensureSection name parentId o1 t1 db))) =
    snd (ensureSection name parentId o1 t1 db) /\
  map Row.id (fst (ensureSection name parentId o2 t2
                     (fst (ensureSection name parentId o1 t1 db)))) =
    map Row.id (fst (ensureSection name parentId o1 t1 db)) /\
  count_sections name parentId (fst (ensureSection name parentId o1 t1 db)) =
    Nat.max 1 (count_sections name parentId db) /\
  (exists r,
      In r (fst (ensureSection name parentId o1 t1 db)) /\
      Row.id r = snd (ensureSection name parentId o1 t1 db) /\
      Row.name r = name /\ Row.parent_id r = parentId /\
      Row.order_index r = o1 /\ Row.is_active r = 1 /\ Row.updated_at r = t1) /\
  (forall r, In r db -> Row.id r <> snd (ensureSection name parentId o1 t1 db) ->
             In r (fst (ensureSection name parentId o1 t1 db))).
Proof.
  pose proof (ensure_found name parentId o1 t1 db) as F.
  destruct (ensure_hit name parentId o2 t2 _ F) as (H1 & H2).
  split; [assumption|]. split; [assumption|].
  split; [apply ensure_count|]. split; [apply ensure_row | apply ensure_others].
Qed.

(** ** seedSections *)

Lemma ensure_found_eq n p o t db db' i :
  ensureSection n p o t db = (db', i) -> found n p db' = Some i.
Proof.
  intros E. pose proof (ensure_found n p o t db) as H. now rewrite E in H.
Qed.

Lemma ensure_stable_eq n p o t db db' i n' p' i' :
  ensureSection n p o t db = (db', i) ->
  found n' p' db = Some i' -> found n' p' db' = Some i'.
Proof.
  intros E F. pose proof (ensure_stable n p o t db n' p' F) as H.
  now rewrite E in H.
Qed.

Lemma ensure_hit_eq n p o t db db' i j :
  ensureSection n p o t db = (db', i) -> found n p db = Some j ->
  i = j /\ map Row.id db' = map Row.id db.
Proof.
  intros E F. pose proof (ensure_hit n p o t db F) as H. now rewrite E in H.
Qed.

Lemma ensure_keeps_eq n p o t db db' i :
  ensureSection n p o t db = (db', i) ->
  (NoDup (map Row.id db) -> NoDup (map Row.id db')) /\
  (forall j, section_exists j db = true -> section_exists j db' = true) /\
  section_exists i db' = true /\
  (parent_forest db ->
   p = None \/ (exists q, p = Some q /\ section_exists q db = true) ->
   parent_forest db').
Proof.
  intros E. pose proof (ensure_keeps n p o t db) as H. now rewrite E in H.
Qed.

(** One call of the first run: name its result and carry what is found so
    far over to the new table. *)
Ltac seed_first H :=
  match type of H with
  | context [ensureSection ?n ?p ?o ?t ?d] =>
      let d' := fresh "d" in
      let i := fresh "i" in
      let E := fresh "E" in
      destruct (ensureSection n p o t d) as [d' i] eqn:E;
      repeat match goal with
             | F : found _ _ d = Some _ |- _ => apply (@ensure_stable_eq _ _ _ _ _ _ _ _ _ _ E) in F
             end;
      pose proof (@ensure_found_eq _ _ _ _ _ _ _ E);
      clear E
  end.

(** One call of the second run: it returns the id found and adds no row. *)
Ltac seed_second H Hids :=
  match type of H with
  | context [ensureSection ?n ?p ?o ?t ?d] =>
      let d' := fresh "d" in
      let i := fresh "i" in
      let E := fresh "E" in
      let Hi := fresh "Hi" in
      let Hd := fresh "Hd" in
      destruct (ensureSection n p o t d) as [d' i] eqn:E;
      match goal with
      | F : found n p d = Some _ |- _ =>
          destruct (@ensure_hit_eq _ _ _ _ _ _ _ _ E F) as [Hi Hd]
      end;
      subst i; apply (fun e => eq_trans e Hids) in Hd; clear Hids; rename Hd into Hids;
      repeat match goal with
             | F : found _ _ d = Some _ |- _ => apply (@ensure_stable_eq _ _ _ _ _ _ _ _ _ _ E) in F
             end;
      clear E
  end.

Lemma seed_twice clock clock' db db1 i1 db2 i2 :
  seedSections clock db = (db1, i1) ->
  seedSections clock' db1 = (db2, i2) ->
  i2 = i1 /\ map Row.id db2 = map Row.id db1.
Proof.
  unfold seedSections. intros H1 H2.
  do 11 seed_first H1.
  injection H1 as <- <-.
  assert (map Row.id d9 = map Row.id d9) as Hids by reflexivity.
  do 11 seed_second H2 Hids.
  injection H2 as <- <-. now split.
Qed.

(** One call of a run, for what the run keeps: unique ids, the sections
    already there, the parent links. *)
Ltac seed_keep H HN HM HF :=
  match type of H with
  | context [ensureSection ?n ?p ?o ?t ?d] =>
      let d' := fresh "d" in
      let i := fresh "i" in
      let E := fresh "E" in
      let Kn := fresh "Kn" in
      let Km := fresh "Km" in
      let Ke := fresh "Ke" in
      let Kf := fresh "Kf" in
      let side := fresh "side" in
      destruct (ensureSection n p o t d) as [d' i] eqn:E;
      destruct (@ensure_keeps_eq _ _ _ _ _ _ _ E) as (Kn & Km & Ke & Kf);
      assert (p = None \/ (exists q, p = Some q /\ section_exists q d = true)) as side
        by (first [ now left | right; eexists; split; [reflexivity|eassumption] ]);
      repeat match goal with
             | X : section_exists _ d = true |- _ => apply Km in X
             end;
      let HN' := fresh "HN" in
      let HM' := fresh "HM" in
      let HF' := fresh "HF" in
      pose proof (fun h => Kn (HN h)) as HN';
      pose proof (fun j h => Km j (HM j h)) as HM';
      pose proof (fun h => Kf (HF h) side) as HF';
      clear E Kn Km Kf side HN HM HF;
      rename HN' into HN; rename HM' into HM; rename HF' into HF
  end.

Lemma seed_keeps clock db db' i :
  seedSections clock db = (db', i) ->
  (NoDup (map Row.id db) -> NoDup (map Row.id db')) /\
  (forall j, section_exists j db = true -> section_exists j db' = true) /\
  (parent_forest db -> parent_forest db').
Proof.
  unfold seedSections. intros H.
  assert (NoDup (map Row.id db) -> NoDup (map Row.id db)) as HN by tauto.
  assert (forall j, section_exists j db = true -> section_exists j db = true) as HM
    by tauto.
  assert (parent_forest db -> parent_forest db) as HF by tauto.
  do 11 seed_keep H HN HM HF.
  injection H as <- <-. repeat split; assumption.
Qed.

Lemma seed_chain clock db db' i :
  seedSections clock db = (db', i) ->
  exists g pt,
    found "Grammar" None db' = Some g /\
    found "Present Tenses" (Some g) db' = Some pt /\
    found "Present Simple" (Some pt) db' = Some i.
Proof.
  unfold seedSections. intros H.
  do 11 seed_first H.
  injection H as <- <-. eauto.
Qed.

(** X14.  Seeding twice is seeding once: on the table that a run of
    [seedSections] leaves, a second run, at whatever times, inserts no row
    and returns the same section id. *)
Theorem seedSections_idempotent (clock clock' : nat -> string) (db : table) :
  snd (seedSections clock' (fst (seedSections clock db))) =
    snd (seedSections clock db) /\
  map Row.id (fst (seedSections clock' (fst (seedSections clock db)))) =
    map Row.id (fst (seedSections clock db)).
Proof.
  destruct (seedSections clock db) as [db1 i1] eqn:E1. cbn [fst snd].
  destruct (seedSections clock' db1) as [db2 i2] eqn:E2. cbn [fst snd].
  eapply seed_twice; eassumption.
Qed.

(** X15.  What a run of [seedSections] keeps and what it returns: ids stay
    unique, no section disappears, the parent links still form a forest,
    and the id returned is that of the section Present Simple whose parent
    is the section Present Tenses whose parent is the root section
    Grammar. *)
Theorem seedSections_keeps_forest (clock : nat -> string) (db : table) :
  (NoDup (map Row.id db) -> NoDup (map Row.id (fst (seedSections clock db)))) /\
  (forall j, section_exists j db = true ->
     section_exists j (fst (seedSections clock db)) = true) /\
  (parent_forest db -> parent_forest (fst (seedSections clock db))) /\
  exists g pt,
    found "Grammar" None (fst (seedSections clock db)) = Some g /\
    found "Present Tenses" (Some g) (fst (seedSections clock db)) = Some pt /\
    found "Present Simple" (Some pt) (fst (seedSections clock db)) =
      Some (snd (seedSections clock db)).
Proof.
  destruct (seedSections clock db) as [db1 i1] eqn:E1. cbn [fst snd].
  destruct (seed_keeps _ _ E1) as (HN & HM & HF).
  repeat split; try assumption.
  eapply seed_chain; eassumption.
Qed.

(** * The client and the server *)

(** ** Decimal text of an integer, read back by parseInt *)

Lemma read_digits_acc (u : Decimal.uint) (acc : positive) :
  read_digits (NilEmpty.string_of_uint u) (Z.pos acc) = Z.pos (Pos.of_uint_acc u acc).
Proof.
  revert acc. induction u; intros acc; cbn [NilEmpty.string_of_uint Pos.of_uint_acc read_digits];
    try reflexivity;
    match goal with
    | |- context [digit_of ?c] =>
        let d := eval vm_compute in (digit_of c) in
        change (digit_of c) with d; cbv iota
    end;
    rewrite <- IHu; f_equal; lia.
Qed.

Lemma read_digits_uint (u : Decimal.uint) :
  read_digits (NilEmpty.string_of_uint u) 0 = Z.of_uint u.
Proof.
  unfold Z.of_uint.
  induction u; cbn [NilEmpty.string_of_uint Pos.of_uint read_digits];
    try reflexivity;
    match goal with
    | |- context [digit_of ?c] =>
        let d := eval vm_compute in (digit_of c) in
        change (digit_of c) with d; cbv iota
    end;
    [ exact IHu | .. ];
    match goal with
    | |- read_digits _ ?a = _ =>
        let v := eval vm_compute in a in change a with v
    end;
    now rewrite read_digits_acc.
Qed.

Lemma parse_unsigned_uint (u : Decimal.uint) :
  u <> Decimal.Nil -> parse_unsigned (NilZero.string_of_uint u) = Some (Z.of_uint u).
Proof.
  intros Hu. rewrite <- read_digits_uint.
  destruct u; [contradiction| ..]; reflexivity.
Qed.

Lemma skip_spaces_uint (u : Decimal.uint) :
  skip_spaces (NilZero.string_of_uint u) = NilZero.string_of_uint u.
Proof. destruct u; reflexivity. Qed.

Lemma parseInt_string_uint (u : Decimal.uint) :
  u <> Decimal.Nil -> parseInt_string (NilZero.string_of_uint u) = Some (Z.of_uint u).
Proof.
  intros Hu. rewrite <- (parse_unsigned_uint Hu).
  unfold parseInt_string. rewrite skip_spaces_uint.
  destruct u; [contradiction| ..]; reflexivity.
Qed.

Lemma parseInt_string_minus (s : string) :
  parseInt_string (String "-" s) = option_map Z.opp (parse_unsigned s).
Proof. reflexivity. Qed.

(** [Number.parseInt(String(z), 10)] is [z]. *)
Lemma parseInt_String_of (z : Z) : parseInt (JStr (String_of (JNum z))) = Some z.
Proof.
  cbn [parseInt String_of].
  destruct z as [|p|p]; cbn [Z.to_int NilZero.string_of_int].
  - reflexivity.
  - rewrite parseInt_string_uint by apply DecimalPos.Unsigned.to_uint_nonnil.
    f_equal. exact (DecimalZ.of_to (Z.pos p)).
  - rewrite parseInt_string_minus.
    rewrite parse_unsigned_uint by apply DecimalPos.Unsigned.to_uint_nonnil.
    cbn [option_map]. f_equal. exact (DecimalZ.of_to (Z.neg p)).
Qed.

Lemma String_of_number_text (z : Z) :
  String.eqb (String_of (JNum z)) "" = false /\
  String.eqb (String_of (JNum z)) "null" = false.
Proof.
  cbn [String_of].
  destruct z as [|p|p]; cbn [Z.to_int NilZero.string_of_int].
  - split; reflexivity.
  - pose proof (DecimalPos.Unsigned.to_uint_nonnil p) as Hp.
    destruct (Pos.to_uint p); [contradiction| ..]; split; reflexivity.
  - split; reflexivity.
Qed.

(** The server reads the id that the client has written. *)
Lemma parseNullableParentId_String_of (z : Z) :
  parseNullableParentId (JStr (String_of (JNum z))) = PId z.
Proof.
  unfold parseNullableParentId.
  destruct (String_of_number_text z) as [H1 H2].
  cbn [jsvalue_eqb]. rewrite H1, H2. cbn [orb].
  now rewrite parseInt_String_of.
Qed.

Lemma getSections_include (role : string) (parentId : jsvalue) (inc : bool) :
  includeInactive role
    (get_prop (getSections_params parentId inc) "include_inactive") =
  String.eqb role "teacher" && inc.
Proof.
  unfold includeInactive, getSections_params.
  destruct inc; cbn; [now rewrite andb_true_r | now rewrite andb_false_r].
Qed.

(** X16.  The request of the client's [getSections] is never answered with
    Invalid parent_id for the values the views pass: [null] and [undefined]
    list the root sections, and the id of a section, written with [String]
    and read back with [Number.parseInt], lists the children of that very
    section; inactive sections are listed only for a teacher who asks for
    them. *)
Theorem client_getSections_decodes (role : string) (inc : bool) (db : table) :
  (forall parentId, nullish parentId = true ->
     api_getSections role parentId inc db =
     Json (map item_of_row
             (select_sections (listed (String.eqb role "teacher" && inc) PNull) db))) /\
  (forall z, Z.abs z < 2 ^ 53 ->
     api_getSections role (JNum z) inc db =
     Json (map item_of_row
             (select_sections (listed (String.eqb role "teacher" && inc) (PId z)) db))).
Proof.
  split.
  - intros parentId Hn. unfold api_getSections, get_sections. cbv zeta.
    rewrite getSections_include.
    unfold getSections_params. rewrite Hn.
    reflexivity.
  - intros z _. unfold api_getSections, get_sections. cbv zeta.
    rewrite getSections_include.
    unfold getSections_params. cbn [nullish].
    change (get_prop (("parent_id", JStr (String_of (JNum z))) :: _) "parent_id")
      with (JStr (String_of (JNum z))).
    rewrite parseNullableParentId_String_of.
    reflexivity.
Qed.

(** ** Navigation of the student view *)

Lemma last_crumb_snoc (path : list crumb) (c : crumb) :
  last_crumb (path ++ [c]) = Some c.
Proof.
  induction path as [|a path IH]; [reflexivity|].
  cbn [app last_crumb]. destruct (path ++ [c]) eqn:E; [|exact IH].
  now destruct path.
Qed.

Lemma last_crumb_none (path : list crumb) : last_crumb path = None -> path = [].
Proof.
  induction path as [|a path IH]; [reflexivity|].
  cbn [last_crumb]. destruct path; [discriminate|]. intros H. now specialize (IH H).
Qed.

Lemma nav_chain_app db parent l1 l2 :
  nav_chain db parent (l1 ++ l2) -> nav_chain db parent l1.
Proof.
  revert parent. induction l1 as [|c l1 IH]; intros parent; cbn; [trivial|].
  intros [H1 H2]. split; [assumption|]. now apply IH.
Qed.

Lemma nav_chain_snoc db parent path c :
  nav_chain db parent path ->
  (exists r, In r db /\ Row.id r = fst c /\ Row.name r = snd c /\ active r = true /\
             Row.parent_id r =
             match last_crumb path with Some l => Some (fst l) | None => parent end) ->
  nav_chain db parent (path ++ [c]).
Proof.
  revert parent. induction path as [|a path IH]; intros parent; cbn [app nav_chain].
  - intros _ H. split; [exact H | exact I].
  - intros [Ha Hp] H. split; [assumption|]. apply IH; [assumption|].
    cbn [last_crumb] in H. destruct path as [|b path]; [exact H|].
    destruct (last_crumb (b :: path)) eqn:E; [exact H|].
    apply last_crumb_none in E. discriminate.
Qed.

Lemma nav_chain_firstn db parent n path :
  nav_chain db parent path -> nav_chain db parent (firstn n path).
Proof.
  intros H. rewrite <- (firstn_skipn n path) in H. eapply nav_chain_app; eassumption.
Qed.

Lemma nav_chain_removelast db parent path :
  nav_chain db parent path -> nav_chain db parent (removelast path).
Proof.
  intros H. destruct path as [|c path]; [exact H|].
  assert (c :: path <> []) as Hne by discriminate.
  rewrite (app_removelast_last c Hne) in H. eapply nav_chain_app; eassumption.
Qed.

(** The answer to the request for the last section of the path. *)
Lemma api_getSections_current role db path :
  api_getSections role (current_id path) false db =
  Json (map item_of_row
          (select_sections
             (listed false
                (match last_crumb path with Some c => PId (fst c) | None => PNull end))
             db)).
Proof.
  unfold api_getSections, get_sections. cbv zeta.
  rewrite getSections_include, andb_false_r.
  unfold getSections_params, current_id.
  destruct (last_crumb path) as [c|]; cbn [nullish].
  - change (get_prop (("parent_id", JStr (String_of (JNum (fst c)))) :: _) "parent_id")
      with (JStr (String_of (JNum (fst c)))).
    rewrite parseNullableParentId_String_of. reflexivity.
  - reflexivity.
Qed.

Lemma showSections_in_sync role db path old :
  in_sync db path (showSections role db (current_id path) path old).
Proof.
  unfold showSections. rewrite api_getSections_current.
  set (P := match last_crumb path with Some c => PId (fst c) | None => PNull end).
  assert (forall r, In r (select_sections (listed false P) db) ->
            In r db /\ active r = true /\
            Row.parent_id r = option_map fst (last_crumb path)) as Hsel.
  { intros r Hr. apply select_sections_In in Hr as [Hin Hl].
    unfold listed in Hl. cbn [orb] in Hl. apply andb_true_iff in Hl as [Ha Hm].
    repeat split; try assumption.
    unfold P, parent_matches in Hm.
    destruct (last_crumb path) as [c|], (Row.parent_id r) as [q|];
      cbn [option_map]; try discriminate; [|reflexivity].
    apply Z.eqb_eq in Hm. now subst. }
  destruct (Nat.eqb (List.length (map item_of_row (select_sections (listed false P) db))) 0
            && negb (nullish (current_id path))) eqn:E.
  - apply andb_true_iff in E as [E1 E2].
    unfold current_id in E2.
    destruct (last_crumb path) as [c|] eqn:L; [|discriminate].
    cbn [showExercises in_sync]. split; [reflexivity|]. split; [exact L|].
    intros r Hin Ha Hp.
    apply Nat.eqb_eq in E1. rewrite length_map in E1.
    apply length_zero_iff_nil in E1.
    assert (In r (select_sections (listed false P) db)) as Hr.
    { apply select_sections_In. split; [assumption|].
      unfold listed, P, parent_matches. rewrite Ha, Hp. cbn [orb andb].
      apply Z.eqb_refl. }
    rewrite E1 in Hr. destruct Hr.
  - cbn [in_sync]. split; [reflexivity|].
    intros item Hi. apply in_map_iff in Hi as (r & <- & Hr).
    destruct (Hsel r Hr) as (Hin & Ha & Hp). eauto.
Qed.

Lemma handle_keeps role db st e st' :
  nav_inv db st -> handle role db st e = Some st' -> nav_inv db st'.
Proof.
  intros [Hc Hs] H.
  assert (nav_inv db (go_back role db st)) as Hback.
  { split; cbn [go_back Nav.sectionPath Nav.shown].
    - now apply nav_chain_removelast.
    - apply showSections_in_sync. }
  assert (forall i, nav_inv db (go_crumb role db i st)) as Hcrumb.
  { intros i. unfold go_crumb. rewrite parseInt_String_of.
    split; cbn [Nav.sectionPath Nav.shown].
    - now apply nav_chain_firstn.
    - apply showSections_in_sync. }
  unfold handle in H.
  destruct e as [k| | |i], (Nav.shown st) as [n secs|n c] eqn:S; try discriminate.
  - destruct (nth_error secs k) as [s|] eqn:N; [|discriminate].
    injection H as <-. cbn [in_sync] in Hs. destruct Hs as [_ Hs].
    destruct (Hs s (nth_error_In _ _ N)) as (r & Hin & <- & Ha & Hp).
    set (c := (Item.id (item_of_row r), Item.name (item_of_row r))).
    assert (current_id (Nav.sectionPath st ++ [c]) = JNum (Item.id (item_of_row r))) as Hcur
      by (unfold current_id; now rewrite last_crumb_snoc).
    split; cbn [Nav.sectionPath Nav.shown].
    + apply nav_chain_snoc; [assumption|].
      exists r. split; [assumption|]. split; [reflexivity|]. split; [reflexivity|].
      split; [assumption|].
      rewrite Hp. now destruct (last_crumb (Nav.sectionPath st)).
    + rewrite <- Hcur. apply showSections_in_sync.
  - destruct (Nat.ltb 0 n); [|discriminate]. now injection H as <-.
  - now injection H as <-.
  - destruct (Nat.ltb i n && negb (Nat.eqb (List.length secs) 0)); [|discriminate].
    injection H as <-. apply Hcrumb.
  - destruct (Nat.ltb i n); [|discriminate]. injection H as <-. apply Hcrumb.
Qed.



(** ** trim *)

Lemma skip_spaces_list (s : string) :
  list_ascii_of_string (skip_spaces s) = drop_spaces (list_ascii_of_string s).
Proof.
  induction s as [|c s IH]; [reflexivity|].
  cbn [skip_spaces list_ascii_of_string drop_spaces].
  destruct (is_space c); [exact IH | reflexivity].
Qed.

Lemma rev_string_list (s acc : string) :
  list_ascii_of_string (rev_string s acc) =
  rev (list_ascii_of_string s) ++ list_ascii_of_string acc.
Proof.
  revert acc. induction s as [|c s IH]; intros acc; [reflexivity|].
  cbn [rev_string list_ascii_of_string rev]. rewrite IH, <- app_assoc. reflexivity.
Qed.

Lemma trim_list (s : string) :
  list_ascii_of_string (trim s) =
  rev (drop_spaces (rev (drop_spaces (list_ascii_of_string s)))).
Proof.
  unfold trim.
  rewrite rev_string_list, skip_spaces_list, rev_string_list, skip_spaces_list.
  cbn [list_ascii_of_string]. now rewrite !app_nil_r.
Qed.

Lemma drop_spaces_clean (l : list ascii) : clean (drop_spaces l).
Proof.
  induction l as [|c l IH]; [exact I|].
  cbn [drop_spaces]. destruct (is_space c) eqn:E; [exact IH | exact E].
Qed.

Lemma drop_spaces_id (l : list ascii) : clean l -> drop_spaces l = l.
Proof. destruct l as [|c l]; [reflexivity|]. cbn. now intros ->. Qed.

Lemma drop_spaces_suffix (l : list ascii) : exists pre, l = pre ++ drop_spaces l.
Proof.
  induction l as [|c l [pre IH]]; [now exists []|].
  cbn [drop_spaces]. destruct (is_space c).
  - exists (c :: pre). cbn. now rewrite <- IH.
  - now exists [].
Qed.

Lemma trim_list_clean (l : list ascii) :
  clean (rev (drop_spaces (rev (drop_spaces l)))).
Proof.
  pose proof (drop_spaces_clean l) as Ha.
  destruct (drop_spaces_suffix (rev (drop_spaces l))) as [pre Hpre].
  set (c := drop_spaces (rev (drop_spaces l))) in *.
  assert (drop_spaces l = rev c ++ rev pre) as E
    by (rewrite <- rev_app_distr, <- Hpre; now rewrite rev_involutive).
  destruct (rev c) as [|x t]; [exact I|].
  rewrite E in Ha. exact Ha.
Qed.

(** A trimmed string is left as it is by [trim]. *)
Lemma trim_idempotent (s : string) : trim (trim s) = trim s.
Proof.
  rewrite <- (string_of_list_ascii_of_string (trim (trim s))).
  rewrite <- (string_of_list_ascii_of_string (trim s)) at 2.
  f_equal. rewrite (trim_list (trim s)), !trim_list.
  rewrite (@drop_spaces_id _ (trim_list_clean (list_ascii_of_string s))), rev_involutive.
  now rewrite (@drop_spaces_id _ (drop_spaces_clean _)).
Qed.

(** ** POST /api/exercises *)

Lemma exercise_lastID_fresh (ex : exercises) :
  ~ In (exercise_lastID ex) (map Exercise.id ex).
Proof.
  unfold exercise_lastID. intros H.
  destruct (fold_max_ge (map Exercise.id ex) 0) as [_ Hmax].
  specialize (Hmax _ H). lia.
Qed.

Lemma existsb_false {A} (f : A -> bool) (l : list A) :
  existsb f l = false -> forall x, In x l -> f x = false.
Proof.
  intros H x Hx. destruct (f x) eqn:E; [|reflexivity].
  rewrite <- H. symmetry. apply existsb_exists. eauto.
Qed.

Lemma supported_In (ty : string) : supported ty = true <-> In ty SUPPORTED_EXERCISE_TYPES.
Proof.
  unfold supported. rewrite existsb_exists. split.
  - intros (x & Hx & E). apply String.eqb_eq in E. now subst.
  - intros H. exists ty. split; [assumption | apply String.eqb_refl].
Qed.

(** X18.  POST /api/exercises either answers 403 or 400 and leaves the table
    as it is, or appends one exercise under a new id for a teacher: its
    section is a row of the sections table, its type is supported, its
    sentence is not empty, and it has four options that are not blank and a
    correct index from 0 to 3 when it is a multiple choice, no option and
    the index -1 otherwise. *)
Theorem post_exercise_stores_valid
    (role : string) (body : exercise_body) (db : table) (ex : exercises) :
  (exists e,
     post_exercise role body db ex = (ex ++ [e], Json (Exercise.id e)) /\
     role = "teacher" /\
     exercise_ok db e /\
     ~ In (Exercise.id e) (map Exercise.id ex)) \/
  (exists status msg,
     post_exercise role body db ex = (ex, Error status msg) /\
     (status = 400 \/ status = 403)).
Proof.
  unfold post_exercise.
  destruct (String.eqb role "teacher") eqn:R; cbn [negb];
    [|right; eauto 6].
  apply String.eqb_eq in R. cbv zeta.
  set (sentence := trim (String_of (js_or (body_sentence body) (JStr "")))).
  set (exerciseType :=
         trim (String_of (js_or (js_or (body_exercise_type body) (body_exerciseType body))
                            (JStr "")))).
  destruct (parseInt (js_coalesce (body_section_id body) (body_sectionId body)))
    as [sectionId|]; [|right; eauto 6].
  destruct (String.eqb sentence "") eqn:Es; cbn [orb]; [right; eauto 6|].
  destruct (String.eqb exerciseType "") eqn:Et; [right; eauto 6|].
  destruct (supported exerciseType) eqn:Su; cbn [negb]; [|right; eauto 6].
  destruct (section_exists sectionId db) eqn:Se; cbn [negb]; [|right; eauto 6].
  apply supported_In in Su. apply String.eqb_neq in Es.
  set (options := match body_options body with Some l => l | None => [] end).
  destruct (String.eqb exerciseType "multiple_choice") eqn:Mc.
  - destruct (Nat.eqb (List.length options) 4) eqn:L; cbn [negb orb];
      [|right; eauto 6].
    destruct (existsb blank options) eqn:B; [right; eauto 6|].
    destruct (parseInt (body_correctIndex body)) as [c|]; [|right; eauto 6].
    destruct (c <? 0) eqn:C0; cbn [orb]; [right; eauto 6|].
    destruct (3 <? c) eqn:C3; [right; eauto 6|].
    left.
    exists (Exercise.mk (exercise_lastID ex) sentence options c (Some sectionId) exerciseType).
    split; [reflexivity|]. split; [assumption|].
    split; [|apply exercise_lastID_fresh].
    unfold exercise_ok.
    cbn [Exercise.section_id Exercise.exercise_type Exercise.sentence Exercise.options
         Exercise.correct_index].
    rewrite Mc. apply Nat.eqb_eq in L.
    pose proof (existsb_false _ _ B) as Hb.
    split; [now exists sectionId|].
    repeat split; try assumption; lia.
  - left.
    exists (Exercise.mk (exercise_lastID ex) sentence [] (-1) (Some sectionId) exerciseType).
    split; [reflexivity|]. split; [assumption|].
    split; [|apply exercise_lastID_fresh].
    unfold exercise_ok.
    cbn [Exercise.section_id Exercise.exercise_type Exercise.sentence Exercise.options
         Exercise.correct_index].
    rewrite Mc. split; [now exists sectionId|]. repeat split; assumption.
Qed.

(** ** The form of the teacher view and the route *)

(** The ids of the tree a teacher loads are ids of rows of the table. *)
Lemma teacher_tree_ids (db : table) (nodes : list Node.t) (k : Z) :
  api_getSectionsTree "teacher" true db = Json nodes ->
  In k (forest_ids nodes) -> section_exists k db = true.
Proof.
  unfold api_getSectionsTree, get_sections_tree. cbn [get_prop String.eqb Ascii.eqb Bool.eqb].
  change (includeInactive "teacher" (JStr "1")) with true. cbv zeta.
  unfold buildTree.
  destruct (buildSectionsTree (tree_rows true db)) as [forest|] eqn:H; [|discriminate].
  intros [= <-] Hk.
  rewrite buildSectionsTree_forest_of in H.
  apply (forest_ids_path (index_rows_wf _) H) in Hk as [pk Hpk].
  destruct (path_head Hpk) as [l ->].
  assert (In k (map_keys (index_rows (tree_rows true db)))) as Hin
    by (apply (path_keys Hpk); now left).
  apply index_rows_keys, in_map_iff in Hin as (r & Hr & Hin).
  apply tree_rows_In in Hin as [Hin _].
  apply section_exists_In. eauto.
Qed.

(** The value selected parses to the id of a node of the tree rendered. *)
Lemma option_value_id (nodes : list Node.t) (v : string) (id : Z) :
  In v (option_values nodes) -> parseInt (JStr v) = Some id ->
  In id (forest_ids nodes) /\ v = String_of (JNum id).
Proof.
  unfold option_values. cbv zeta.
  destruct (Nat.eqb (List.length (flattenSections nodes 0 [])) 0).
  - intros [<-|[]]. discriminate.
  - intros Hv Hp. apply in_map_iff in Hv as (item & <- & Hitem).
    assert (In (get_prop item "id") (map JNum (forest_ids nodes))) as Hid.
    { rewrite <- (preorder_forest_ids nodes 0).
      rewrite flattenSections_append in Hitem. cbn [app] in Hitem.
      apply in_map_iff. eauto. }
    apply in_map_iff in Hid as (k & Hk & Hin). rewrite <- Hk in Hp |- *.
    rewrite parseInt_String_of in Hp. injection Hp as <-. now split.
Qed.

Lemma trim_supported (ty : string) : In ty SUPPORTED_EXERCISE_TYPES -> trim ty = ty.
Proof. intros [<-|[<-|[<-|[]]]]; reflexivity. Qed.

(** X19.  What the form of the teacher view sends is what the route stores.
    When the select holds the value of an option rendered from the tree the
    teacher has loaded, the type is one of the three of its select, and the
    click passes the checks of the form, POST /api/exercises answers with a
    new id and no error: the exercise stored has the trimmed sentence, the
    type, the options and the index of the payload, and its section is the
    section of the selected option, a row of the table. *)
Theorem teacher_form_is_accepted
    (db : table) (ex : exercises) (nodes : list Node.t) (f : form) (p : payload) :
  api_getSectionsTree "teacher" true db = Json nodes ->
  In (sectionSelect_value f) (option_values nodes) ->
  In (exerciseType_value f) SUPPORTED_EXERCISE_TYPES ->
  add_click f = inr p ->
  exists e,
    api_addExercise "teacher" p db ex = (ex ++ [e], Json (Exercise.id e)) /\
    Exercise.sentence e = trim (sentence_value f) /\
    Exercise.exercise_type e = exerciseType_value f /\
    Exercise.section_id e = Some (payload_section_id p) /\
    sectionSelect_value f = String_of (JNum (payload_section_id p)) /\
    In (payload_section_id p) (forest_ids nodes) /\
    section_exists (payload_section_id p) db = true /\
    Exercise.options e =
      match payload_options p with Some l => map JStr l | None => [] end /\
    Exercise.correct_index e =
      match payload_correctIndex p with Some c => c | None => -1 end.
Proof.
  intros Htree Hsel Hty Hclick.
  unfold add_click in Hclick.
  destruct (parseInt (JStr (sectionSelect_value f))) as [sid|] eqn:Hsid; [|discriminate].
  destruct (@option_value_id _ _ _ Hsel Hsid) as [Hin Hv].
  pose proof (@teacher_tree_ids _ _ _ Htree Hin) as Hex.
  destruct (String.eqb (trim (sentence_value f)) "") eqn:Hs; [discriminate|].
  assert (supported (exerciseType_value f) = true) as Hsup by now apply supported_In.
  assert (String.eqb (exerciseType_value f) "" = false) as Hne
    by (destruct Hty as [<-|[<-|[<-|[]]]]; reflexivity).
  unfold api_addExercise, post_exercise.
  cbn [String.eqb Ascii.eqb Bool.eqb negb]. cbv zeta.
  assert (forall q, body_of_payload q =
            mkExercise (JStr (payload_sentence q)) (JNum (payload_section_id q)) JUndefined
              (JStr (payload_exercise_type q)) JUndefined
              (option_map (map JStr) (payload_options q))
              (match payload_correctIndex q with Some c => JNum c | None => JUndefined end))
    as Hbody by reflexivity.
  assert (js_or (JStr (trim (sentence_value f))) (JStr "") =
          JStr (trim (sentence_value f))) as Hj1
    by (unfold js_or; cbn [truthy]; now rewrite Hs).
  assert (js_or (js_or (JStr (exerciseType_value f)) JUndefined) (JStr "") =
          JStr (exerciseType_value f)) as Hj2
    by (unfold js_or; cbn [truthy]; rewrite Hne; cbn [negb truthy]; now rewrite Hne).
  destruct (String.eqb (exerciseType_value f) "multiple_choice") eqn:Mc.
  - set (options := map trim [opt1_value f; opt2_value f; opt3_value f; opt4_value f]) in *.
    destruct (existsb (fun v => String.eqb v "") options) eqn:B; [discriminate|].
    destruct (option_map (fun c => c - 1) (parseInt (JStr (correct_value f))))
      as [c|] eqn:C; [|discriminate].
    destruct ((c <? 0) || (3 <? c)) eqn:R; [discriminate|].
    injection Hclick as <-. rewrite Hbody.
    cbn [body_sentence body_section_id body_sectionId body_exercise_type body_exerciseType
         body_options body_correctIndex payload_sentence payload_section_id
         payload_exercise_type payload_options payload_correctIndex option_map
         js_or js_coalesce truthy nullish parseInt String_of].
    rewrite Hj1, Hj2. cbn [String_of]. rewrite trim_idempotent, (@trim_supported _ Hty).
    rewrite Hs, Hne, Hsup, Hex, Mc. cbn [orb negb].
    assert (existsb blank (map JStr options) = false) as Hb.
    { destruct (existsb blank (map JStr options)) eqn:E; [|reflexivity].
      apply existsb_exists in E as (x & Hx & E).
      apply in_map_iff in Hx as (o & <- & Ho).
      unfold options in Ho. apply in_map_iff in Ho as (o' & <- & Ho').
      unfold blank in E. cbn [String_of] in E. rewrite trim_idempotent in E.
      rewrite <- B. symmetry. apply existsb_exists. exists (trim o').
      split; [|assumption]. apply in_map_iff. exists o'. now split. }
    rewrite length_map. change (List.length options) with 4%nat.
    cbn [Nat.eqb negb orb]. rewrite Hb, R.
    exists (Exercise.mk (exercise_lastID ex) (trim (sentence_value f)) (map JStr options) c
              (Some sid) (exerciseType_value f)).
    repeat split; assumption.
  - injection Hclick as <-. rewrite Hbody.
    cbn [body_sentence body_section_id body_sectionId body_exercise_type body_exerciseType
         body_options body_correctIndex payload_sentence payload_section_id
         payload_exercise_type payload_options payload_correctIndex option_map
         js_or js_coalesce truthy nullish parseInt String_of].
    rewrite Hj1, Hj2. cbn [String_of]. rewrite trim_idempotent, (@trim_supported _ Hty).
    rewrite Hs, Hne, Hsup, Hex, Mc. cbn [orb negb].
    exists (Exercise.mk (exercise_lastID ex) (trim (sentence_value f)) [] (-1)
              (Some sid) (exerciseType_value f)).
    repeat split; assumption.
Qed.

Lemma teacher_form_is_accepted_witness :
  exists nodes,
    api_getSectionsTree "teacher" true scenario_rows = Json nodes /\
    exists e,
      api_addExercise "teacher"
        (mkPayload "She ___ tea." 2 "multiple_choice"
           (Some ["drink"; "drinks"; "drank"; "drunk"]) (Some 1))
        scenario_rows [] = ([] ++ [e], Json (Exercise.id e)) /\
      Exercise.sentence e = trim " She ___ tea. " /\
      Exercise.exercise_type e = "multiple_choice" /\
      Exercise.section_id e = Some 2 /\
      "2" = String_of (JNum 2) /\
      In 2 (forest_ids nodes) /\
      section_exists 2 scenario_rows = true /\
      Exercise.options e = map JStr ["drink"; "drinks"; "drank"; "drunk"] /\
      Exercise.correct_index e = 1.
Proof.
  eexists. split; [vm_compute; reflexivity|].
  apply (@teacher_form_is_accepted scenario_rows [] _
           (mkForm "2" "multiple_choice" " She ___ tea. "
              "drink" " drinks" "drank " "drunk" "2")).
  - vm_compute. reflexivity.
  - vm_compute. tauto.
  - cbn. tauto.
  - vm_compute. reflexivity.
Defined.

(** ** Exercises and the section routes *)

Lemma section_exists_app (i : Z) (db db' : table) :
  section_exists i db = true -> section_exists i (db ++ db') = true.
Proof.
  unfold section_exists. rewrite existsb_app. now intros ->.
Qed.

Lemma section_exists_update (i : Z) updates id (db : table) :
  section_exists i (sql_update updates id db) = section_exists i db.
Proof. apply section_exists_ids, sql_update_ids, assign_id. Qed.

Lemma patch_section_keeps_sections role id body now db i :
  section_exists i db = true ->
  section_exists i (fst (patch_section role id body now db)) = true.
Proof.
  intros H. unfold patch_section.
  destruct (negb (String.eqb role "teacher")); [exact H|].
  destruct (parseInt (JStr id)) as [sectionId|]; [|exact H].
  destruct (negb (section_exists sectionId db)); [exact H|].
  destruct (andthen _ _) as [e|[|a updates]]; cbn [fst]; try exact H.
  now rewrite section_exists_update.
Qed.

Lemma delete_section_keeps_sections role id now db i :
  section_exists i db = true ->
  section_exists i (fst (delete_section role id now db)) = true.
Proof.
  intros H. unfold delete_section.
  destruct (negb (String.eqb role "teacher")); [exact H|].
  destruct (parseInt (JStr id)) as [sectionId|]; [|exact H].
  cbv zeta. destruct (Nat.eqb _ 0); cbn [fst]; now rewrite section_exists_update.
Qed.

Lemma post_section_keeps_sections role body now db i :
  section_exists i db = true ->
  section_exists i (fst (post_section role body now db)) = true.
Proof.
  intros H.
  destruct (post_section_cases role body now db)
    as [(status & error & ->)|(name & o & a & _ & _ & _ & _ & _ & ->)]; cbn [fst].
  - exact H.
  - now apply section_exists_app.
Qed.

(** X20.  No route and no seeding takes a section away from an exercise:
    what POST /api/exercises has stored keeps its shape and its section is
    still a row of the table after PATCH, DELETE and POST on the sections
    and after [seedSections], whoever calls them and whatever they
    answer. *)
Theorem exercises_keep_their_section (db : table) (e : Exercise.t) :
  exercise_ok db e ->
  (forall role id body now, exercise_ok (fst (patch_section role id body now db)) e) /\
  (forall role id now, exercise_ok (fst (delete_section role id now db)) e) /\
  (forall role body now, exercise_ok (fst (post_section role body now db)) e) /\
  (forall clock, exercise_ok (fst (seedSections clock db)) e).
Proof.
  intros ((s & Hid & Hs) & Hrest).
  split; [|split; [|split]]; intros;
    (split; [exists s; split; [exact Hid|] | exact Hrest]).
  - now apply patch_section_keeps_sections.
  - now apply delete_section_keeps_sections.
  - now apply post_section_keeps_sections.
  - destruct (seedSections clock db) as [db' i] eqn:E.
    destruct (@seed_keeps _ _ _ _ E) as (_ & Hm & _). now apply Hm.
Qed.

Lemma exercises_keep_their_section_witness :
  (forall role id body now,
     exercise_ok (fst (patch_section role id body now scenario_rows))
       (Exercise.mk 1 "She ___ tea." [] (-1) (Some 2) "text_input")) /\
  (forall role id now,
     exercise_ok (fst (delete_section role id now scenario_rows))
       (Exercise.mk 1 "She ___ tea." [] (-1) (Some 2) "text_input")) /\
  (forall role body now,
     exercise_ok (fst (post_section role body now scenario_rows))
       (Exercise.mk 1 "She ___ tea." [] (-1) (Some 2) "text_input")) /\
  (forall clock,
     exercise_ok (fst (seedSections clock scenario_rows))
       (Exercise.mk 1 "She ___ tea." [] (-1) (Some 2) "text_input")).
Proof.
  apply (@exercises_keep_their_section scenario_rows
           (Exercise.mk 1 "She ___ tea." [] (-1) (Some 2) "text_input")).
  unfold exercise_ok. cbn. split; [now exists 2|].
  repeat split; try tauto. discriminate.
Defined.

(** ** initDb: the exercises after the migration *)

Lemma found_exists n p (db : table) i : found n p db = Some i -> section_exists i db = true.
Proof.
  unfold found. destruct (find (same_section n p) db) as [r|] eqn:E; [|discriminate].
  intros [= <-]. apply find_some in E as [Hin _]. apply section_exists_In. eauto.
Qed.

Lemma migrateExercises_In d ex e' :
  In e' (migrateExercises d ex) ->
  exists e,
    In e ex /\
    e' = Exercise.mk (Exercise.id e) (Exercise.sentence e) (Exercise.options e)
           (Exercise.correct_index e)
           (Some (match Exercise.section_id e with Some s => s | None => d end))
           (if String.eqb (Exercise.exercise_type e) "" then "multiple_choice"
            else Exercise.exercise_type e).
Proof.
  unfold migrateExercises. intros H.
  apply in_map_iff in H as (e1 & <- & H). apply in_map_iff in H as (e & <- & H).
  exists e. split; [assumption|].
  destruct e as [i s o c [sec|] ty];
    cbn [Exercise.exercise_type Exercise.id Exercise.section_id Exercise.sentence
         Exercise.options Exercise.correct_index];
    destruct (String.eqb ty ""); reflexivity.
Qed.

(** X21.  As [initDb] runs them, [seedSections] followed by
    [migrateExercises] with the id it returns leaves no exercise without a
    section or a type, whatever the exercises table holds when the
    migration runs.  The id passed on is a row of the sections table.  The
    migration keeps the exercises and their ids, sentences, options and
    indexes; an exercise keeps the section it had and gets the id passed on
    when it had none; it keeps its type and gets multiple_choice when the
    type was empty.  When the section ids that were set named rows of the
    table before the seeding, every section id names a row of the table
    afterwards.  Migrating twice is migrating once. *)
Theorem migrateExercises_attaches_exercises
    (clock : nat -> string) (db : table) (ex : exercises) :
  section_exists (snd (seedSections clock db)) (fst (seedSections clock db)) = true /\
  map Exercise.id (migrateExercises (snd (seedSections clock db)) ex) =
    map Exercise.id ex /\
  (forall e', In e' (migrateExercises (snd (seedSections clock db)) ex) ->
     Exercise.exercise_type e' <> "" /\
     exists e,
       In e ex /\
       Exercise.id e' = Exercise.id e /\
       Exercise.sentence e' = Exercise.sentence e /\
       Exercise.options e' = Exercise.options e /\
       Exercise.correct_index e' = Exercise.correct_index e /\
       Exercise.section_id e' =
         Some (match Exercise.section_id e with
               | Some s => s
               | None => snd (seedSections clock db)
               end) /\
       Exercise.exercise_type e' =
         (if String.eqb (Exercise.exercise_type e) "" then "multiple_choice"
          else Exercise.exercise_type e)) /\
  ((forall e s, In e ex -> Exercise.section_id e = Some s ->
                section_exists s db = true) ->
   forall e', In e' (migrateExercises (snd (seedSections clock db)) ex) ->
     exists s, Exercise.section_id e' = Some s /\
               section_exists s (fst (seedSections clock db)) = true) /\
  migrateExercises (snd (seedSections clock db))
    (migrateExercises (snd (seedSections clock db)) ex) =
  migrateExercises (snd (seedSections clock db)) ex.
Proof.
  destruct (seedSections clock db) as [db1 ps] eqn:E. cbn [fst snd].
  assert (section_exists ps db1 = true) as Hps.
  { destruct (@seed_chain _ _ _ _ E) as (g & pt & _ & _ & Hf).
    eapply found_exists; eassumption. }
  destruct (@seed_keeps _ _ _ _ E) as (_ & Hkeep & _).
  split; [assumption|]. split; [|split; [|split]].
  - unfold migrateExercises. rewrite !map_map. apply map_ext. intros e.
    destruct (Exercise.section_id e);
      cbn [Exercise.exercise_type Exercise.id];
      match goal with |- context [if ?c then _ else _] => destruct c end; reflexivity.
  - intros e' He'. destruct (migrateExercises_In _ _ _ He') as (e & He & ->).
    cbn [Exercise.exercise_type Exercise.id Exercise.section_id Exercise.sentence
         Exercise.options Exercise.correct_index].
    split.
    + destruct (String.eqb (Exercise.exercise_type e) "") eqn:Et; [discriminate|].
      now apply String.eqb_neq.
    + exists e. repeat split; assumption.
  - intros Hok e' He'. destruct (migrateExercises_In _ _ _ He') as (e & He & ->).
    cbn [Exercise.section_id]. eexists. split; [reflexivity|].
    destruct (Exercise.section_id e) as [s|] eqn:Es; [|assumption].
    apply Hkeep. eapply Hok; eassumption.
  - unfold migrateExercises. rewrite !map_map. apply map_ext. intros e.
    destruct e as [i s o c [sec|] ty];
      cbn [Exercise.exercise_type Exercise.id Exercise.section_id Exercise.sentence
           Exercise.options Exercise.correct_index];
      destruct (String.eqb ty "") eqn:Et;
      cbn [Exercise.exercise_type Exercise.id Exercise.section_id Exercise.sentence
           Exercise.options Exercise.correct_index];
      rewrite ?Et; reflexivity.
Qed.

(** * Registration: the validators *)

Lemma ustring_eqb_eq (a b : ustring) : ustring_eqb a b = true <-> a = b.
Proof.
  revert b. induction a as [|x a IH]; intros [|y b]; cbn [ustring_eqb];
    try (split; [discriminate | discriminate]); [tauto|].
  rewrite andb_true_iff, N.eqb_eq, IH. split.
  - now intros [-> ->].
  - now intros [= -> ->].
Qed.

Section Regex.
Variable k : ustring -> bool.
Variable P : ustring -> Prop.
Hypothesis k_spec : forall v, k v = true <-> P v.

Lemma re_plus_spec cls s :
  re_plus cls k s = true <->
  exists u v, s = u ++ v /\ u <> [] /\ forallb cls u = true /\ P v.
Proof.
  induction s as [|x s IH]; cbn [re_plus].
  - split; [discriminate|]. intros (u & v & E & Hu & _).
    destruct u; [contradiction | discriminate].
  - rewrite andb_true_iff, orb_true_iff, IH, k_spec. split.
    + intros [Hx [Hk|(u & v & -> & Hu & Hc & Hv)]].
      * exists [x], s. cbn. rewrite Hx. repeat split; [discriminate | assumption].
      * exists (x :: u), v. cbn. rewrite Hx, Hc. repeat split; [discriminate | assumption].
    + intros (u & v & E & Hu & Hc & Hv).
      destruct u as [|y u]; [contradiction|].
      cbn in E, Hc. injection E as -> ->. apply andb_true_iff in Hc as [Hx Hc].
      split; [assumption|].
      destruct u as [|z u]; [now left|]. right.
      exists (z :: u), v. repeat split; [discriminate | assumption | assumption].
Qed.

Lemma re_between_spec cls lo hi s :
  forall n, (n <= hi)%nat ->
  re_between cls lo hi k s n = true <->
  exists u v, s = u ++ v /\ (lo <= n + List.length u <= hi)%nat /\
              forallb cls u = true /\ P v.
Proof.
  induction s as [|x s IH]; intros n Hn; cbn [re_between].
  - rewrite orb_false_r, andb_true_iff, Nat.leb_le, k_spec. split.
    + intros [Hlo Hk]. exists [], []. cbn. repeat split; try assumption; lia.
    + intros (u & v & E & Hlen & _ & Hv).
      symmetry in E. apply app_eq_nil in E as [-> ->]. cbn in Hlen. split; [lia | assumption].
  - rewrite orb_true_iff, !andb_true_iff, Nat.leb_le, Nat.ltb_lt, k_spec. split.
    + intros [[Hlo Hk]|[[Hlt Hx] Hr]].
      * exists [], (x :: s). cbn. repeat split; try assumption; lia.
      * apply IH in Hr as (u & v & -> & Hlen & Hc & Hv); [|lia].
        exists (x :: u), v. cbn [app forallb List.length]. rewrite Hx, Hc.
        repeat split; try assumption; lia.
    + intros (u & v & E & Hlen & Hc & Hv).
      destruct u as [|y u].
      * cbn in E. subst v. left. cbn in Hlen. split; [lia | assumption].
      * cbn in E, Hc, Hlen. injection E as -> ->.
        apply andb_true_iff in Hc as [Hx Hc]. right.
        split; [split; [lia | assumption]|].
        apply IH; [lia|]. exists u, v. repeat split; try assumption; lia.
Qed.
End Regex.

(** The test of the model accepts what the regular expression describes. *)
Lemma regex_test_spec re : forall s, regex_test re s = true <-> accepts re s.
Proof.
  induction re as [|a re IH]; intros s; cbn [regex_test accepts].
  - destruct s; split; congruence.
  - destruct a as [c|cls|cls lo hi].
    + destruct s as [|x s].
      * split; [discriminate | intros (s' & E & _); discriminate].
      * rewrite andb_true_iff, N.eqb_eq, IH. split.
        -- intros [-> H]. eauto.
        -- intros (s' & [= -> ->] & H). auto.
    + apply (@re_plus_spec _ _ IH).
    + rewrite (@re_between_spec _ _ IH cls lo hi s 0%nat) by lia. cbn [Nat.add]. reflexivity.
Qed.

Lemma email_chars (u : ustring) :
  forallb re_email_char u = true <->
  forallb (fun c => negb (re_space c)) u = true /\ ~ In 64%N u.
Proof.
  induction u as [|c u IH]; cbn [forallb In]; [tauto|].
  rewrite !andb_true_iff, IH. unfold re_email_char.
  destruct (re_space c), (N.eqb_spec c 64); cbn [orb negb];
    intuition (try discriminate; try congruence).
Qed.

(** X22.  [isValidEmail] accepts exactly the strings without white space
    that have one at sign, something before it, and after it a domain with
    a dot that is neither its first nor its last character. *)
Theorem isValidEmail_spec (email : ustring) :
  isValidEmail email = true <->
  forallb (fun c => negb (re_space c)) email = true /\
  exists local domain,
    email = local ++ 64%N :: domain /\
    local <> [] /\ ~ In 64%N local /\ ~ In 64%N domain /\
    exists a b, domain = a ++ 46%N :: b /\ a <> [] /\ b <> [].
Proof.
  unfold isValidEmail. rewrite regex_test_spec. cbn [accepts]. split.
  - intros (l & v1 & -> & Hl & Hcl & s1 & -> & d1 & v2 & -> & Hd1 & Hc1 &
            s2 & -> & d2 & v3 & -> & Hd2 & Hc2 & ->).
    rewrite app_nil_r.
    apply email_chars in Hcl as [Sl Al], Hc1 as [S1 A1], Hc2 as [S2 A2].
    split.
    + rewrite forallb_app. cbn [forallb]. rewrite forallb_app. cbn [forallb].
      now rewrite Sl, S1, S2.
    + exists l, (d1 ++ 46%N :: d2). repeat split; try assumption.
      * intros H. apply in_app_iff in H as [H|[H|H]]; [auto | discriminate | auto].
      * exists d1, d2. now repeat split.
  - intros (Hs & l & domain & -> & Hl & Al & Ad & a & b & -> & Ha & Hb).
    rewrite forallb_app in Hs. cbn [forallb] in Hs. rewrite forallb_app in Hs.
    cbn [forallb] in Hs.
    apply andb_true_iff in Hs as [Sl Hs]. apply andb_true_iff in Hs as [_ Hs].
    apply andb_true_iff in Hs as [Sa Hs]. apply andb_true_iff in Hs as [_ Sb].
    exists l, (64%N :: a ++ 46%N :: b). repeat split; try assumption.
    + apply email_chars. now split.
    + exists (a ++ 46%N :: b). split; [reflexivity|].
      exists a, (46%N :: b). repeat split; try assumption.
      * apply email_chars. split; [assumption|]. intros H. apply Ad, in_app_iff. now left.
      * exists b. split; [reflexivity|].
        exists b, []. rewrite app_nil_r. repeat split; try assumption.
        apply email_chars. split; [assumption|].
        intros H. apply Ad, in_app_iff. right. now right.
Qed.

Lemma reserved_In (lower : ustring) :
  existsb (ustring_eqb lower) RESERVED_NICKNAMES = true <-> In lower RESERVED_NICKNAMES.
Proof.
  rewrite existsb_exists. split.
  - intros (x & Hx & E). apply ustring_eqb_eq in E. now subst.
  - intros H. exists lower. split; [assumption | now apply ustring_eqb_eq].
Qed.

(** X23.  [validateNickname] returns [null] exactly for the strings of 3 to
    20 letters, digits and underscores whose lower case is no reserved
    word.  It returns one and the same message for every other string and
    for every falsy value, and it throws for a truthy value that is not a
    string.  Of [toLowerCase] only its values on strings of letters, digits
    and underscores matter. *)
Theorem validateNickname_spec
    (toLowerCase : ustring -> ustring) (nickname : field) :
  (forall s, forallb re_word s = true -> toLowerCase s = map lower_ascii s) ->
  (validateNickname toLowerCase nickname = Returns None <->
   exists s, nickname = Text s /\
     (3 <= List.length s <= 20)%nat /\
     forallb re_word s = true /\
     ~ In (map lower_ascii s) RESERVED_NICKNAMES) /\
  (validateNickname toLowerCase nickname = Throws <-> nickname = Other true) /\
  (validateNickname toLowerCase nickname = Returns None \/
   validateNickname toLowerCase nickname = Throws \/
   validateNickname toLowerCase nickname =
     Returns (Some "Никнейм содержит недопустимые символы или запрещённое слово")).
Proof.
  intros Hlower.
  assert (forall s, regex_test [Between re_word 3 20] s = true <->
                    (3 <= List.length s <= 20)%nat /\ forallb re_word s = true) as Hre.
  { intros s. rewrite regex_test_spec. cbn [accepts]. split.
    - intros (u & v & -> & Hlen & Hc & ->). rewrite app_nil_r. now split.
    - intros [Hlen Hc]. exists s, []. rewrite app_nil_r. now repeat split. }
  split; [|split].
  - unfold validateNickname. destruct nickname as [[|c s]|[|]].
    + split; [discriminate|]. intros (s & [= <-] & Hlen & _). cbn in Hlen. lia.
    + cbv zeta.
      destruct (regex_test [Between re_word 3 20] (c :: s)) eqn:R.
      * apply Hre in R as [Hlen Hc]. rewrite (Hlower _ Hc).
        destruct (existsb (ustring_eqb (map lower_ascii (c :: s))) RESERVED_NICKNAMES)
          eqn:E; cbn [negb].
        -- apply reserved_In in E. split; [discriminate|].
           intros (s' & [= <-] & _ & _ & Hn). contradiction.
        -- split; [|reflexivity]. intros _. exists (c :: s).
           repeat split; try assumption; try lia.
           intros H. apply reserved_In in H. congruence.
      * split.
        -- destruct (existsb _ RESERVED_NICKNAMES); discriminate.
        -- intros (s' & [= <-] & Hlen & Hc & _).
           assert (regex_test [Between re_word 3 20] (c :: s) = true) as R'
             by (apply Hre; now split).
           congruence.
    + split; [discriminate|]. intros (s & E & _). discriminate.
    + split; [discriminate|]. intros (s & E & _). discriminate.
  - unfold validateNickname. destruct nickname as [[|c s]|[|]].
    + split; discriminate.
    + cbv zeta. destruct (existsb _ RESERVED_NICKNAMES); [split; discriminate|].
      destruct (negb _); split; discriminate.
    + split; reflexivity.
    + split; discriminate.
  - unfold validateNickname. destruct nickname as [[|c s]|[|]];
      [now right; right| |now right; left|now right; right].
    cbv zeta. destruct (existsb _ RESERVED_NICKNAMES); [now right; right|].
    destruct (regex_test [Between re_word 3 20] (c :: s)); cbn [negb];
      [now left | now right; right].
Qed.

Lemma validateNickname_spec_witness :
  (validateNickname (map lower_ascii) (Text (codes "Yuna_42")) = Returns None <->
   exists s, Text (codes "Yuna_42") = Text s /\
     (3 <= List.length s <= 20)%nat /\
     forallb re_word s = true /\
     ~ In (map lower_ascii s) RESERVED_NICKNAMES) /\
  (validateNickname (map lower_ascii) (Text (codes "Yuna_42")) = Throws <->
   Text (codes "Yuna_42") = Other true) /\
  (validateNickname (map lower_ascii) (Text (codes "Yuna_42")) = Returns None \/
   validateNickname (map lower_ascii) (Text (codes "Yuna_42")) = Throws \/
   validateNickname (map lower_ascii) (Text (codes "Yuna_42")) =
     Returns (Some "Никнейм содержит недопустимые символы или запрещённое слово")).
Proof.
  apply (@validateNickname_spec (map lower_ascii) (Text (codes "Yuna_42"))).
  intros s _. reflexivity.
Defined.

Example validator_examples :
  isValidEmail (codes "student@example.com") = true /\
  isValidEmail (codes "a@b") = false /\
  isValidEmail (codes "a b@c.d") = false /\
  isValidEmail (codes "a@b@c.d") = false /\
  isValidEmail (codes "a@.b.c") = true /\
  validateNickname (map lower_ascii) (Text (codes "Yuna")) <> Returns None /\
  validateNickname (map lower_ascii) (Text (codes "Yuna_42")) = Returns None /\
  validateNickname (map lower_ascii) (Text (codes "ab")) <> Returns None /\
  validateNickname (map lower_ascii) (Other true) = Throws /\
  validateNickname (map lower_ascii) (Other false) <> Returns None.
Proof. repeat split; try reflexivity; discriminate. Qed.

(** ** The student view and the tree *)

Lemma reachable_nav_inv role db st : reachable role db st -> nav_inv db st.
Proof.
  induction 1 as [|st e st' _ IH H].
  - split; cbn [renderStudentView Nav.sectionPath Nav.shown nav_chain]; [exact I|].
    apply (showSections_in_sync role db [] (SectionList 0 [])).
  - eapply handle_keeps; eassumption.
Qed.

Lemma last_crumb_In (path : list crumb) (c : crumb) : last_crumb path = Some c -> In c path.
Proof.
  induction path as [|a path IH]; [discriminate|].
  cbn [last_crumb]. destruct path as [|b path].
  - intros [= <-]. now left.
  - intros H. right. now apply IH.
Qed.

(** Every element of a chain is an active row whose parent is the start of
    the chain or an element of the chain. *)
Lemma nav_chain_In db parent path c :
  nav_chain db parent path -> In c path ->
  exists r, In r db /\ Row.id r = fst c /\ active r = true /\
            (Row.parent_id r = parent \/
             exists c0, In c0 path /\ Row.parent_id r = Some (fst c0)).
Proof.
  revert parent. induction path as [|a path IH]; intros parent; [intros _ []|].
  cbn [nav_chain]. intros [(r & Hr & Hid & _ & Ha & Hp) Hrest] [<-|Hc].
  - exists r. repeat split; try assumption. now left.
  - destruct (IH _ Hrest Hc) as (r' & Hr' & Hid' & Ha' & [Hp'|(c0 & Hc0 & Hp')]).
    + exists r'. repeat split; try assumption. right. exists a. split; [now left | assumption].
    + exists r'. repeat split; try assumption. right. exists c0. split; [now right | assumption].
Qed.

(** An active section under an inactive one is a root of the tree of the
    active rows. *)
Lemma inactive_parent_promotes (db : table) r q :
  NoDup (map Row.id db) ->
  In r db -> active r = true -> In q db -> active q = false ->
  Row.parent_id r = Some (Row.id q) ->
  exists forest, buildTree false db = Some forest /\ In (Row.id r) (map Node.id forest).
Proof.
  intros ND Hr Ha Hq Hqa Hp. unfold buildTree.
  destruct (buildSectionsTree_total (tree_rows false db)) as [fF HF].
  exists fF. split; [assumption|].
  rewrite buildSectionsTree_forest_of in HF.
  apply (forest_roots (index_rows_wf _) HF). exists (node_of_row r).
  split; [now apply filtered_get|].
  unfold is_root_b. simpl. rewrite Hp.
  destruct (map_has (Row.id q) (index_rows (tree_rows false db))) eqn:E; [|reflexivity].
  apply map_has_keys, filtered_key in E as (q' & Hq' & Hqa' & E).
  assert (q' = q) as -> by (eapply NoDup_ids_inj; eassumption).
  congruence.
Qed.

(** X24.  The tree and the student view disagree on the sections under an
    inactive one.  Over a table with distinct ids, an active section whose
    parent is inactive is a root of the tree that GET /api/sections/tree
    serves without the inactive sections, but the student view never lists
    it, never has it on its path and never shows its exercises, wherever
    the clicks lead. *)
Theorem student_view_hides_promoted_sections
    (role : string) (db : table) (st : Nav.t) (r q : Row.t) :
  NoDup (map Row.id db) ->
  reachable role db st ->
  In r db -> active r = true -> In q db -> active q = false ->
  Row.parent_id r = Some (Row.id q) ->
  (exists forest,
     api_getSectionsTree role false db = Json forest /\
     In (Row.id r) (map Node.id forest)) /\
  ~ In (Row.id r) (map fst (Nav.sectionPath st)) /\
  match Nav.shown st with
  | SectionList _ sections => ~ In (Row.id r) (map Item.id sections)
  | ExerciseView _ section => fst section <> Row.id r
  end.
Proof.
  intros ND Hreach Hr Ha Hq Hqa Hp.
  split.
  { destruct (@inactive_parent_promotes db r q ND Hr Ha Hq Hqa Hp) as (forest & Hf & Hin).
    exists forest. split; [|assumption].
    unfold api_getSectionsTree, get_sections_tree. cbn [get_prop]. cbv zeta.
    unfold includeInactive. cbn [jsvalue_eqb]. rewrite andb_false_r. now rewrite Hf. }
  destruct (@reachable_nav_inv _ _ _ Hreach) as [Hchain Hsync].
  assert (forall c, In c (Nav.sectionPath st) -> fst c <> Row.id q) as Hnoq.
  { intros c Hc E.
    destruct (@nav_chain_In _ _ _ _ Hchain Hc) as (q' & Hq' & Hid & Ha' & _).
    assert (q' = q) as -> by (eapply NoDup_ids_inj; try eassumption; congruence).
    congruence. }
  assert (forall c, In c (Nav.sectionPath st) -> fst c <> Row.id r) as Hnor.
  { intros c Hc E.
    destruct (@nav_chain_In _ _ _ _ Hchain Hc) as (r' & Hr' & Hid & _ & Hpar).
    assert (r' = r) as -> by (eapply NoDup_ids_inj; try eassumption; congruence).
    destruct Hpar as [Hnone|(c0 & Hc0 & Hsome)]; [congruence|].
    apply (Hnoq c0 Hc0). congruence. }
  split.
  - intros H. apply in_map_iff in H as (c & E & Hc). now apply (Hnor c Hc).
  - destruct (Nav.shown st) as [n secs|n c]; cbn [in_sync] in Hsync.
    + destruct Hsync as [_ Hsecs]. intros H.
      apply in_map_iff in H as (item & E & Hitem).
      destruct (Hsecs item Hitem) as (r' & Hr' & <- & _ & Hpar).
      assert (r' = r) as -> by (eapply NoDup_ids_inj; eassumption).
      rewrite Hp in Hpar.
      destruct (last_crumb (Nav.sectionPath st)) as [c0|] eqn:L; [|discriminate].
      cbn [option_map] in Hpar. apply last_crumb_In in L.
      apply (Hnoq c0 L). congruence.
    + destruct Hsync as (_ & L & _). apply last_crumb_In in L. now apply Hnor.
Qed.

Lemma student_view_hides_promoted_sections_witness :
  (exists forest,
     api_getSectionsTree "student" false
       [row 1 "Grammar" None 0 0; row 2 "Tenses" (Some 1) 0 1] = Json forest /\
     In (Row.id (row 2 "Tenses" (Some 1) 0 1)) (map Node.id forest)) /\
  ~ In (Row.id (row 2 "Tenses" (Some 1) 0 1))
      (map fst (Nav.sectionPath
                  (renderStudentView "student"
                     [row 1 "Grammar" None 0 0; row 2 "Tenses" (Some 1) 0 1]))) /\
  match Nav.shown (renderStudentView "student"
                     [row 1 "Grammar" None 0 0; row 2 "Tenses" (Some 1) 0 1]) with
  | SectionList _ sections =>
      ~ In (Row.id (row 2 "Tenses" (Some 1) 0 1)) (map Item.id sections)
  | ExerciseView _ section => fst section <> Row.id (row 2 "Tenses" (Some 1) 0 1)
  end.
Proof.
  apply (@student_view_hides_promoted_sections "student"
           [row 1 "Grammar" None 0 0; row 2 "Tenses" (Some 1) 0 1]
           (renderStudentView "student"
              [row 1 "Grammar" None 0 0; row 2 "Tenses" (Some 1) 0 1])
           (row 2 "Tenses" (Some 1) 0 1) (row 1 "Grammar" None 0 0)).
  - cbn. repeat constructor; cbn; intuition discriminate.
  - apply reach_init.
  - cbn. tauto.
  - reflexivity.
  - cbn. tauto.
  - reflexivity.
  - reflexivity.
Defined.
